(** * The Coyote controlled scheduler: kernel and PCT strategy

    A shallow embedding of the serializing scheduler kernel (the reference
    logic of [SchedulerClient], kept next to the RPC stubs) and of the PCT
    exploration strategy ([coyote/strategies/pct_strategy.h]), with the
    properties of the specification stated and settled over them.

    Conventions.  Operation and resource ids are [size_t]; they are only
    compared, so they are modelled as [N].  Counters of type [size_t] are [N]
    with the wrap-around at [2^64] written out.  [std::map] is [gmap],
    [std::set] and [std::unordered_set] are [gset], [std::list] is [list].
    A thrown error code is the [Throw] outcome of an explicit state-passing
    function: the state changes made before the throw are kept, as in C++. *)

From Stdlib Require Import ZArith NArith List Lia Bool.
From stdpp Require Import base option list gmap sets fin_sets.

Local Open Scope N_scope.

(** ** Error codes and outcomes *)

Inductive ErrorCode : Type :=
| Success
| Failure
| DeadlockDetected
| DuplicateOperation
| NotExistingOperation
| MainOperationExplicitlyCreated
| MainOperationExplicitlyStarted
| MainOperationExplicitlyCompleted
| OperationNotStarted
| OperationAlreadyStarted
| OperationAlreadyCompleted
| DuplicateResource
| NotExistingResource
| ClientAttached
| ClientNotAttached
| InternalError
| SchedulerDisabled.

#[global] Instance ErrorCode_eq_dec : EqDecision ErrorCode.
Proof. solve_decision. Defined.

(** The outcome of a piece of code that may [throw]. *)
Inductive result (A : Type) : Type :=
| Ok (a : A)
| Throw (e : ErrorCode).
Arguments Ok {A} a.
Arguments Throw {A} e.

(** ** Machine integers *)

(** [size_t] and [uint64_t] arithmetic wraps at [2^64]. *)
Definition uint64_modulus : N := 2 ^ 64.
Definition wrap64 (n : N) : N := n mod uint64_modulus.

(** [int] is a 32-bit two's complement integer. *)
Definition int_min : Z := (- 2 ^ 31)%Z.
Definition int_max : Z := (2 ^ 31 - 1)%Z.

(** Conversion of an [int] to [uint64_t] (usual arithmetic conversions). *)
Definition int_to_uint64 (i : Z) : Z := (i mod 2 ^ 64)%Z.

(** Conversion of a [uint64_t] to [int]: the low 32 bits, read as signed. *)
Definition uint64_to_int (u : Z) : Z :=
  let low := (u mod 2 ^ 32)%Z in
  if (low <? 2 ^ 31)%Z then low else (low - 2 ^ 32)%Z.

(** ** The pseudo-random generator *)

(** Modelled from the spec: the class [Random] of [random.h] is not among the
    sources.  The strategy only calls [generator.next()], a [uint64_t]; the
    spec asks for a seeded generator that is reproducible.  The generator is
    therefore a parameter: a state type with a step function, whose output is
    reduced to the [uint64_t] range. *)
Class RandomGen (G : Type) : Type := { raw_next : G -> N * G }.

Definition gen_next {G} `{RandomGen G} (g : G) : N * G :=
  let '(v, g') := raw_next g in (wrap64 v, g').

(** A scripted generator for running the code on concrete inputs: it replays
    the listed values and yields [0] once they are used up. *)
#[global] Instance scripted_gen : RandomGen (list N) :=
  {| raw_next := fun g => match g with [] => (0, []) | v :: g' => (v, g') end |}.

(** ** The PCT strategy *)

Section PCT.
Context {G : Type} `{RandomGen G}.

Record PCTStrategy : Type := mkPCT {
  generator : G;
  iteration_seed : N;
  max_priority_switches : N;
  prioritized_operations : list N;
  known_operations : gset N;
  priority_change_points : gset N;
  scheduled_steps : N;
  schedule_length : N
}.

(** The constructor: [generator(seed)], no priorities, no change points. *)
Definition PCT_new (g : G) (seed bound : N) : PCTStrategy :=
  mkPCT g seed bound [] ∅ ∅ 0 0.

Definition set_generator (g : G) (s : PCTStrategy) : PCTStrategy :=
  mkPCT g (iteration_seed s) (max_priority_switches s) (prioritized_operations s)
    (known_operations s) (priority_change_points s) (scheduled_steps s)
    (schedule_length s).

Definition set_prioritized (l : list N) (s : PCTStrategy) : PCTStrategy :=
  mkPCT (generator s) (iteration_seed s) (max_priority_switches s) l
    (known_operations s) (priority_change_points s) (scheduled_steps s)
    (schedule_length s).

Definition set_known (k : gset N) (s : PCTStrategy) : PCTStrategy :=
  mkPCT (generator s) (iteration_seed s) (max_priority_switches s)
    (prioritized_operations s) k (priority_change_points s) (scheduled_steps s)
    (schedule_length s).

Definition set_change_points (c : gset N) (s : PCTStrategy) : PCTStrategy :=
  mkPCT (generator s) (iteration_seed s) (max_priority_switches s)
    (prioritized_operations s) (known_operations s) c (scheduled_steps s)
    (schedule_length s).

Definition set_scheduled_steps (n : N) (s : PCTStrategy) : PCTStrategy :=
  mkPCT (generator s) (iteration_seed s) (max_priority_switches s)
    (prioritized_operations s) (known_operations s) (priority_change_points s) n
    (schedule_length s).

Definition set_schedule_length (n : N) (s : PCTStrategy) : PCTStrategy :=
  mkPCT (generator s) (iteration_seed s) (max_priority_switches s)
    (prioritized_operations s) (known_operations s) (priority_change_points s)
    (scheduled_steps s) n.

(** [scheduled_steps++] *)
Definition incr_scheduled_steps (s : PCTStrategy) : PCTStrategy :=
  set_scheduled_steps (wrap64 (scheduled_steps s + 1)) s.

(** *** [get_operation_with_highest_priority] *)

(** The inner loop: the first enabled id equal to [p]. *)
Fixpoint find_enabled (p : N) (operations : list N) : option N :=
  match operations with
  | [] => None
  | next_op :: rest =>
      if N.eqb p next_op then Some next_op else find_enabled p rest
  end.

(** The outer loop over the priority list, front to back. *)
Fixpoint scan_priorities (prio operations : list N) : option N :=
  match prio with
  | [] => None
  | p :: rest =>
      match find_enabled p operations with
      | Some next_op => Some next_op
      | None => scan_priorities rest operations
      end
  end.

Definition get_operation_with_highest_priority
    (s : PCTStrategy) (operations : list N) : result N :=
  match scan_priorities (prioritized_operations s) operations with
  | Some op => Ok op
  | None => Throw InternalError
  end.

(** *** [set_new_operation_priorities] *)

(** [std::advance(it, index); insert(it, x)]: [x] lands at position [index]. *)
Definition insert_at (index : nat) (x : N) (l : list N) : list N :=
  take index l ++ x :: drop index l.

(** [(generator.next() % prioritized_operations.size()) + 1] *)
Definition priority_index (v : N) (l : list N) : nat :=
  N.to_nat (v mod N.of_nat (length l)) + 1.

(** The body of the loop over the enabled operations. *)
Definition assign_priority (s : PCTStrategy) (next_op : N) : PCTStrategy :=
  if decide (next_op ∈ known_operations s) then s
  else
    let '(v, g') := gen_next (generator s) in
    let index := priority_index v (prioritized_operations s) in
    set_known ({[next_op]} ∪ known_operations s)
      (set_prioritized (insert_at index next_op (prioritized_operations s))
         (set_generator g' s)).

(** The first step seeds an empty list with the current operation. *)
Definition seed_priorities (s : PCTStrategy) (current : N) : PCTStrategy :=
  if Nat.eqb (length (prioritized_operations s)) 0
  then set_known ({[current]} ∪ known_operations s)
         (set_prioritized (prioritized_operations s ++ [current]) s)
  else s.

Definition set_new_operation_priorities
    (s : PCTStrategy) (operations : list N) (current : N) : PCTStrategy :=
  foldl assign_priority (seed_priorities s current) operations.

(** *** [try_deprioritize_operation_with_highest_priority] *)

(** [std::list::remove]: every element equal to [op] goes. *)
Definition list_remove (op : N) (l : list N) : list N :=
  filter (fun x => x ≠ op) l.

Definition try_deprioritize_operation_with_highest_priority
    (s : PCTStrategy) (operations : list N) : PCTStrategy * result bool :=
  if Nat.leb (length operations) 1 then (s, Ok false)
  else if decide (scheduled_steps s ∈ priority_change_points s) then
    match get_operation_with_highest_priority s operations with
    | Throw e => (s, Throw e)
    | Ok op =>
        (set_prioritized (list_remove op (prioritized_operations s) ++ [op]) s,
         Ok true)
    end
  else (s, Ok false).

(** *** [next_operation], [next_boolean], [next_integer], [random_seed] *)

Definition next_operation
    (s : PCTStrategy) (operations : list N) (current : N)
  : PCTStrategy * result N :=
  let s1 := set_new_operation_priorities s operations current in
  match try_deprioritize_operation_with_highest_priority s1 operations with
  | (s2, Throw e) => (s2, Throw e)
  | (s2, Ok _) =>
      let s3 := incr_scheduled_steps s2 in
      (s3, get_operation_with_highest_priority s3 operations)
  end.

Definition next_boolean (s : PCTStrategy) : PCTStrategy * bool :=
  let s1 := incr_scheduled_steps s in
  let '(v, g') := gen_next (generator s1) in
  (set_generator g' s1, N.testbit v 0).

(** [generator.next() % max_value] with [max_value] an [int]: the divisor is
    converted to [uint64_t], the remainder back to [int].  A zero divisor is
    undefined behaviour: no value is returned. *)
Definition next_integer (s : PCTStrategy) (max_value : Z)
  : PCTStrategy * option Z :=
  let s1 := incr_scheduled_steps s in
  let '(v, g') := gen_next (generator s1) in
  let divisor := int_to_uint64 max_value in
  (set_generator g' s1,
   if (divisor =? 0)%Z then None
   else Some (uint64_to_int (Z.of_N v mod divisor)%Z)).

Definition random_seed (s : PCTStrategy) : N := iteration_seed s.

(** *** [shuffle_priority_change_points] *)

(** [for (size_t i = 1; i < schedule_length; i++) range.push_back(i)] *)
Definition build_range (schedule_len : N) : list N :=
  map N.of_nat (seq 1 (N.to_nat schedule_len - 1)).

(** [std::iter_swap] of the elements at two positions of the list. *)
Definition iter_swap (i j : nat) (l : list N) : list N :=
  match l !! i, l !! j with
  | Some a, Some b => <[i := b]> (<[j := a]> l)
  | _, _ => l
  end.

(** The shuffle loop, [idx] running from [range.size() - 1] down to [1]; the
    swap partner is [generator.next() % range.size()]. *)
Fixpoint shuffle_loop (idx : nat) (g : G) (range : list N) : G * list N :=
  match idx with
  | O => (g, range)
  | S idx' =>
      let '(v, g') := gen_next g in
      let point := N.to_nat (v mod N.of_nat (length range)) in
      shuffle_loop idx' g' (iter_swap idx point range)
  end.

(** The insertion loop: [count > 0 && it != range.end()]. *)
Fixpoint insert_change_points (count : N) (range : list N) (points : gset N)
  : gset N :=
  match range with
  | [] => points
  | x :: rest =>
      if N.eqb count 0 then points
      else insert_change_points (count - 1) rest ({[x]} ∪ points)
  end.

Definition shuffle_priority_change_points (s : PCTStrategy) : PCTStrategy :=
  if N.ltb 1 (schedule_length s) then
    let range := build_range (schedule_length s) in
    let '(g', shuffled) := shuffle_loop (length range - 1) (generator s) range in
    set_change_points
      (insert_change_points (max_priority_switches s) shuffled
         (priority_change_points s))
      (set_generator g' s)
  else s.

(** *** [prepare_next_iteration] *)

Definition prepare_next_iteration (s : PCTStrategy) (iteration : N)
  : PCTStrategy :=
  if N.ltb 1 iteration then
    let s1 := if N.ltb (schedule_length s) (scheduled_steps s)
              then set_schedule_length (scheduled_steps s) s else s in
    let s2 := set_scheduled_steps 0 s1 in
    let s3 := set_change_points ∅ (set_known ∅ (set_prioritized [] s2)) in
    shuffle_priority_change_points s3
  else s.

End PCT.

Arguments PCTStrategy G : clear implicits.

(** ** The strategy interface *)

(** Modelled from the spec: [strategy.h] is not among the sources.  The
    interface is the one the kernel calls and [PCTStrategy] overrides: pick
    the next operation among the enabled ones, the next boolean and integer
    choices, the seed, and the preparation of the next iteration. *)
Class Strategy (S : Type) : Type := {
  strategy_next_operation : S -> list N -> N -> S * result N;
  strategy_next_boolean : S -> S * bool;
  strategy_next_integer : S -> Z -> S * option Z;
  strategy_random_seed : S -> N;
  strategy_prepare_next_iteration : S -> N -> S
}.

#[global] Instance PCT_Strategy {G : Type} `{RandomGen G}
  : Strategy (PCTStrategy G) :=
  {| strategy_next_operation := next_operation;
     strategy_next_boolean := next_boolean;
     strategy_next_integer := next_integer;
     strategy_random_seed := random_seed;
     strategy_prepare_next_iteration := prepare_next_iteration |}.

(** ** Operation records *)

Module OperationStatus.
Inductive t : Type := None | Enabled | Blocked | Completed.
#[global] Instance eq_dec : EqDecision t.
Proof. solve_decision. Defined.
End OperationStatus.

(** The mode of a join on several operations or a wait on several resources. *)
Inductive WaitMode : Type := Any | All.

Module Operation.

(** Modelled from the spec: [operations/operation.h] is not among the
    sources.  The kernel reads and writes [id], [status], [is_scheduled]
    and [blocked_operation_ids] (the joiners) directly; the join target and
    the resource wait are the spec's optional set with a mode.  The
    condition variable [cv] carries no data and is left out. *)
Record t : Type := mk {
  id : N;
  status : OperationStatus.t;
  is_scheduled : bool;
  blocked_operation_ids : gset N;
  join_target : option (gset N * WaitMode);
  waiting_resources : option (gset N * WaitMode)
}.

(** [Operation(operation_id)]: status [None], not scheduled. *)
Definition new (operation_id : N) : t :=
  mk operation_id OperationStatus.None false ∅ Datatypes.None Datatypes.None.

Definition set_status (st : OperationStatus.t) (op : t) : t :=
  mk (id op) st (is_scheduled op) (blocked_operation_ids op) (join_target op)
    (waiting_resources op).

Definition set_is_scheduled (b : bool) (op : t) : t :=
  mk (id op) (status op) b (blocked_operation_ids op) (join_target op)
    (waiting_resources op).

Definition set_blocked_operation_ids (ids : gset N) (op : t) : t :=
  mk (id op) (status op) (is_scheduled op) ids (join_target op)
    (waiting_resources op).

Definition set_join_target (j : option (gset N * WaitMode)) (op : t) : t :=
  mk (id op) (status op) (is_scheduled op) (blocked_operation_ids op) j
    (waiting_resources op).

Definition set_waiting_resources (w : option (gset N * WaitMode)) (op : t) : t :=
  mk (id op) (status op) (is_scheduled op) (blocked_operation_ids op)
    (join_target op) w.

(** Modelled from the spec: the lifecycle goes to [Blocked] through a join or
    a wait and back to [Enabled] through a signal or a completion; no edge
    leaves [Completed] other than the revival by [create_operation]. *)
Definition unblock (op : t) : t :=
  match status op with
  | OperationStatus.Blocked => set_status OperationStatus.Enabled op
  | _ => op
  end.

(** Modelled from the spec: [join_on(target_ids, mode)] stores the join
    target. *)
Definition join_operations (operation_ids : list N) (wait_all : bool) (op : t) : t :=
  set_status OperationStatus.Blocked
    (set_join_target
       (Some (list_to_set operation_ids, if wait_all then All else Any)) op).

Definition join_operation (operation_id : N) (op : t) : t :=
  join_operations [operation_id] true op.

(** Modelled from the spec: a wait is satisfied by the first signal in mode
    [Any], and in mode [All] when the remaining set empties. *)
Definition satisfied (remaining : gset N) (mode : WaitMode) : bool :=
  match mode with
  | Any => true
  | All => bool_decide (remaining = ∅)
  end.

(** Modelled from the spec: [on_join_complete(completed_id)] returns true
    iff this operation is now unblocked. *)
Definition on_join_operation (operation_id : N) (op : t) : t * bool :=
  match join_target op with
  | Datatypes.None => (op, false)
  | Some (ids, mode) =>
      let remaining := ids ∖ {[operation_id]} in
      if satisfied remaining mode
      then (unblock (set_join_target Datatypes.None op), true)
      else (set_join_target (Some (remaining, mode)) op, false)
  end.

(** Modelled from the spec: the symmetric helpers for resource waits. *)
Definition wait_resource_signals (resource_ids : list N) (wait_all : bool) (op : t) : t :=
  set_status OperationStatus.Blocked
    (set_waiting_resources
       (Some (list_to_set resource_ids, if wait_all then All else Any)) op).

Definition wait_resource_signal (resource_id : N) (op : t) : t :=
  wait_resource_signals [resource_id] true op.

Definition on_resource_signal (resource_id : N) (op : t) : t * bool :=
  match waiting_resources op with
  | Datatypes.None => (op, false)
  | Some (ids, mode) =>
      let remaining := ids ∖ {[resource_id]} in
      if satisfied remaining mode
      then (unblock (set_waiting_resources Datatypes.None op), true)
      else (set_waiting_resources (Some (remaining, mode)) op, false)
  end.

End Operation.

(** ** The enabled set *)

Module Operations.

(** Modelled from the spec: [operations/operations.h] is not among the
    sources.  The collection keeps its members in insertion order, each with
    an enabled flag; [enable] and [disable] flip the flag in place, [remove]
    erases the member, [size(true)] counts the enabled members and
    [size(false)] all of them; the indexed view lists the enabled ids. *)
Definition t : Type := list (N * bool).

Definition empty : t := [].

Definition mem (operation_id : N) (ops : t) : bool :=
  existsb (fun m => N.eqb (fst m) operation_id) ops.

Definition is_enabled (operation_id : N) (ops : t) : bool :=
  existsb (fun m => N.eqb (fst m) operation_id && snd m) ops.

Definition set_flag (operation_id : N) (flag : bool) (ops : t) : t :=
  map (fun m => if N.eqb (fst m) operation_id then (fst m, flag) else m) ops.

Definition enable (operation_id : N) (ops : t) : t := set_flag operation_id true ops.

Definition disable (operation_id : N) (ops : t) : t := set_flag operation_id false ops.

Definition remove (operation_id : N) (ops : t) : t :=
  List.filter (fun m => negb (N.eqb (fst m) operation_id)) ops.

(** The indexed view [operations[idx]], [idx < operations.size()]. *)
Definition view (ops : t) : list N :=
  map fst (List.filter snd ops).

Definition size (enabled_only : bool) (ops : t) : nat :=
  if enabled_only then length (view ops) else length ops.

(** Inserting an id that is already enabled is an internal error; a member
    that is disabled is added as enabled in place. *)
Definition insert (operation_id : N) (ops : t) : result t :=
  if is_enabled operation_id ops then Throw InternalError
  else if mem operation_id ops then Ok (enable operation_id ops)
  else Ok (ops ++ [(operation_id, true)]).

Definition clear (ops : t) : t := [].

End Operations.

(** ** The scheduler kernel *)

(** The configured exploration strategy; [StrategyNone] disables the kernel.
    The other strategies plug into the same interface. *)
Inductive StrategyType : Type := StrategyNone | StrategyPCT.

(** Where an entry point suspends: the caller's own wakeup condition (the park
    loops of [start_operation_inner] and [schedule_next_inner]) or the
    condition variable of the pending starts. *)
Inductive WaitPoint : Type :=
| ParkedOn (operation_id : N)
| PendingOperations.

(** What propagates out of a [try] block: a thrown error code, or another
    exception ([std::out_of_range] from [std::map::at]). *)
Inductive Exception : Type :=
| Code (e : ErrorCode)
| OutOfRange.

Inductive outcome (A : Type) : Type :=
| Done (a : A)
| Raised (x : Exception)
| Suspended (w : WaitPoint).
Arguments Done {A} a.
Arguments Raised {A} x.
Arguments Suspended {A} w.

(** What the caller of an entry point observes: the returned code, or the
    thread parked inside the call. *)
Inductive Reply : Type :=
| Returned (e : ErrorCode)
| Waiting (w : WaitPoint).

Section Kernel.
Context {S : Type} `{Strategy S}.

Record SchedulerClient : Type := mkScheduler {
  exploration_strategy : StrategyType;
  strategy : S;
  operation_map : gmap N Operation.t;
  operations : Operations.t;
  resource_map : gmap N (gset N);
  scheduled_op_id : N;
  pending_start_operation_count : N;
  is_attached : bool;
  iteration_count : N;
  last_error_code : ErrorCode
}.

(** The id of the main operation. *)
Definition main_op_id : N := 0.

(** The constructor. *)
Definition SchedulerClient_new (config : StrategyType) (st : S) : SchedulerClient :=
  mkScheduler config st ∅ Operations.empty ∅ 0 0 false 0 Success.

Definition set_strategy (st : S) (k : SchedulerClient) : SchedulerClient :=
  mkScheduler (exploration_strategy k) st (operation_map k) (operations k)
    (resource_map k) (scheduled_op_id k) (pending_start_operation_count k)
    (is_attached k) (iteration_count k) (last_error_code k).

Definition set_operation_map (m : gmap N Operation.t) (k : SchedulerClient)
  : SchedulerClient :=
  mkScheduler (exploration_strategy k) (strategy k) m (operations k)
    (resource_map k) (scheduled_op_id k) (pending_start_operation_count k)
    (is_attached k) (iteration_count k) (last_error_code k).

Definition set_operations (o : Operations.t) (k : SchedulerClient)
  : SchedulerClient :=
  mkScheduler (exploration_strategy k) (strategy k) (operation_map k) o
    (resource_map k) (scheduled_op_id k) (pending_start_operation_count k)
    (is_attached k) (iteration_count k) (last_error_code k).

Definition set_resource_map (r : gmap N (gset N)) (k : SchedulerClient)
  : SchedulerClient :=
  mkScheduler (exploration_strategy k) (strategy k) (operation_map k)
    (operations k) r (scheduled_op_id k) (pending_start_operation_count k)
    (is_attached k) (iteration_count k) (last_error_code k).

Definition set_scheduled_op_id (i : N) (k : SchedulerClient) : SchedulerClient :=
  mkScheduler (exploration_strategy k) (strategy k) (operation_map k)
    (operations k) (resource_map k) i (pending_start_operation_count k)
    (is_attached k) (iteration_count k) (last_error_code k).

Definition set_pending_start_operation_count (n : N) (k : SchedulerClient)
  : SchedulerClient :=
  mkScheduler (exploration_strategy k) (strategy k) (operation_map k)
    (operations k) (resource_map k) (scheduled_op_id k) n
    (is_attached k) (iteration_count k) (last_error_code k).

Definition set_is_attached (b : bool) (k : SchedulerClient) : SchedulerClient :=
  mkScheduler (exploration_strategy k) (strategy k) (operation_map k)
    (operations k) (resource_map k) (scheduled_op_id k)
    (pending_start_operation_count k) b (iteration_count k) (last_error_code k).

Definition set_iteration_count (n : N) (k : SchedulerClient) : SchedulerClient :=
  mkScheduler (exploration_strategy k) (strategy k) (operation_map k)
    (operations k) (resource_map k) (scheduled_op_id k)
    (pending_start_operation_count k) (is_attached k) n (last_error_code k).

Definition set_last_error_code (e : ErrorCode) (k : SchedulerClient)
  : SchedulerClient :=
  mkScheduler (exploration_strategy k) (strategy k) (operation_map k)
    (operations k) (resource_map k) (scheduled_op_id k)
    (pending_start_operation_count k) (is_attached k) (iteration_count k) e.

(** *** Kernel code as state passing with exceptions *)

Definition M (A : Type) : Type := SchedulerClient -> SchedulerClient * outcome A.

Definition ret {A} (a : A) : M A := fun k => (k, Done a).

Definition bind {A B} (m : M A) (f : A -> M B) : M B :=
  fun k =>
    match m k with
    | (k', Done a) => f a k'
    | (k', Raised x) => (k', Raised x)
    | (k', Suspended w) => (k', Suspended w)
    end.

Definition throw {A} (e : ErrorCode) : M A := fun k => (k, Raised (Code e)).

Definition suspend {A} (w : WaitPoint) : M A := fun k => (k, Suspended w).

Definition get : M SchedulerClient := fun k => (k, Done k).

Definition modify (f : SchedulerClient -> SchedulerClient) : M unit :=
  fun k => (f k, Done tt).

Definition when (b : bool) (m : M unit) : M unit := if b then m else ret tt.

Fixpoint for_each {A} (l : list A) (body : A -> M unit) : M unit :=
  match l with
  | [] => ret tt
  | x :: rest => bind (body x) (fun _ => for_each rest body)
  end.

(** [operation_map.at(id)] *)
Definition operation_at (operation_id : N) : M Operation.t :=
  fun k =>
    match operation_map k !! operation_id with
    | Some op => (k, Done op)
    | None => (k, Raised OutOfRange)
    end.

(** A write through the pointer [operation_map.at(id).get()]. *)
Definition update_operation (operation_id : N) (f : Operation.t -> Operation.t)
  : M unit :=
  modify (fun k => set_operation_map (alter f operation_id (operation_map k)) k).

Definition update_operations (f : Operations.t -> Operations.t) : M unit :=
  modify (fun k => set_operations (f (operations k)) k).

(** [std::map::insert]: an existing key keeps its value. *)
Definition map_insert_new (operation_id : N) (m : gmap N Operation.t)
  : gmap N Operation.t :=
  match m !! operation_id with
  | Some _ => m
  | None => <[operation_id := Operation.new operation_id]> m
  end.

End Kernel.

Arguments SchedulerClient S : clear implicits.
Arguments M S A : clear implicits.

Declare Scope kernel_scope.
Delimit Scope kernel_scope with kernel.
Notation "x <- m ;; f" := (bind m (fun x => f))
  (at level 100, m at level 99, f at level 200, right associativity, only parsing)
  : kernel_scope.
Notation "m ;; f" := (bind m (fun _ => f))
  (at level 100, f at level 200, right associativity, only parsing)
  : kernel_scope.

Section EntryPoints.
Context {S : Type} `{Strategy S}.
Local Open Scope kernel_scope.

(** *** The common prologue and epilogue of the entry points *)

(** [if (configuration->exploration_strategy() == StrategyType::None) throw] *)
Definition check_enabled : M S unit :=
  k <- get ;;
  match exploration_strategy k with
  | StrategyNone => throw SchedulerDisabled
  | StrategyPCT => ret tt
  end.

(** [if (!is_attached) throw ClientNotAttached] *)
Definition check_attached : M S unit :=
  k <- get ;;
  if is_attached k then ret tt else throw ClientNotAttached.

(** The [try] block with its two handlers, followed by
    [return last_error_code]: a thrown code is stored, any other exception is
    stored as [Failure]; a normal exit stores nothing.  A suspended call has
    not returned yet. *)
Definition run_entry (body : M S unit) (k : SchedulerClient S)
  : SchedulerClient S * Reply :=
  match body k with
  | (k', Done _) => (k', Returned (last_error_code k'))
  | (k', Raised (Code e)) => (set_last_error_code e k', Returned e)
  | (k', Raised OutOfRange) => (set_last_error_code Failure k', Returned Failure)
  | (k', Suspended w) => (k', Waiting w)
  end.

(** *** [create_operation_inner] *)

(** [scheduled_op_id = operation_id; result.first->second->is_scheduled = true] *)
Definition schedule_first (operation_id : N) : M S unit :=
  modify (set_scheduled_op_id operation_id) ;;
  update_operation operation_id (Operation.set_is_scheduled true).

(** [operation_map.insert(...)] followed by the test on the size of the map. *)
Definition insert_and_schedule_first (operation_id : N) : M S unit :=
  modify (fun k => set_operation_map (map_insert_new operation_id (operation_map k)) k) ;;
  k <- get ;;
  when (Nat.eqb (size (operation_map k)) 1) (schedule_first operation_id).

(** The revival of a completed operation. *)
Definition revive (op : Operation.t) : Operation.t :=
  Operation.set_is_scheduled false (Operation.set_status OperationStatus.None op).

Definition create_operation_inner (operation_id : N) : M S unit :=
  k <- get ;;
  match operation_map k !! operation_id with
  | None => insert_and_schedule_first operation_id
  | Some existing_op =>
      if decide (Operation.status existing_op = OperationStatus.Completed)
      then update_operation operation_id revive
      else throw DuplicateOperation
  end ;;
  insert_and_schedule_first operation_id ;;
  modify (fun k =>
    set_pending_start_operation_count
      (wrap64 (pending_start_operation_count k + 1)) k).

(** *** [start_operation_inner] *)

(** [while (!op->is_scheduled) op->cv.wait(lock)] *)
Definition park (operation_id : N) : M S unit :=
  op <- operation_at operation_id ;;
  if Operation.is_scheduled op then ret tt else suspend (ParkedOn operation_id).

(** [operations.insert(op->id)] *)
Definition operations_insert (operation_id : N) : M S unit :=
  k <- get ;;
  match Operations.insert operation_id (operations k) with
  | Ok ops => modify (set_operations ops)
  | Throw e => throw e
  end.

Definition start_operation_inner (operation_id : N) : M S unit :=
  k <- get ;;
  match operation_map k !! operation_id with
  | None => throw NotExistingOperation
  | Some op =>
      if decide (Operation.status op = OperationStatus.Completed)
      then throw OperationAlreadyCompleted
      else if decide (Operation.status op ≠ OperationStatus.None)
      then throw OperationAlreadyStarted
      else
        modify (fun k =>
          set_pending_start_operation_count
            (wrap64 (pending_start_operation_count k + (uint64_modulus - 1))) k) ;;
        if decide (Operation.status op ≠ OperationStatus.Completed)
        then
          update_operation operation_id
            (Operation.set_status OperationStatus.Enabled) ;;
          operations_insert (Operation.id op) ;;
          park operation_id
        else ret tt
  end.

(** *** [schedule_next_inner] *)

Definition schedule_next_inner : M S unit :=
  k <- get ;;
  if N.ltb 0 (pending_start_operation_count k) then suspend PendingOperations
  else if Nat.eqb (Operations.size true (operations k)) 0 then
    if Nat.ltb 0 (Operations.size false (operations k))
    then throw DeadlockDetected
    else throw Success
  else
    let '(st, next) :=
      strategy_next_operation (strategy k) (Operations.view (operations k))
        (scheduled_op_id k) in
    modify (set_strategy st) ;;
    match next with
    | Throw e => throw e
    | Ok next_id =>
        next_op <- operation_at next_id ;;
        let previous_id := scheduled_op_id k in
        modify (set_scheduled_op_id next_id) ;;
        if decide (previous_id ≠ next_id) then
          update_operation next_id (Operation.set_is_scheduled true) ;;
          previous_op <- operation_at previous_id ;;
          if decide (Operation.status previous_op ≠ OperationStatus.Completed)
          then
            update_operation previous_id (Operation.set_is_scheduled false) ;;
            park previous_id
          else ret tt
        else ret tt
    end.

(** *** [attach] and [detach] *)

(** The [try] block with its two handlers where no [return] statement follows
    it, as in [attach]: the error code is stored in [last_error_code] and the
    call ends without a value of the code's.  What is left to observe is
    whether the call has ended or waits. *)
Definition run_block (body : M S unit) (k : SchedulerClient S)
  : SchedulerClient S * option WaitPoint :=
  match body k with
  | (k', Done _) => (k', None)
  | (k', Raised (Code e)) => (set_last_error_code e k', None)
  | (k', Raised OutOfRange) => (set_last_error_code Failure k', None)
  | (k', Suspended w) => (k', Some w)
  end.

Definition attach (k : SchedulerClient S)
  : SchedulerClient S * option WaitPoint :=
  run_block
    (check_enabled ;;
     k0 <- get ;;
     if is_attached k0 then throw ClientAttached
     else
       modify (set_is_attached true) ;;
       modify (fun k => set_iteration_count (wrap64 (iteration_count k + 1)) k) ;;
       modify (set_last_error_code Success) ;;
       k1 <- get ;;
       when (N.ltb 1 (iteration_count k1))
         (modify (fun k =>
            set_strategy
              (strategy_prepare_next_iteration (strategy k) (iteration_count k)) k)) ;;
       create_operation_inner main_op_id ;;
       start_operation_inner main_op_id) k.

(** The cancellation of an operation that has not completed. *)
Definition cancel (op : Operation.t) : Operation.t :=
  Operation.set_status OperationStatus.Completed
    (Operation.set_is_scheduled true op).

Definition cancel_operation (operation_id : N) : M S unit :=
  next_op <- operation_at operation_id ;;
  if decide (Operation.status next_op ≠ OperationStatus.Completed) then
    update_operation operation_id cancel ;;
    update_operations (Operations.disable (Operation.id next_op))
  else ret tt.

Definition detach (k : SchedulerClient S) : SchedulerClient S * Reply :=
  run_entry
    (check_enabled ;;
     check_attached ;;
     modify (set_is_attached false) ;;
     main_op <- operation_at main_op_id ;;
     update_operation main_op_id (Operation.set_status OperationStatus.Completed) ;;
     update_operations (Operations.disable (Operation.id main_op)) ;;
     k1 <- get ;;
     for_each (map fst (map_to_list (operation_map k1))) cancel_operation ;;
     modify (set_operation_map ∅) ;;
     update_operations Operations.clear ;;
     modify (set_resource_map ∅) ;;
     modify (set_pending_start_operation_count 0)) k.

(** *** Operations *)

Definition create_operation (operation_id : N) (k : SchedulerClient S)
  : SchedulerClient S * Reply :=
  run_entry
    (check_enabled ;;
     check_attached ;;
     (if N.eqb operation_id main_op_id
      then throw MainOperationExplicitlyCreated else ret tt) ;;
     create_operation_inner operation_id) k.

Definition start_operation (operation_id : N) (k : SchedulerClient S)
  : SchedulerClient S * Reply :=
  run_entry
    (check_enabled ;;
     check_attached ;;
     (if N.eqb operation_id main_op_id
      then throw MainOperationExplicitlyStarted else ret tt) ;;
     start_operation_inner operation_id) k.

(** [join_op->blocked_operation_ids.insert(scheduled_op_id)] *)
Definition add_joiner (joiner : N) (op : Operation.t) : Operation.t :=
  Operation.set_blocked_operation_ids
    ({[joiner]} ∪ Operation.blocked_operation_ids op) op.

(** The caller blocks: its record stores the wait, the enabled set disables
    it, and the token is passed on. *)
Definition block_scheduled (store : Operation.t -> Operation.t) : M S unit :=
  k <- get ;;
  scheduled_op <- operation_at (scheduled_op_id k) ;;
  update_operation (scheduled_op_id k) store ;;
  update_operations (Operations.disable (Operation.id scheduled_op)).

Definition join_operation (operation_id : N) (k : SchedulerClient S)
  : SchedulerClient S * Reply :=
  run_entry
    (check_enabled ;;
     check_attached ;;
     k0 <- get ;;
     match operation_map k0 !! operation_id with
     | None => throw NotExistingOperation
     | Some join_op =>
         if decide (Operation.status join_op ≠ OperationStatus.Completed) then
           update_operation operation_id (add_joiner (scheduled_op_id k0)) ;;
           block_scheduled (Operation.join_operation operation_id) ;;
           schedule_next_inner
         else ret tt
     end) k.

(** The loop of [join_operations]: the targets that have not completed. *)
Fixpoint collect_join_operations (operation_ids join_operations : list N)
  : M S (list N) :=
  match operation_ids with
  | [] => ret join_operations
  | operation_id :: rest =>
      k <- get ;;
      match operation_map k !! operation_id with
      | None => throw NotExistingOperation
      | Some join_op =>
          if decide (Operation.status join_op ≠ OperationStatus.Completed) then
            update_operation operation_id (add_joiner (scheduled_op_id k)) ;;
            collect_join_operations rest (join_operations ++ [operation_id])
          else collect_join_operations rest join_operations
      end
  end.

Definition join_operations (operation_ids : list N) (wait_all : bool)
    (k : SchedulerClient S) : SchedulerClient S * Reply :=
  run_entry
    (check_enabled ;;
     check_attached ;;
     joins <- collect_join_operations operation_ids [] ;;
     match joins with
     | [] => ret tt
     | _ :: _ =>
         block_scheduled (Operation.join_operations joins wait_all) ;;
         schedule_next_inner
     end) k.

(** The body of the loop over the joiners of a completed operation. *)
Definition notify_joiner (operation_id blocked_id : N) : M S unit :=
  blocked_op <- operation_at blocked_id ;;
  let '(op', unblocked) := Operation.on_join_operation operation_id blocked_op in
  update_operation blocked_id (fun _ => op') ;;
  when unblocked (update_operations (Operations.enable (Operation.id blocked_op))).

Definition complete_operation (operation_id : N) (k : SchedulerClient S)
  : SchedulerClient S * Reply :=
  run_entry
    (check_enabled ;;
     check_attached ;;
     (if N.eqb operation_id main_op_id
      then throw MainOperationExplicitlyCompleted else ret tt) ;;
     k0 <- get ;;
     match operation_map k0 !! operation_id with
     | None => throw NotExistingOperation
     | Some op =>
         if decide (Operation.status op = OperationStatus.Completed)
         then throw OperationAlreadyCompleted
         else if decide (Operation.status op = OperationStatus.None)
         then throw OperationNotStarted
         else
           update_operation operation_id
             (Operation.set_status OperationStatus.Completed) ;;
           update_operations (Operations.remove (Operation.id op)) ;;
           for_each (elements (Operation.blocked_operation_ids op))
             (notify_joiner operation_id) ;;
           schedule_next_inner
     end) k.

(** *** Resources *)

Definition create_resource (resource_id : N) (k : SchedulerClient S)
  : SchedulerClient S * Reply :=
  run_entry
    (check_enabled ;;
     check_attached ;;
     k0 <- get ;;
     match resource_map k0 !! resource_id with
     | Some _ => throw DuplicateResource
     | None =>
         modify (fun k => set_resource_map (<[resource_id := ∅]> (resource_map k)) k)
     end) k.

(** [it = resource_map.find(id)], [NotExistingResource] at [end()], then
    [blocked_operation_ids->insert(scheduled_op_id)]. *)
Definition block_on_resource (resource_id : N) : M S unit :=
  k <- get ;;
  match resource_map k !! resource_id with
  | None => throw NotExistingResource
  | Some blocked_operation_ids =>
      modify (fun k =>
        set_resource_map
          (<[resource_id := {[scheduled_op_id k]} ∪ blocked_operation_ids]>
             (resource_map k)) k)
  end.

Definition wait_resource (resource_id : N) (k : SchedulerClient S)
  : SchedulerClient S * Reply :=
  run_entry
    (check_enabled ;;
     check_attached ;;
     block_scheduled (Operation.wait_resource_signal resource_id) ;;
     block_on_resource resource_id ;;
     schedule_next_inner) k.

Definition wait_resources (resource_ids : list N) (wait_all : bool)
    (k : SchedulerClient S) : SchedulerClient S * Reply :=
  run_entry
    (check_enabled ;;
     check_attached ;;
     block_scheduled (Operation.wait_resource_signals resource_ids wait_all) ;;
     for_each resource_ids block_on_resource ;;
     schedule_next_inner) k.

(** The body of the loop over the operations blocked on a resource. *)
Definition notify_blocked (resource_id blocked_id : N) : M S unit :=
  blocked_op <- operation_at blocked_id ;;
  let '(op', unblocked) := Operation.on_resource_signal resource_id blocked_op in
  update_operation blocked_id (fun _ => op') ;;
  when unblocked (update_operations (Operations.enable (Operation.id blocked_op))).

Definition signal_resource (resource_id : N) (k : SchedulerClient S)
  : SchedulerClient S * Reply :=
  run_entry
    (check_enabled ;;
     check_attached ;;
     k0 <- get ;;
     match resource_map k0 !! resource_id with
     | None => throw NotExistingResource
     | Some blocked_operation_ids =>
         for_each (elements blocked_operation_ids) (notify_blocked resource_id) ;;
         modify (fun k => set_resource_map (<[resource_id := ∅]> (resource_map k)) k)
     end) k.

(** The overload [signal_resource(resource_id, operation_id)]. *)
Definition signal_resource_operation (resource_id operation_id : N)
    (k : SchedulerClient S) : SchedulerClient S * Reply :=
  run_entry
    (check_enabled ;;
     check_attached ;;
     k0 <- get ;;
     match resource_map k0 !! resource_id with
     | None => throw NotExistingResource
     | Some blocked_operation_ids =>
         if decide (operation_id ∈ blocked_operation_ids) then
           notify_blocked resource_id operation_id ;;
           modify (fun k =>
             set_resource_map
               (<[resource_id := blocked_operation_ids ∖ {[operation_id]}]>
                  (resource_map k)) k)
         else ret tt
     end) k.

Definition delete_resource (resource_id : N) (k : SchedulerClient S)
  : SchedulerClient S * Reply :=
  run_entry
    (check_enabled ;;
     check_attached ;;
     k0 <- get ;;
     match resource_map k0 !! resource_id with
     | None => throw NotExistingResource
     | Some _ => modify (fun k => set_resource_map (delete resource_id (resource_map k)) k)
     end) k.

(** *** Scheduling and choices *)

Definition schedule_next (k : SchedulerClient S) : SchedulerClient S * Reply :=
  run_entry (check_enabled ;; check_attached ;; schedule_next_inner) k.

(** A call that waited for the pending starts goes on with the rest of
    [schedule_next_inner] once the count has reached zero; the loop tests the
    count again, so going on is running [schedule_next_inner] in the [try]
    block the call was made in. *)
Definition resume_schedule_next (k : SchedulerClient S) : SchedulerClient S * Reply :=
  run_entry schedule_next_inner k.

(** A call parked on [operation_id] that is woken: in its park loop it throws
    [ClientNotAttached] after [detach], and otherwise tests [is_scheduled]
    again through the pointer it holds, to return when the operation holds
    the token and to wait again when it does not.  The park loops are those
    of [start_operation_inner] and [schedule_next_inner], in the entry
    points that return [last_error_code].  [detach] destroys the records, so
    the pointer of a call that is still parked when the kernel is attached
    again dangles and the code reads freed memory: the model reads the
    record now filed under the id, and leaves the call waiting when there is
    none. *)
Definition resume_parked (operation_id : N) (k : SchedulerClient S)
  : SchedulerClient S * Reply :=
  run_entry
    (check_attached ;;
     k0 <- get ;;
     match operation_map k0 !! operation_id with
     | Some op =>
         if Operation.is_scheduled op then ret tt
         else suspend (ParkedOn operation_id)
     | None => suspend (ParkedOn operation_id)
     end) k.

Definition kernel_next_boolean (k : SchedulerClient S) : SchedulerClient S * bool :=
  let '(st, b) := strategy_next_boolean (strategy k) in (set_strategy st k, b).

Definition kernel_next_integer (max_value : Z) (k : SchedulerClient S)
  : SchedulerClient S * option Z :=
  let '(st, v) := strategy_next_integer (strategy k) max_value in
  (set_strategy st k, v).

Definition kernel_random_seed (k : SchedulerClient S) : N :=
  strategy_random_seed (strategy k).

Definition scheduled_operation_id (k : SchedulerClient S) : N := scheduled_op_id k.

End EntryPoints.

(** ** Reachable states *)

(** The public calls of the strategy. *)
Inductive PCTCall : Type :=
| PCTNextOperation (operations : list N) (current : N)
| PCTNextBoolean
| PCTNextInteger (max_value : Z)
| PCTPrepareNextIteration (iteration : N).

Section PCTReachable.
Context {G : Type} `{RandomGen G}.

Definition pct_perform (c : PCTCall) (s : PCTStrategy G) : PCTStrategy G :=
  match c with
  | PCTNextOperation operations current => fst (next_operation s operations current)
  | PCTNextBoolean => fst (next_boolean s)
  | PCTNextInteger max_value => fst (next_integer s max_value)
  | PCTPrepareNextIteration iteration => prepare_next_iteration s iteration
  end.

(** The states of a strategy object: the constructor's, and those any
    sequence of public calls leads to. *)
Inductive pct_reachable : PCTStrategy G -> Prop :=
| pct_reachable_new g seed bound : pct_reachable (PCT_new g seed bound)
| pct_reachable_call c s : pct_reachable s -> pct_reachable (pct_perform c s).

(** Every operation with a known priority is in the priority list. *)
Definition known_prioritized (s : PCTStrategy G) : Prop :=
  ∀ x, x ∈ known_operations s -> x ∈ prioritized_operations s.

(** The bound on the change points: at most [max_priority_switches] of them,
    each in [[1, schedule_length)]. *)
Definition change_points_bounded (s : PCTStrategy G) : Prop :=
  (size (priority_change_points s) <= N.to_nat (max_priority_switches s))%nat
  ∧ ∀ x, x ∈ priority_change_points s -> 1 <= x < schedule_length s.

(** The fields the bound on the change points speaks of. *)
Definition change_point_fields (s : PCTStrategy G) : gset N * N * N :=
  (priority_change_points s, max_priority_switches s, schedule_length s).

(** The fields the priorities live in. *)
Definition priority_fields (s : PCTStrategy G) : list N * gset N :=
  (prioritized_operations s, known_operations s).

End PCTReachable.

(** The entry points of the kernel, and the two ways a suspended call goes
    on.  Every entry point runs under the kernel lock, and a suspended call
    holds no lock: a concurrent run is a sequence of these steps. *)
Inductive Call : Type :=
| CallAttach
| CallDetach
| CallCreateOperation (operation_id : N)
| CallStartOperation (operation_id : N)
| CallJoinOperation (operation_id : N)
| CallJoinOperations (operation_ids : list N) (wait_all : bool)
| CallCompleteOperation (operation_id : N)
| CallCreateResource (resource_id : N)
| CallWaitResource (resource_id : N)
| CallWaitResources (resource_ids : list N) (wait_all : bool)
| CallSignalResource (resource_id : N)
| CallSignalResourceOperation (resource_id operation_id : N)
| CallDeleteResource (resource_id : N)
| CallScheduleNext
| CallNextBoolean
| CallNextInteger (max_value : Z)
| ResumeScheduleNext
| ResumeParked (operation_id : N).

Section KernelReachable.
Context {S : Type} `{Strategy S}.

Definition perform (c : Call) (k : SchedulerClient S) : SchedulerClient S :=
  match c with
  | CallAttach => fst (attach k)
  | CallDetach => fst (detach k)
  | CallCreateOperation i => fst (create_operation i k)
  | CallStartOperation i => fst (start_operation i k)
  | CallJoinOperation i => fst (join_operation i k)
  | CallJoinOperations l b => fst (join_operations l b k)
  | CallCompleteOperation i => fst (complete_operation i k)
  | CallCreateResource r => fst (create_resource r k)
  | CallWaitResource r => fst (wait_resource r k)
  | CallWaitResources l b => fst (wait_resources l b k)
  | CallSignalResource r => fst (signal_resource r k)
  | CallSignalResourceOperation r i => fst (signal_resource_operation r i k)
  | CallDeleteResource r => fst (delete_resource r k)
  | CallScheduleNext => fst (schedule_next k)
  | CallNextBoolean => fst (kernel_next_boolean k)
  | CallNextInteger m => fst (kernel_next_integer m k)
  | ResumeScheduleNext => fst (resume_schedule_next k)
  | ResumeParked i => fst (resume_parked i k)
  end.

(** The state after a sequence of calls. *)
Definition run (calls : list Call) (k : SchedulerClient S) : SchedulerClient S :=
  foldl (fun k c => perform c k) k calls.

(** The kernel states any sequence of calls leads to from a new kernel. *)
Inductive reachable : SchedulerClient S -> Prop :=
| reachable_new config st : reachable (SchedulerClient_new config st)
| reachable_call c k : reachable k -> reachable (perform c k).

(** The operation records that hold the token flag. *)
Definition scheduled_operations (k : SchedulerClient S) : list N :=
  map fst
    (List.filter (fun entry => Operation.is_scheduled (snd entry))
       (map_to_list (operation_map k))).

(** An operation that holds the flag and has not completed. *)
Definition holds_token (op : Operation.t) : Prop :=
  Operation.is_scheduled op = true
  ∧ Operation.status op ≠ OperationStatus.Completed.

(** The invariant of the token: a record that holds the flag and has not
    completed is the record of [scheduled_op_id]. *)
Definition token_invariant (k : SchedulerClient S) : Prop :=
  ∀ i op, operation_map k !! i = Some op -> holds_token op -> i = scheduled_op_id k.

End KernelReachable.

(** ** The textbook shuffle, for comparison *)

(** Modelled from the spec: the Fisher-Yates shuffle the specification and the
    comment of [shuffle_priority_change_points] name.  For [idx] from the last
    position down to [1], the swap partner is drawn among the positions
    [0 .. idx]. *)
Fixpoint fisher_yates_loop {G} `{RandomGen G} (idx : nat) (g : G) (range : list N)
  : G * list N :=
  match idx with
  | O => (g, range)
  | S idx' =>
      let '(v, g') := gen_next g in
      let point := N.to_nat (v mod N.of_nat (idx + 1)) in
      fisher_yates_loop idx' g' (iter_swap idx point range)
  end.

(** The change points the specification describes: the first
    [max_priority_switches] elements of the Fisher-Yates permutation of
    [1 .. schedule_length - 1]. *)
Definition fisher_yates_change_points {G} `{RandomGen G} (s : PCTStrategy G)
  : gset N :=
  let range := build_range (schedule_length s) in
  let '(_, shuffled) := fisher_yates_loop (length range - 1) (generator s) range in
  list_to_set (take (N.to_nat (max_priority_switches s)) shuffled).

(** ** Steps that keep the token in place *)

Section KernelSteps.
Context {S : Type} `{Strategy S}.

(** A change of state that moves no token: [scheduled_op_id] is as before,
    and a record that holds the token afterwards did so before, unless it is
    the record of [scheduled_op_id]. *)
Definition benign_step (k k' : SchedulerClient S) : Prop :=
  scheduled_op_id k' = scheduled_op_id k
  ∧ ∀ i op', operation_map k' !! i = Some op' -> holds_token op' ->
      i = scheduled_op_id k
      ∨ ∃ op, operation_map k !! i = Some op ∧ holds_token op.

Definition benign {A} (m : M S A) : Prop :=
  ∀ k, benign_step k (fst (m k)).

Definition preserves_token_invariant {A} (m : M S A) : Prop :=
  ∀ k, token_invariant k -> token_invariant (fst (m k)).

(** The records are filed under their own id, and the operations blocked on
    a resource are registered. *)
Definition registered (k : SchedulerClient S) : Prop :=
  (∀ i op, operation_map k !! i = Some op -> Operation.id op = i)
  ∧ (∀ r blocked b, resource_map k !! r = Some blocked -> b ∈ blocked ->
       is_Some (operation_map k !! b)).

Definition preserves_registered {A} (m : M S A) : Prop :=
  ∀ k, registered k -> registered (fst (m k)).

End KernelSteps.

(** ** Concrete inputs *)

(** A strategy with bound [2], after four choices in the first iteration, at
    the start of the second and of the third iteration. *)
Definition pct_example : PCTStrategy (list N) :=
  pct_perform (PCTPrepareNextIteration 2)
    (pct_perform PCTNextBoolean
       (pct_perform PCTNextBoolean
          (pct_perform (PCTNextInteger 10)
             (pct_perform (PCTNextOperation [0; 1] 0)
                (PCT_new [5; 25; 1; 0; 0; 0; 0; 2] 1 2))))).

(** A new kernel with the PCT strategy, seed [1] and bound [0]. *)
Definition kernel_new : SchedulerClient (PCTStrategy (list N)) :=
  SchedulerClient_new StrategyPCT (PCT_new [] 1 0).

(** Scenario S4 up to the completion of operation [7]. *)
Definition kernel_completed_7 : SchedulerClient (PCTStrategy (list N)) :=
  run [CallAttach; CallCreateOperation 7; CallStartOperation 7;
       CallCompleteOperation 7] kernel_new.

(** The status of an operation, when it is registered. *)
Definition status_of {S} (operation_id : N) (k : SchedulerClient S)
  : option OperationStatus.t :=
  Operation.status <$> operation_map k !! operation_id.

(** Operation [7] is created twice: the second call throws
    [DuplicateOperation]. *)
Definition kernel_after_duplicate : SchedulerClient (PCTStrategy (list N)) :=
  run [CallAttach; CallCreateOperation 7; CallCreateOperation 7] kernel_new.

(** The main operation joins operation [1], which then completes: the token
    goes back to the main operation. *)
Definition kernel_after_completion : SchedulerClient (PCTStrategy (list N)) :=
  run [CallAttach; CallCreateOperation 1; CallStartOperation 1;
       CallJoinOperation 1; CallCompleteOperation 1] kernel_new.

(** The main operation and operation [1] both wait for resource [5]: no
    operation is enabled any more. *)
Definition kernel_deadlocked : SchedulerClient (PCTStrategy (list N)) :=
  run [CallAttach; CallCreateOperation 1; CallStartOperation 1;
       CallCreateResource 5; CallWaitResource 5; CallWaitResource 5]
    kernel_new.

(** The main operation waits for resource [5]; operation [1] has the token. *)
Definition kernel_waiting : SchedulerClient (PCTStrategy (list N)) :=
  run [CallAttach; CallCreateOperation 1; CallStartOperation 1;
       CallCreateResource 5; CallWaitResource 5] kernel_new.

(** An attached kernel with the main operation only. *)
Definition kernel_attached : SchedulerClient (PCTStrategy (list N)) :=
  run [CallAttach] kernel_new.

(** The main operation waits for resource [5] and operation [1] completes:
    no operation is enabled and the main operation is still blocked. *)
Definition kernel_blocked_after_completion
  : SchedulerClient (PCTStrategy (list N)) :=
  run [CallAttach; CallCreateOperation 1; CallStartOperation 1;
       CallCreateResource 5; CallWaitResource 5; CallCompleteOperation 1]
    kernel_new.

(** The records that hold the token flag and have not completed. *)
Definition live_scheduled_operations {S} (k : SchedulerClient S) : list N :=
  map fst
    (List.filter
       (fun entry =>
          Operation.is_scheduled (snd entry)
          && negb (bool_decide
                     (Operation.status (snd entry) = OperationStatus.Completed)))
       (map_to_list (operation_map k))).

(** ** The priority list *)

(** The number of values [v < bound] of [generator.next()] for which
    [(v % size) + 1] is the index [index] in the list [l]. *)
Definition values_selecting (bound : N) (l : list N) (index : nat) : N :=
  N.recursion 0
    (fun v count =>
       if Nat.eqb (priority_index v l) index then N.succ count else count)
    bound.

Section PCTPriorityList.
Context {G : Type} `{RandomGen G}.

(** The priority list holds an operation at most once, and
    [known_operations] is the set of its elements. *)
Definition priorities_distinct (s : PCTStrategy G) : Prop :=
  NoDup (prioritized_operations s)
  ∧ ∀ x, x ∈ known_operations s <-> x ∈ prioritized_operations s.

End PCTPriorityList.

(** ** The ids a kernel state refers to *)

Section KernelSafety.
Context {S : Type} `{Strategy S}.

(** The ids a kernel state refers to are registered operations: a record is
    filed under its own id and its joiners are registered, and so are the
    operations blocked on a resource and the members of the enabled set. *)
Definition closed (m : gmap N Operation.t) (ops : Operations.t)
    (res : gmap N (gset N)) : Prop :=
  (∀ i op, m !! i = Some op ->
     Operation.id op = i
     ∧ ∀ b, b ∈ Operation.blocked_operation_ids op -> is_Some (m !! b))
  ∧ (∀ r blocked b, res !! r = Some blocked -> b ∈ blocked -> is_Some (m !! b))
  ∧ (∀ i, Operations.mem i ops = true -> is_Some (m !! i)).

(** An attached kernel: the token holder and the main operation are
    registered. *)
Definition live (k : SchedulerClient S) : Prop :=
  is_attached k = true
  ∧ is_Some (operation_map k !! scheduled_op_id k)
  ∧ is_Some (operation_map k !! main_op_id)
  ∧ closed (operation_map k) (operations k) (resource_map k).

(** A detached kernel holds nothing. *)
Definition idle (k : SchedulerClient S) : Prop :=
  is_attached k = false
  ∧ operation_map k = ∅
  ∧ operations k = Operations.empty
  ∧ resource_map k = ∅
  ∧ pending_start_operation_count k = 0.

Definition well_formed (k : SchedulerClient S) : Prop :=
  (live k ∨ idle k) ∧ last_error_code k ≠ Failure.

(** The step unregisters no operation and stores no error code. *)
Definition grows (k k' : SchedulerClient S) : Prop :=
  last_error_code k' = last_error_code k
  ∧ ∀ i, is_Some (operation_map k !! i) -> is_Some (operation_map k' !! i).

(** The code run from state [k] lets no [std::out_of_range] escape and
    throws no [Failure]; where it returns, throws or parks, the kernel is
    live and has unregistered nothing. *)
Definition safe_at {A} (m : M S A) (k : SchedulerClient S) : Prop :=
  match m k with
  | (k', Done _) => live k' ∧ grows k k'
  | (k', Raised (Code e)) => e ≠ Failure ∧ live k' ∧ grows k k'
  | (k', Raised OutOfRange) => False
  | (k', Suspended _) => live k' ∧ grows k k'
  end.

Definition safe {A} (m : M S A) : Prop := ∀ k, live k -> safe_at m k.

(** What the caller of a step observes: the reply of an entry point, nothing
    for a choice.  [attach] returns no value of the code's: its caller
    observes a reply only while the call waits. *)
Definition reply_of (c : Call) (k : SchedulerClient S) : option Reply :=
  match c with
  | CallAttach => Waiting <$> snd (attach k)
  | CallDetach => Some (snd (detach k))
  | CallCreateOperation i => Some (snd (create_operation i k))
  | CallStartOperation i => Some (snd (start_operation i k))
  | CallJoinOperation i => Some (snd (join_operation i k))
  | CallJoinOperations l b => Some (snd (join_operations l b k))
  | CallCompleteOperation i => Some (snd (complete_operation i k))
  | CallCreateResource r => Some (snd (create_resource r k))
  | CallWaitResource r => Some (snd (wait_resource r k))
  | CallWaitResources l b => Some (snd (wait_resources l b k))
  | CallSignalResource r => Some (snd (signal_resource r k))
  | CallSignalResourceOperation r i => Some (snd (signal_resource_operation r i k))
  | CallDeleteResource r => Some (snd (delete_resource r k))
  | CallScheduleNext => Some (snd (schedule_next k))
  | CallNextBoolean => None
  | CallNextInteger _ => None
  | ResumeScheduleNext => Some (snd (resume_schedule_next k))
  | ResumeParked i => Some (snd (resume_parked i k))
  end.

(** The record of the main operation after [attach]: created by
    [create_operation_inner] as the first operation, so with the token, and
    enabled by [start_operation_inner]. *)
Definition main_operation : Operation.t :=
  Operation.mk main_op_id OperationStatus.Enabled true ∅ None None.

(** The kernel after [attach] on a detached kernel that holds nothing. *)
Definition attached_kernel (k : SchedulerClient S) : SchedulerClient S :=
  let n := wrap64 (iteration_count k + 1) in
  mkScheduler (exploration_strategy k)
    (if N.ltb 1 n then strategy_prepare_next_iteration (strategy k) n
     else strategy k)
    {[main_op_id := main_operation]} [(main_op_id, true)] (resource_map k)
    main_op_id 0 true n Success.

(** The fields the cancellation of the operations leaves alone and [detach]
    does not clear. *)
Definition kernel_frame (k : SchedulerClient S)
  : StrategyType * S * N * bool * N * ErrorCode :=
  (exploration_strategy k, strategy k, scheduled_op_id k, is_attached k,
   iteration_count k, last_error_code k).

(** The kernel after [detach] on an attached kernel. *)
Definition detached_kernel (k : SchedulerClient S) : SchedulerClient S :=
  mkScheduler (exploration_strategy k) (strategy k) ∅ Operations.empty ∅
    (scheduled_op_id k) 0 false (iteration_count k) (last_error_code k).

End KernelSafety.

(** ** Further concrete inputs *)

(** The strategy of [pct_example] after one scheduling decision between
    operations [2] and [1]. *)
Definition pct_scheduled : PCTStrategy (list N) :=
  pct_perform (PCTNextOperation [2; 1] 1) pct_example.

(** The strategy of [pct_example] after two choices: the step counter has
    reached the change point [2]. *)
Definition pct_at_change_point : PCTStrategy (list N) :=
  pct_perform PCTNextBoolean (pct_perform PCTNextBoolean pct_example).

(** A kernel whose configuration disables it. *)
Definition kernel_disabled : SchedulerClient (PCTStrategy (list N)) :=
  SchedulerClient_new StrategyNone (PCT_new [] 1 0).

(** A kernel that was attached and detached again. *)
Definition kernel_detached : SchedulerClient (PCTStrategy (list N)) :=
  run [CallAttach; CallCreateOperation 1; CallStartOperation 1; CallDetach]
    kernel_new.

(** The main operation and operation [1], both enabled; the main operation
    has the token. *)
Definition kernel_started : SchedulerClient (PCTStrategy (list N)) :=
  run [CallAttach; CallCreateOperation 1; CallStartOperation 1] kernel_new.

(** The main operation has joined operation [1], which has the token. *)
Definition kernel_joined : SchedulerClient (PCTStrategy (list N)) :=
  run [CallJoinOperation 1] kernel_started.

(** An attached kernel with the main operation and resource [5]. *)
Definition kernel_with_resource : SchedulerClient (PCTStrategy (list N)) :=
  run [CallCreateResource 5] kernel_attached.

(** Operation [1] created and not started. *)
Definition kernel_created : SchedulerClient (PCTStrategy (list N)) :=
  run [CallCreateOperation 1] kernel_attached.

(** * Properties of the PCT strategy *)

Section PCTFacts.
Context {G : Type} `{RandomGen G}.
Implicit Types (s : PCTStrategy G) (operations prio : list N).

(** ** The scan for the highest priority *)

Lemma find_enabled_Some p operations o :
  find_enabled p operations = Some o -> o = p ∧ p ∈ operations.
Proof.
  induction operations as [|x rest IH]; simpl; [discriminate|].
  destruct (N.eqb_spec p x) as [->|Hne].
  - intros [= <-]. split; [done|]. apply list_elem_of_here.
  - intros Hrest. destruct (IH Hrest) as [-> Hin].
    split; [done|]. by apply list_elem_of_further.
Qed.

Lemma find_enabled_None p operations :
  find_enabled p operations = None -> p ∉ operations.
Proof.
  induction operations as [|x rest IH]; simpl; intros Hfind Hin.
  - by apply elem_of_nil in Hin.
  - destruct (N.eqb_spec p x) as [->|Hne]; [discriminate|].
    apply elem_of_cons in Hin as [->|Hin]; [done|]. by apply IH.
Qed.

Lemma find_enabled_is_Some p operations :
  p ∈ operations -> is_Some (find_enabled p operations).
Proof.
  intros Hin. destruct (find_enabled p operations) eqn:E; [by eexists|].
  by apply find_enabled_None in E.
Qed.

(** The scan returns the first element of the priority list that is enabled. *)
Lemma scan_priorities_Some prio operations o :
  scan_priorities prio operations = Some o ->
  o ∈ operations
  ∧ ∃ pre post, prio = pre ++ o :: post ∧ ∀ x, x ∈ pre -> x ∉ operations.
Proof.
  induction prio as [|p rest IH]; simpl; [discriminate|].
  destruct (find_enabled p operations) as [o'|] eqn:E.
  - intros [= <-]. apply find_enabled_Some in E as [-> Hin].
    split; [done|]. exists [], rest. split; [done|].
    intros x Hx. by apply elem_of_nil in Hx.
  - intros Hscan. destruct (IH Hscan) as (Hin & pre & post & -> & Hpre).
    split; [done|]. exists (p :: pre), post. split; [done|].
    intros x Hx. apply elem_of_cons in Hx as [->|Hx].
    + by apply find_enabled_None.
    + by apply Hpre.
Qed.

Lemma scan_priorities_is_Some prio operations x :
  x ∈ prio -> x ∈ operations -> is_Some (scan_priorities prio operations).
Proof.
  induction prio as [|p rest IH]; simpl; intros Hprio Hops.
  - by apply elem_of_nil in Hprio.
  - destruct (find_enabled p operations) as [o|] eqn:E; [by eexists|].
    apply elem_of_cons in Hprio as [->|Hprio]; [|by apply IH].
    by apply find_enabled_None in E.
Qed.

(** ** The priorities of new operations *)

Lemma elem_of_insert_at index x y l :
  y ∈ insert_at index x l <-> y = x ∨ y ∈ l.
Proof.
  unfold insert_at. rewrite elem_of_app, elem_of_cons.
  assert (y ∈ l <-> y ∈ take index l ∨ y ∈ drop index l) as ->
    by (by rewrite <- elem_of_app, take_drop).
  tauto.
Qed.

Lemma priority_index_range v l :
  l ≠ [] -> (1 <= priority_index v l <= length l)%nat.
Proof.
  intros Hl. unfold priority_index.
  assert (0 < length l)%nat by (destruct l; simpl; [done|lia]).
  assert (v mod N.of_nat (length l) < N.of_nat (length l)) as Hmod
    by (apply N.mod_upper_bound; lia).
  revert Hmod. generalize (v mod N.of_nat (length l)). intros r Hr. lia.
Qed.

Lemma insert_at_head index x top rest :
  (1 <= index)%nat -> ∃ rest', insert_at index x (top :: rest) = top :: rest'.
Proof.
  intros Hindex. destruct index as [|index]; [lia|].
  unfold insert_at. simpl. eauto.
Qed.

Lemma assign_priority_known s next_op :
  next_op ∈ known_operations s -> assign_priority s next_op = s.
Proof. intros Hin. unfold assign_priority. by rewrite decide_True. Qed.

Lemma assign_priority_new s next_op :
  next_op ∉ known_operations s ->
  prioritized_operations (assign_priority s next_op)
  = insert_at
      (priority_index (fst (gen_next (generator s))) (prioritized_operations s))
      next_op (prioritized_operations s)
  ∧ known_operations (assign_priority s next_op)
    = {[next_op]} ∪ known_operations s.
Proof.
  intros Hnew. unfold assign_priority. rewrite decide_False by done.
  by destruct (gen_next (generator s)) as [v g'].
Qed.

Lemma assign_priority_elem s next_op x :
  x ∈ prioritized_operations s ->
  x ∈ prioritized_operations (assign_priority s next_op).
Proof.
  intros Hx. destruct (decide (next_op ∈ known_operations s)) as [Hk|Hk].
  - by rewrite assign_priority_known.
  - destruct (assign_priority_new s next_op Hk) as [-> _].
    apply elem_of_insert_at. by right.
Qed.

Lemma assign_priority_known_prioritized s next_op :
  known_prioritized s ->
  known_prioritized (assign_priority s next_op)
  ∧ next_op ∈ known_operations (assign_priority s next_op).
Proof.
  intros Hs. destruct (decide (next_op ∈ known_operations s)) as [Hk|Hk].
  - by rewrite assign_priority_known.
  - destruct (assign_priority_new s next_op Hk) as [Hprio Hknown].
    split; [|rewrite Hknown; set_solver].
    intros x. rewrite Hknown, Hprio, elem_of_insert_at.
    rewrite elem_of_union, elem_of_singleton. intros [->|Hx]; [by left|].
    right. by apply Hs.
Qed.

Lemma assign_priority_known_mono s next_op :
  known_operations s ⊆ known_operations (assign_priority s next_op).
Proof.
  destruct (decide (next_op ∈ known_operations s)) as [Hk|Hk].
  - by rewrite assign_priority_known.
  - destruct (assign_priority_new s next_op Hk) as [_ ->]. set_solver.
Qed.

Lemma assign_priorities_known_mono operations s :
  known_operations s ⊆ known_operations (foldl assign_priority s operations).
Proof.
  revert s. induction operations as [|op rest IH]; intros s; simpl; [done|].
  etrans; [apply (assign_priority_known_mono s op)|apply IH].
Qed.

Lemma assign_priorities_known_prioritized operations s :
  known_prioritized s ->
  known_prioritized (foldl assign_priority s operations)
  ∧ ∀ x, x ∈ operations ->
      x ∈ known_operations (foldl assign_priority s operations).
Proof.
  revert s. induction operations as [|op rest IH]; intros s Hs; simpl.
  - split; [done|]. intros x Hx. by apply elem_of_nil in Hx.
  - destruct (assign_priority_known_prioritized s op Hs) as [Hs' Hop].
    destruct (IH _ Hs') as [Hwf Hall]. split; [done|].
    intros x Hx. apply elem_of_cons in Hx as [->|Hx]; [|by apply Hall].
    by apply assign_priorities_known_mono.
Qed.

Lemma seed_priorities_known_prioritized s current :
  known_prioritized s -> known_prioritized (seed_priorities s current).
Proof.
  intros Hs. unfold seed_priorities.
  destruct (Nat.eqb_spec (length (prioritized_operations s)) 0); [|done].
  intros x. simpl. rewrite elem_of_union, elem_of_singleton, elem_of_app.
  rewrite list_elem_of_singleton. intros [->|Hx]; [by right|]. left. by apply Hs.
Qed.

Lemma seed_priorities_nonempty s current :
  prioritized_operations (seed_priorities s current) ≠ [].
Proof.
  unfold seed_priorities.
  destruct (Nat.eqb_spec (length (prioritized_operations s)) 0) as [E|E].
  - simpl. by destruct (prioritized_operations s).
  - intros E'. by rewrite E' in E.
Qed.

Lemma set_new_operation_priorities_known s operations current :
  known_prioritized s ->
  known_prioritized (set_new_operation_priorities s operations current)
  ∧ ∀ x, x ∈ operations ->
      x ∈ prioritized_operations
            (set_new_operation_priorities s operations current).
Proof.
  intros Hs. unfold set_new_operation_priorities.
  destruct (assign_priorities_known_prioritized operations
              (seed_priorities s current)) as [Hwf Hall].
  { by apply seed_priorities_known_prioritized. }
  split; [done|]. intros x Hx. by apply Hwf, Hall.
Qed.

End PCTFacts.

Section PCTInvariants.
Context {G : Type} `{RandomGen G}.
Implicit Types (s : PCTStrategy G) (operations prio : list N).

Lemma elem_of_list_remove op l x :
  x ∈ list_remove op l ++ [op] <-> x ∈ l ∨ x = op.
Proof.
  unfold list_remove. rewrite elem_of_app, list_elem_of_filter.
  rewrite list_elem_of_singleton.
  destruct (decide (x = op)); naive_solver.
Qed.

Lemma assign_priority_change_points s next_op :
  change_point_fields (assign_priority s next_op) = change_point_fields s.
Proof.
  unfold assign_priority. destruct (decide _); [done|].
  by destruct (gen_next (generator s)).
Qed.

Lemma set_new_operation_priorities_change_points s operations current :
  change_point_fields (set_new_operation_priorities s operations current)
  = change_point_fields s.
Proof.
  unfold set_new_operation_priorities.
  transitivity (change_point_fields (seed_priorities s current)).
  - generalize (seed_priorities s current). clear s.
    induction operations as [|op rest IH]; intros s; simpl; [done|].
    by rewrite IH, assign_priority_change_points.
  - unfold seed_priorities. by destruct (Nat.eqb _ _).
Qed.

Lemma try_deprioritize_change_points s operations :
  change_point_fields
    (fst (try_deprioritize_operation_with_highest_priority s operations))
  = change_point_fields s.
Proof.
  unfold try_deprioritize_operation_with_highest_priority.
  destruct (Nat.leb _ _); [done|]. destruct (decide _); [|done].
  by destruct (get_operation_with_highest_priority s operations).
Qed.

Lemma next_operation_change_points s operations current :
  change_point_fields (fst (next_operation s operations current))
  = change_point_fields s.
Proof.
  unfold next_operation.
  pose proof (try_deprioritize_change_points
    (set_new_operation_priorities s operations current) operations) as Hd.
  destruct (try_deprioritize_operation_with_highest_priority _ _) as [s2 [b|e]];
    simpl in *; rewrite <- (set_new_operation_priorities_change_points s operations current);
    by rewrite <- Hd.
Qed.

Lemma next_boolean_fields s :
  change_point_fields (fst (next_boolean s)) = change_point_fields s
  ∧ priority_fields (fst (next_boolean s)) = priority_fields s.
Proof.
  unfold next_boolean. by destruct (gen_next _).
Qed.

Lemma next_integer_fields s max_value :
  change_point_fields (fst (next_integer s max_value)) = change_point_fields s
  ∧ priority_fields (fst (next_integer s max_value)) = priority_fields s.
Proof.
  unfold next_integer. by destruct (gen_next _).
Qed.

(** Deprioritizing keeps the elements of the priority list. *)
Lemma try_deprioritize_priorities s operations :
  let s' := fst (try_deprioritize_operation_with_highest_priority s operations) in
  known_operations s' = known_operations s
  ∧ ∀ x, x ∈ prioritized_operations s -> x ∈ prioritized_operations s'.
Proof.
  unfold try_deprioritize_operation_with_highest_priority.
  destruct (Nat.leb _ _); [done|]. destruct (decide _); [|done].
  destruct (get_operation_with_highest_priority s operations) as [op|err];
    simpl; [|done].
  split; [done|]. intros x Hx. apply elem_of_list_remove. by left.
Qed.

Lemma try_deprioritize_known_prioritized s operations :
  known_prioritized s ->
  known_prioritized
    (fst (try_deprioritize_operation_with_highest_priority s operations)).
Proof.
  intros Hs x. destruct (try_deprioritize_priorities s operations) as [-> Hsub].
  intros Hx. by apply Hsub, Hs.
Qed.

Lemma next_operation_known_prioritized s operations current :
  known_prioritized s ->
  known_prioritized (fst (next_operation s operations current)).
Proof.
  intros Hs. unfold next_operation.
  destruct (set_new_operation_priorities_known s operations current Hs)
    as [Hs1 _].
  pose proof (try_deprioritize_known_prioritized _ operations Hs1) as Hs2.
  by destruct (try_deprioritize_operation_with_highest_priority _ _)
    as [s2 [b|e]].
Qed.

Lemma shuffle_priority_change_points_priorities s :
  priority_fields (shuffle_priority_change_points s) = priority_fields s.
Proof.
  unfold shuffle_priority_change_points. destruct (N.ltb _ _); [|done].
  by destruct (shuffle_loop _ _ _).
Qed.

Lemma prepare_next_iteration_known_prioritized s iteration :
  known_prioritized s -> known_prioritized (prepare_next_iteration s iteration).
Proof.
  intros Hs. unfold prepare_next_iteration. destruct (N.ltb 1 iteration); [|done].
  match goal with |- known_prioritized (shuffle_priority_change_points ?t) =>
    pose proof (shuffle_priority_change_points_priorities t) as Hp end.
  unfold priority_fields in Hp. simpl in Hp. injection Hp as Hprio Hknown.
  intros x. rewrite Hknown. set_solver.
Qed.

(** In every state of the strategy, a known operation has a priority. *)
Lemma pct_reachable_known_prioritized s :
  pct_reachable s -> known_prioritized s.
Proof.
  induction 1 as [g seed bound|c s Hreach IH].
  - intros x. simpl. set_solver.
  - destruct c as [operations current| |max_value|iteration]; simpl.
    + by apply next_operation_known_prioritized.
    + destruct (next_boolean_fields s) as [_ Hp]. injection Hp as Hprio Hknown.
      intros x. rewrite Hknown, Hprio. apply IH.
    + destruct (next_integer_fields s max_value) as [_ Hp].
      injection Hp as Hprio Hknown.
      intros x. rewrite Hknown, Hprio. apply IH.
    + by apply prepare_next_iteration_known_prioritized.
Qed.

End PCTInvariants.

Section PCTClaims.
Context {G : Type} `{RandomGen G}.
Implicit Types (s : PCTStrategy G) (operations prio : list N).

(** ** The operation returned by [next_operation] *)

Lemma get_operation_with_highest_priority_Ok s operations x :
  x ∈ prioritized_operations s -> x ∈ operations ->
  ∃ op, get_operation_with_highest_priority s operations = Ok op.
Proof.
  intros Hprio Hops. unfold get_operation_with_highest_priority.
  destruct (scan_priorities_is_Some _ _ x Hprio Hops) as [op ->]. eauto.
Qed.

Lemma try_deprioritize_Ok s operations x :
  x ∈ prioritized_operations s -> x ∈ operations ->
  ∃ s' b, try_deprioritize_operation_with_highest_priority s operations
          = (s', Ok b).
Proof.
  intros Hprio Hops. unfold try_deprioritize_operation_with_highest_priority.
  destruct (Nat.leb _ _); [eauto|]. destruct (decide _); [|eauto].
  destruct (get_operation_with_highest_priority_Ok s operations x) as [op ->];
    eauto.
Qed.

(** C2: for a non-empty enabled set, in every state of the strategy,
    [next_operation] returns an operation and never throws [InternalError];
    the operation is enabled, and it is the first element of the priority
    list, scanned front to back, that is enabled. *)
Theorem next_operation_returns_first_enabled_priority s operations current :
  pct_reachable s -> operations ≠ [] ->
  ∃ s' next_id pre post,
    next_operation s operations current = (s', Ok next_id)
    ∧ next_id ∈ operations
    ∧ prioritized_operations s' = pre ++ next_id :: post
    ∧ ∀ x, x ∈ pre -> x ∉ operations.
Proof.
  intros Hreach Hne.
  apply pct_reachable_known_prioritized in Hreach.
  destruct operations as [|x rest]; [done|]. clear Hne.
  set (operations := x :: rest).
  assert (x ∈ operations) as Hx by apply list_elem_of_here.
  destruct (set_new_operation_priorities_known s operations current Hreach)
    as [_ Hall].
  unfold next_operation.
  set (s1 := set_new_operation_priorities s operations current) in *.
  destruct (try_deprioritize_Ok s1 operations x (Hall x Hx) Hx)
    as (s2 & b & Hdep).
  pose proof (try_deprioritize_priorities s1 operations) as [_ Hsub].
  rewrite Hdep in *. simpl in Hsub.
  unfold get_operation_with_highest_priority. simpl.
  destruct (scan_priorities_is_Some (prioritized_operations s2) operations x)
    as [next_id Hscan]; [by apply Hsub, Hall|done|].
  rewrite Hscan.
  destruct (scan_priorities_Some _ _ _ Hscan) as (Hin & pre & post & Hsplit & Hpre).
  exists (incr_scheduled_steps s2), next_id, pre, post. by repeat split.
Qed.

(** ** The position of a new operation in the priority list *)

Lemma assign_priority_head s next_op top rest :
  prioritized_operations s = top :: rest ->
  ∃ rest', prioritized_operations (assign_priority s next_op) = top :: rest'.
Proof.
  intros Hs. destruct (decide (next_op ∈ known_operations s)) as [Hk|Hk].
  - rewrite assign_priority_known by done. eauto.
  - destruct (assign_priority_new s next_op Hk) as [-> _]. rewrite Hs.
    apply insert_at_head. apply priority_index_range. done.
Qed.

Lemma assign_priorities_head operations s top rest :
  prioritized_operations s = top :: rest ->
  ∃ rest', prioritized_operations (foldl assign_priority s operations)
           = top :: rest'.
Proof.
  revert s rest. induction operations as [|op ops IH]; intros s rest Hs; simpl.
  - eauto.
  - destruct (assign_priority_head s op top rest Hs) as [rest' Hs']. eauto.
Qed.

Lemma assign_priorities_nonempty operations s :
  prioritized_operations s ≠ [] ->
  prioritized_operations (foldl assign_priority s operations) ≠ [].
Proof.
  destruct (prioritized_operations s) as [|top rest] eqn:Hs; [done|]. intros _.
  destruct (assign_priorities_head operations s top rest Hs) as [rest' ->]. done.
Qed.

(** The count of the generator's values that select an index. *)
Lemma values_selecting_succ bound l index :
  values_selecting (N.succ bound) l index
  = if Nat.eqb (priority_index bound l) index
    then N.succ (values_selecting bound l index)
    else values_selecting bound l index.
Proof.
  unfold values_selecting. rewrite N.recursion_succ; [done|done|].
  by intros ? ? -> ? ? ->.
Qed.

Lemma values_selecting_count bound l index :
  l ≠ [] -> (1 <= index <= length l)%nat ->
  values_selecting bound l index
  = bound / N.of_nat (length l)
    + (if N.of_nat (index - 1) <? bound mod N.of_nat (length l) then 1 else 0).
Proof.
  intros Hl Hindex.
  set (n := N.of_nat (length l)). set (r := N.of_nat (index - 1)).
  assert (0 < n) as Hn by (subst n; destruct l; simpl in *; [done|lia]).
  assert (r < n) as Hr by (subst r n; lia).
  induction bound as [|bound IH] using N.peano_ind.
  - rewrite N.Div0.div_0_l, N.Div0.mod_0_l.
    by destruct (N.ltb_spec r 0); [lia|].
  - rewrite values_selecting_succ, IH. clear IH.
    pose proof (N.div_mod bound n ltac:(lia)) as Hdiv.
    pose proof (N.mod_upper_bound bound n ltac:(lia)) as Hmod.
    set (q := bound / n) in *. set (m := bound mod n) in *.
    assert (Nat.eqb (priority_index bound l) index = N.eqb m r) as ->.
    { unfold priority_index. fold n. fold m.
      destruct (N.eqb_spec m r) as [Heq|Hne].
      - apply Nat.eqb_eq. subst r. lia.
      - apply Nat.eqb_neq. subst r. lia. }
    destruct (decide (m + 1 < n)) as [Hlt|Hge].
    + rewrite <- (N.div_unique (N.succ bound) n q (m + 1)) by lia.
      rewrite <- (N.mod_unique (N.succ bound) n q (m + 1)) by lia.
      destruct (N.eqb_spec m r), (N.ltb_spec r m), (N.ltb_spec r (m + 1)); lia.
    + rewrite <- (N.div_unique (N.succ bound) n (q + 1) 0) by lia.
      rewrite <- (N.mod_unique (N.succ bound) n (q + 1) 0) by lia.
      destruct (N.eqb_spec m r), (N.ltb_spec r m), (N.ltb_spec r 0); lia.
Qed.

(** C6: in the priority assignment step, an enabled id that has no priority
    yet is inserted into the priority list at the index
    [k = (generator.next() % |priority_list|) + 1], so with
    [1 <= k <= |priority_list|] and never at index [0], and the generator
    has advanced by that one value; the id at the front of the list before
    the step (the current operation, when the list was empty) is at the
    front after it.  Of the values [v < bound] of the generator,
    [bound / size] select the index [k], and one more when
    [k <= bound % size]: every index is selected by as many values exactly
    when the size of the list divides [bound]. *)
Theorem new_priority_index_follows_the_generator s operations current :
  (∀ before next_op after,
     operations = before ++ next_op :: after ->
     let s' := foldl assign_priority (seed_priorities s current) before in
     let priority_list := prioritized_operations s' in
     next_op ∉ known_operations s' ->
     ∃ k, k = (N.to_nat (fst (gen_next (generator s'))
                         mod N.of_nat (length priority_list)) + 1)%nat
          ∧ (1 <= k <= length priority_list)%nat
          ∧ prioritized_operations (assign_priority s' next_op)
            = take k priority_list ++ next_op :: drop k priority_list
          ∧ generator (assign_priority s' next_op)
            = snd (gen_next (generator s')))
  ∧ (∀ bound (l : list N) k,
       l ≠ [] -> (1 <= k <= length l)%nat ->
       values_selecting bound l k
       = bound / N.of_nat (length l)
         + (if N.of_nat (k - 1) <? bound mod N.of_nat (length l)
            then 1 else 0))
  ∧ (∀ bound (l : list N),
       l ≠ [] ->
       (∀ i j, (1 <= i <= length l)%nat -> (1 <= j <= length l)%nat ->
               values_selecting bound l i = values_selecting bound l j)
       <-> bound mod N.of_nat (length l) = 0)
  ∧ (∀ top rest,
       prioritized_operations s = top :: rest ->
       ∃ rest', prioritized_operations
                  (set_new_operation_priorities s operations current)
                = top :: rest')
  ∧ (prioritized_operations s = [] ->
     ∃ rest', prioritized_operations
                (set_new_operation_priorities s operations current)
              = current :: rest').
Proof.
  split; [|split; [|split; [|split]]].
  - intros before next_op after _ s' priority_list Hnew.
    destruct (assign_priority_new s' next_op Hnew) as [Hprio _].
    eexists. split; [reflexivity|].
    split; [apply (priority_index_range _ priority_list),
              assign_priorities_nonempty, seed_priorities_nonempty|].
    split; [exact Hprio|].
    unfold assign_priority. rewrite decide_False by done.
    by destruct (gen_next (generator s')) as [v g'].
  - intros bound l k Hl Hk. by apply values_selecting_count.
  - intros bound l Hl.
    assert (0 < length l)%nat as Hlen by (destruct l; simpl; [done|lia]).
    pose proof (N.mod_upper_bound bound (N.of_nat (length l)) ltac:(lia))
      as Hmod.
    split.
    + intros Hsame. specialize (Hsame 1%nat (length l) ltac:(lia) ltac:(lia)).
      rewrite !values_selecting_count in Hsame by (done || lia).
      revert Hmod Hsame.
      generalize (bound mod N.of_nat (length l)) (bound / N.of_nat (length l)).
      intros m q Hmod.
      destruct (N.ltb_spec (N.of_nat (1 - 1)) m),
        (N.ltb_spec (N.of_nat (length l - 1)) m); lia.
    + intros Hzero i j Hi Hj.
      rewrite !values_selecting_count by done. rewrite Hzero.
      by destruct (N.ltb_spec (N.of_nat (i - 1)) 0),
        (N.ltb_spec (N.of_nat (j - 1)) 0); try lia.
  - intros top rest Hs. unfold set_new_operation_priorities.
    apply (assign_priorities_head _ _ top rest).
    unfold seed_priorities. by rewrite Hs.
  - intros Hs. unfold set_new_operation_priorities.
    apply (assign_priorities_head _ _ current []).
    unfold seed_priorities. by rewrite Hs.
Qed.

End PCTClaims.

Section PCTChangePoints.
Context {G : Type} `{RandomGen G}.
Implicit Types (s : PCTStrategy G) (range : list N) (points : gset N).

(** ** The range and its shuffle *)

Lemma elem_of_build_range schedule_len x :
  x ∈ build_range schedule_len -> 1 <= x < schedule_len.
Proof.
  unfold build_range. rewrite list_elem_of_In, in_map_iff.
  intros (n & <- & Hn). apply in_seq in Hn. lia.
Qed.

Lemma elem_of_iter_swap i j range x :
  x ∈ iter_swap i j range -> x ∈ range.
Proof.
  unfold iter_swap.
  destruct (range !! i) as [a|] eqn:Hi; [|done].
  destruct (range !! j) as [b|] eqn:Hj; [|done].
  intros Hx. apply list_elem_of_lookup in Hx as [n Hn].
  destruct (decide (n = i)) as [->|Hni].
  - rewrite list_lookup_insert_eq in Hn.
    + injection Hn as <-. by eapply list_elem_of_lookup_2.
    + rewrite length_insert. by eapply lookup_lt_Some.
  - rewrite list_lookup_insert_ne in Hn by done.
    destruct (decide (n = j)) as [->|Hnj].
    + rewrite list_lookup_insert_eq in Hn by (by eapply lookup_lt_Some).
      injection Hn as <-. by eapply list_elem_of_lookup_2.
    + rewrite list_lookup_insert_ne in Hn by done.
      by eapply list_elem_of_lookup_2.
Qed.

Lemma elem_of_shuffle_loop idx g range x :
  x ∈ snd (shuffle_loop idx g range) -> x ∈ range.
Proof.
  revert g range. induction idx as [|idx IH]; intros g range; simpl; [done|].
  destruct (gen_next g) as [v g']. intros Hx.
  eapply elem_of_iter_swap, IH, Hx.
Qed.

(** ** The insertion of the change points *)

Lemma size_insert_point x points : (size ({[x]} ∪ points) <= S (size points))%nat.
Proof.
  rewrite size_union_alt, size_singleton.
  assert (size (points ∖ {[x]}) <= size points)%nat
    by (apply subseteq_size; set_solver).
  lia.
Qed.

Lemma size_insert_change_points count range points :
  (size (insert_change_points count range points)
   <= N.to_nat count + size points)%nat.
Proof.
  revert count points. induction range as [|x rest IH]; intros count points;
    simpl; [lia|].
  destruct (N.eqb_spec count 0) as [->|Hcount]; [lia|].
  specialize (IH (count - 1) ({[x]} ∪ points)).
  pose proof (size_insert_point x points). lia.
Qed.

Lemma elem_of_insert_change_points count range points y :
  y ∈ insert_change_points count range points -> y ∈ points ∨ y ∈ range.
Proof.
  revert count points. induction range as [|x rest IH]; intros count points;
    simpl; [by left|].
  destruct (N.eqb count 0); [by left|].
  intros Hy. apply IH in Hy as [Hy|Hy].
  - apply elem_of_union in Hy as [Hy|Hy]; [|by left].
    apply elem_of_singleton in Hy as ->. right. apply list_elem_of_here.
  - right. by apply list_elem_of_further.
Qed.

(** The insertion loop stores the first [count] elements of the range. *)
Lemma insert_change_points_take count range points :
  insert_change_points count range points
  = list_to_set (take (N.to_nat count) range) ∪ points.
Proof.
  revert count points. induction range as [|x rest IH]; intros count points;
    simpl.
  - rewrite take_nil. set_solver.
  - destruct (N.eqb_spec count 0) as [->|Hcount]; [set_solver|].
    rewrite IH. replace (N.to_nat count) with (S (N.to_nat (count - 1))) by lia.
    simpl. set_solver.
Qed.

(** ** The bound *)

Lemma shuffle_priority_change_points_bounded s :
  priority_change_points s = ∅ ->
  change_points_bounded (shuffle_priority_change_points s).
Proof.
  intros Hempty. unfold shuffle_priority_change_points, change_points_bounded.
  destruct (N.ltb 1 (schedule_length s)).
  - destruct (shuffle_loop _ _ _) as [g' shuffled] eqn:Hloop. simpl.
    rewrite Hempty. split.
    + pose proof (size_insert_change_points (max_priority_switches s) shuffled ∅).
      rewrite size_empty in *. lia.
    + intros x Hx. apply elem_of_insert_change_points in Hx as [Hx|Hx];
        [set_solver|].
      apply (elem_of_build_range (schedule_length s)).
      eapply (elem_of_shuffle_loop _ (generator s)). by rewrite Hloop.
  - rewrite Hempty. split; [rewrite size_empty; lia|set_solver].
Qed.

Lemma prepare_next_iteration_bounded s iteration :
  change_points_bounded s ->
  change_points_bounded (prepare_next_iteration s iteration).
Proof.
  intros Hs. unfold prepare_next_iteration.
  destruct (N.ltb 1 iteration); [|done].
  by apply shuffle_priority_change_points_bounded.
Qed.

Lemma change_points_bounded_fields s s' :
  change_point_fields s' = change_point_fields s ->
  change_points_bounded s -> change_points_bounded s'.
Proof.
  unfold change_point_fields, change_points_bounded.
  intros [= -> -> ->]. done.
Qed.

(** C7: in every state of the strategy, there are at most
    [max_priority_switches] change points, and each of them lies in
    [[1, schedule_length)]. *)
Theorem change_points_within_bound s :
  pct_reachable s ->
  (size (priority_change_points s) <= N.to_nat (max_priority_switches s))%nat
  ∧ ∀ x, x ∈ priority_change_points s -> 1 <= x < schedule_length s.
Proof.
  intros Hreach. change (change_points_bounded s).
  induction Hreach as [g seed bound|c s Hreach IH].
  - split; simpl; [|set_solver]. change (size (∅ : gset N) <= N.to_nat bound)%nat.
    rewrite size_empty. lia.
  - destruct c as [operations current| |max_value|iteration]; simpl.
    + eapply change_points_bounded_fields;
        [apply next_operation_change_points|done].
    + eapply change_points_bounded_fields; [apply next_boolean_fields|done].
    + eapply change_points_bounded_fields; [apply next_integer_fields|done].
    + by apply prepare_next_iteration_bounded.
Qed.

(** ** The integer choice *)

Lemma uint64_to_int_small u : (0 <= u < 2 ^ 31)%Z -> uint64_to_int u = u.
Proof.
  intros Hu. unfold uint64_to_int.
  rewrite Z.mod_small by lia.
  destruct (Z.ltb_spec u (2 ^ 31)); [done|lia].
Qed.

(** C9: for a positive bound [max_value] (an [int]), [next_integer] returns
    an integer in [[0, max_value)]. *)
Theorem next_integer_in_range s max_value :
  (0 < max_value <= int_max)%Z ->
  ∃ r, snd (next_integer s max_value) = Some r ∧ (0 <= r < max_value)%Z.
Proof.
  unfold int_max. intros Hmax. unfold next_integer.
  destruct (gen_next _) as [v g']. simpl.
  unfold int_to_uint64. rewrite (Z.mod_small max_value) by lia.
  destruct (Z.eqb_spec max_value 0) as [->|_]; [lia|].
  pose proof (Z.mod_pos_bound (Z.of_N v) max_value) as Hmod.
  eexists. split; [done|]. rewrite uint64_to_int_small; lia.
Qed.

End PCTChangePoints.

(** ** The strategy on concrete inputs *)

Lemma pct_example_reachable : pct_reachable pct_example.
Proof. unfold pct_example. repeat constructor. Qed.

Example pct_example_state :
  schedule_length pct_example = 4
  ∧ elements (priority_change_points pct_example) = [2; 3]
  ∧ generator pct_example = [0; 2].
Proof. vm_compute. done. Qed.

Lemma next_operation_returns_first_enabled_priority_witness :
  pct_reachable pct_example ∧ [2; 1] ≠ [] ∧
  ∃ s' next_id pre post,
    next_operation pct_example [2; 1] 1 = (s', Ok next_id)
    ∧ next_id ∈ [2; 1]
    ∧ prioritized_operations s' = pre ++ next_id :: post
    ∧ ∀ x, x ∈ pre -> x ∉ [2; 1].
Proof.
  split; [exact pct_example_reachable|]. split; [done|].
  apply (next_operation_returns_first_enabled_priority pct_example [2; 1] 1);
    [exact pct_example_reachable|done].
Defined.

Example next_operation_example :
  snd (next_operation pct_example [2; 1] 1) = Ok 1
  ∧ prioritized_operations (fst (next_operation pct_example [2; 1] 1)) = [1; 2].
Proof. vm_compute. done. Qed.

(** Operation [3] is the third to get a priority: the generator's value is
    [9], the list holds three operations, and the index is [9 % 3 + 1]. *)
Lemma new_priority_index_follows_the_generator_witness :
  (3 ∉ known_operations
         (foldl assign_priority (seed_priorities (PCT_new [4; 7; 9] 1 0) 0)
            [0; 1; 2]))
  ∧ prioritized_operations
      (foldl assign_priority (seed_priorities (PCT_new [4; 7; 9] 1 0) 0)
         [0; 1; 2])
    = [0; 1; 2]
  ∧ prioritized_operations
      (assign_priority
         (foldl assign_priority (seed_priorities (PCT_new [4; 7; 9] 1 0) 0)
            [0; 1; 2]) 3)
    = [0; 3; 1; 2].
Proof.
  assert (3 ∉ known_operations
                (foldl assign_priority
                   (seed_priorities (PCT_new [4; 7; 9] 1 0) 0) [0; 1; 2]))
    as Hnew by (apply (bool_decide_unpack _); vm_compute; exact I).
  split; [exact Hnew|]. split; [vm_compute; reflexivity|].
  destruct (proj1 (new_priority_index_follows_the_generator
                     (PCT_new [4; 7; 9] 1 0) [0; 1; 2; 3] 0)
              [0; 1; 2] 3 [] eq_refl Hnew) as (k & Hk & _ & Hprio & _).
  etrans; [exact Hprio|]. rewrite Hk. vm_compute. reflexivity.
Defined.

(** The count on a small range: of the values below [10], four select the
    first index after the front of a list of three. *)
Example values_selecting_example :
  values_selecting 10 [0; 1; 2] 1 = 4
  ∧ values_selecting 10 [0; 1; 2] 2 = 3
  ∧ values_selecting 10 [0; 1; 2] 3 = 3.
Proof. vm_compute. done. Qed.

(** C6 fails as stated for the distribution of the index: the remainder of
    a value modulo the size of the list is not uniform when the size does
    not divide the number of values.  With three operations in the list,
    one more of the [2^64] values of a [uint64_t] selects the index [1] than
    the index [2] or [3], and no power of two is a number of values that
    selects the three indices equally often. *)
Lemma priority_index_is_not_uniform :
  values_selecting uint64_modulus [0; 1; 2] 1 = 6148914691236517206
  ∧ values_selecting uint64_modulus [0; 1; 2] 2 = 6148914691236517205
  ∧ values_selecting uint64_modulus [0; 1; 2] 3 = 6148914691236517205
  ∧ (∀ bits,
       values_selecting (2 ^ bits) [0; 1; 2] 1
       ≠ values_selecting (2 ^ bits) [0; 1; 2] 3)
  ∧ ¬ (∀ (l : list N) i j,
         l ≠ [] -> (1 <= i <= length l)%nat -> (1 <= j <= length l)%nat ->
         values_selecting uint64_modulus l i
         = values_selecting uint64_modulus l j).
Proof.
  assert (values_selecting uint64_modulus [0; 1; 2] 1 = 6148914691236517206)
    as Hfirst.
  { rewrite values_selecting_count; [|done|simpl; lia].
    vm_compute. reflexivity. }
  assert (values_selecting uint64_modulus [0; 1; 2] 2 = 6148914691236517205)
    as Hsecond.
  { rewrite values_selecting_count; [|done|simpl; lia].
    vm_compute. reflexivity. }
  split; [exact Hfirst|]. split; [exact Hsecond|].
  split; [rewrite values_selecting_count; [|done|simpl; lia];
          vm_compute; reflexivity|].
  split.
  - intros bits.
    rewrite (values_selecting_count _ _ 1), (values_selecting_count _ _ 3);
      [|done|simpl; lia|done|simpl; lia].
    change (N.of_nat (length [0; 1; 2])) with 3.
    change (N.of_nat (1 - 1)) with 0. change (N.of_nat (3 - 1)) with 2.
    assert (2 ^ bits mod 3 = 1 ∨ 2 ^ bits mod 3 = 2) as Hmod.
    { induction bits as [|bits IH] using N.peano_ind; [by left|].
      rewrite N.pow_succ_r', <- N.Div0.mul_mod_idemp_r.
      destruct IH as [-> | ->]; [by right|by left]. }
    destruct Hmod as [-> | ->]; simpl; lia.
  - intros Hclaim.
    specialize (Hclaim [0; 1; 2] 1%nat 2%nat ltac:(done)
                  ltac:(simpl; lia) ltac:(simpl; lia)).
    rewrite Hfirst, Hsecond in Hclaim. discriminate Hclaim.
Qed.

Example new_priorities_example :
  prioritized_operations
    (set_new_operation_priorities (PCT_new [4; 7; 9] 1 0) [0; 1; 2; 3] 0)
  = [0; 3; 1; 2].
Proof. vm_compute. done. Qed.

Lemma change_points_within_bound_witness :
  pct_reachable pct_example ∧
  (size (priority_change_points pct_example)
   <= N.to_nat (max_priority_switches pct_example))%nat
  ∧ ∀ x, x ∈ priority_change_points pct_example ->
         1 <= x < schedule_length pct_example.
Proof.
  split; [exact pct_example_reachable|].
  apply (change_points_within_bound pct_example), pct_example_reachable.
Defined.

Lemma next_integer_in_range_witness :
  (0 < 10 <= int_max)%Z ∧
  ∃ r, snd (next_integer (PCT_new [25] 1 0) 10) = Some r ∧ (0 <= r < 10)%Z.
Proof.
  assert (0 < 10 <= int_max)%Z as Hmax by (unfold int_max; lia).
  split; [exact Hmax|].
  apply (next_integer_in_range (PCT_new [25] 1 0) 10 Hmax).
Defined.

Example next_integer_example :
  snd (next_integer (PCT_new [25] 1 0) 10) = Some 5%Z.
Proof. vm_compute. done. Qed.

(** ** The shuffle of the change points *)

Section PCTShuffle.
Context {G : Type} `{RandomGen G}.

(** What [shuffle_priority_change_points] stores: the first
    [max_priority_switches] elements of the range [1 .. schedule_length - 1]
    after the swap loop. *)
Lemma shuffle_priority_change_points_stores_prefix (s : PCTStrategy G) :
  1 < schedule_length s -> priority_change_points s = ∅ ->
  let range := build_range (schedule_length s) in
  priority_change_points (shuffle_priority_change_points s)
  = list_to_set
      (take (N.to_nat (max_priority_switches s))
         (snd (shuffle_loop (length range - 1) (generator s) range))).
Proof.
  intros Hlen Hempty range. unfold shuffle_priority_change_points.
  destruct (N.ltb_spec 1 (schedule_length s)); [|lia].
  fold range. destruct (shuffle_loop _ _ _) as [g' shuffled]. simpl.
  rewrite insert_change_points_take, Hempty. set_solver.
Qed.

End PCTShuffle.

(** C3: the swap loop is not the Fisher-Yates shuffle.  In a state of the
    strategy with [schedule_length = 4], bound [2] and generator values [0]
    and [2], the loop of [shuffle_priority_change_points] exchanges position
    [1] with position [2 = 2 % 3], beyond [idx = 1]: the range [1; 2; 3]
    becomes [3; 1; 2] and the change points are [3] and [1].  The
    Fisher-Yates shuffle draws the partner among [0 .. idx]: it yields
    [2; 3; 1] and the change points [2] and [3]. *)
Theorem shuffle_is_not_fisher_yates :
  pct_reachable pct_example
  ∧ schedule_length pct_example = 4
  ∧ max_priority_switches pct_example = 2
  ∧ generator pct_example = [0; 2]
  ∧ snd (shuffle_loop 2 (generator pct_example) (build_range 4)) = [3; 1; 2]
  ∧ snd (fisher_yates_loop 2 (generator pct_example) (build_range 4)) = [2; 3; 1]
  ∧ elements (priority_change_points (prepare_next_iteration pct_example 3))
    = [3; 1]
  ∧ elements (fisher_yates_change_points pct_example) = [2; 3].
Proof. split; [exact pct_example_reachable|]. vm_compute. done. Qed.

(** * Properties of the scheduler kernel *)

(** Unfolding of the state-passing combinators. *)
Ltac kunfold :=
  unfold run_entry, check_enabled, check_attached, bind, get, ret, throw,
    suspend, modify, when.

Section KernelErrors.
Context {S : Type} `{Strategy S}.
Implicit Types (k : SchedulerClient S).

(** ** Scheduling without an enabled operation *)

(** C4: when [schedule_next] is reached with no pending start and no enabled
    operation, [schedule_next_inner] throws [DeadlockDetected] if the enabled
    set still has members (all of them disabled) and [Success] otherwise; the
    entry point stores and returns that code and changes nothing else: no
    operation is scheduled next. *)
Theorem schedule_next_without_enabled k :
  pending_start_operation_count k = 0 ->
  Operations.size true (operations k) = 0%nat ->
  let e := if Nat.ltb 0 (Operations.size false (operations k))
           then DeadlockDetected else Success in
  schedule_next_inner k = (k, Raised (Code e))
  ∧ (exploration_strategy k = StrategyPCT ->
     is_attached k = true ->
     schedule_next k = (set_last_error_code e k, Returned e)).
Proof.
  intros Hpending Hsize e.
  assert (schedule_next_inner k = (k, Raised (Code e))) as Hinner.
  { unfold schedule_next_inner. kunfold. rewrite Hpending, Hsize. simpl.
    subst e. by destruct (Nat.ltb _ _). }
  split; [done|]. intros Hconfig Hattached.
  unfold schedule_next. kunfold. by rewrite Hconfig, Hattached, Hinner.
Qed.

(** ** Waiting for a resource that does not exist *)

Lemma is_enabled_set_flag_false operation_id ops :
  Operations.is_enabled operation_id (Operations.disable operation_id ops)
  = false.
Proof.
  unfold Operations.is_enabled, Operations.disable, Operations.set_flag.
  induction ops as [|[i b] rest IH]; simpl; [done|].
  rewrite IH. destruct (N.eqb_spec i operation_id) as [->|Hne]; simpl.
  - by rewrite N.eqb_refl.
  - destruct (N.eqb_spec i operation_id); [done|]. done.
Qed.

(** C10: [wait_resource] on a resource id that is not in the resource table
    returns [NotExistingResource] after it has stored the wait on the record
    of the calling operation and disabled the caller in the enabled set: the
    state on the error path is the state before the call with these two
    changes and the stored error code. *)
Theorem wait_resource_missing_resource_mutates k resource_id op :
  exploration_strategy k = StrategyPCT ->
  is_attached k = true ->
  operation_map k !! scheduled_op_id k = Some op ->
  resource_map k !! resource_id = None ->
  let k' := fst (wait_resource resource_id k) in
  snd (wait_resource resource_id k) = Returned NotExistingResource
  ∧ operation_map k' !! scheduled_op_id k
    = Some (Operation.wait_resource_signal resource_id op)
  ∧ Operation.waiting_resources (Operation.wait_resource_signal resource_id op)
    = Some ({[resource_id]}, All)
  ∧ operations k' = Operations.disable (Operation.id op) (operations k)
  ∧ Operations.is_enabled (Operation.id op) (operations k') = false
  ∧ k' = set_last_error_code NotExistingResource
           (set_operations
              (Operations.disable (Operation.id op) (operations k))
              (set_operation_map
                 (alter (Operation.wait_resource_signal resource_id)
                    (scheduled_op_id k) (operation_map k)) k)).
Proof.
  intros Hconfig Hattached Hop Hres k'.
  assert (wait_resource resource_id k
          = (set_last_error_code NotExistingResource
               (set_operations
                  (Operations.disable (Operation.id op) (operations k))
                  (set_operation_map
                     (alter (Operation.wait_resource_signal resource_id)
                        (scheduled_op_id k) (operation_map k)) k)),
             Returned NotExistingResource)) as Hwait.
  { unfold wait_resource, block_scheduled, block_on_resource, operation_at,
      update_operation, update_operations.
    kunfold. rewrite Hconfig, Hattached. simpl. rewrite Hop. simpl.
    by rewrite Hres. }
  subst k'. rewrite Hwait. simpl. repeat split.
  - by rewrite lookup_alter_eq, Hop.
  - unfold Operation.wait_resource_signal, Operation.wait_resource_signals.
    simpl. f_equal. f_equal. set_solver.
  - apply is_enabled_set_flag_false.
Qed.

End KernelErrors.

Section KernelCreate.
Context {S : Type} `{Strategy S}.
Implicit Types (k : SchedulerClient S).

(** ** Creating and reviving operations *)

Lemma bind_Done {A B} (m : M S A) (f : A -> M S B) k k1 a :
  m k = (k1, Done a) -> bind m f k = f a k1.
Proof. intros Hm. unfold bind. by rewrite Hm. Qed.

Lemma insert_and_schedule_first_Done operation_id k :
  insert_and_schedule_first operation_id k
  = (fst (insert_and_schedule_first operation_id k), Done tt).
Proof.
  unfold insert_and_schedule_first, schedule_first, update_operation. kunfold.
  simpl. by destruct (Nat.eqb _ _).
Qed.

Lemma insert_and_schedule_first_present operation_id k op :
  operation_map k !! operation_id = Some op ->
  operation_map (fst (insert_and_schedule_first operation_id k)) !! operation_id
  = Some (if Nat.eqb (size (operation_map k)) 1
          then Operation.set_is_scheduled true op else op).
Proof.
  intros Hop.
  unfold insert_and_schedule_first, schedule_first, update_operation. kunfold.
  simpl. unfold map_insert_new. rewrite Hop.
  destruct (Nat.eqb _ _); simpl; [|done].
  by rewrite lookup_alter_eq, Hop.
Qed.

(** The outcome of [create_operation_inner]. *)
Lemma create_operation_inner_outcome operation_id k :
  snd (create_operation_inner operation_id k)
  = match operation_map k !! operation_id with
    | Some op =>
        if decide (Operation.status op = OperationStatus.Completed)
        then Done tt else Raised (Code DuplicateOperation)
    | None => Done tt
    end.
Proof.
  unfold create_operation_inner.
  rewrite (bind_Done get _ k k k) by done.
  destruct (operation_map k !! operation_id) as [op|] eqn:Hop.
  - destruct (decide _); [|done].
    erewrite bind_Done by reflexivity.
    erewrite bind_Done by apply insert_and_schedule_first_Done. done.
  - erewrite bind_Done by apply insert_and_schedule_first_Done.
    erewrite bind_Done by apply insert_and_schedule_first_Done. done.
Qed.

(** A duplicate leaves the state as it was. *)
Lemma create_operation_inner_duplicate operation_id k op :
  operation_map k !! operation_id = Some op ->
  Operation.status op ≠ OperationStatus.Completed ->
  create_operation_inner operation_id k = (k, Raised (Code DuplicateOperation)).
Proof.
  intros Hop Hstatus. unfold create_operation_inner.
  rewrite (bind_Done get _ k k k) by done. rewrite Hop.
  by rewrite decide_False.
Qed.

(** The revival of a completed operation: its status is [None] again. *)
Lemma create_operation_inner_revives operation_id k op :
  operation_map k !! operation_id = Some op ->
  Operation.status op = OperationStatus.Completed ->
  ∃ op', operation_map (fst (create_operation_inner operation_id k)) !! operation_id
         = Some op'
         ∧ Operation.status op' = OperationStatus.None.
Proof.
  intros Hop Hstatus. unfold create_operation_inner.
  rewrite (bind_Done get _ k k k) by done. rewrite Hop.
  rewrite decide_True by done.
  erewrite bind_Done by reflexivity.
  erewrite bind_Done by apply insert_and_schedule_first_Done.
  unfold modify. simpl.
  erewrite insert_and_schedule_first_present
    by (simpl; rewrite lookup_alter_eq, Hop; reflexivity).
  eexists. split; [done|]. by destruct (Nat.eqb _ _).
Qed.

End KernelCreate.

(** ** The entry point [create_operation] *)

Section KernelCreateEntry.
Context {S : Type} `{Strategy S}.
Implicit Types (k : SchedulerClient S).

Lemma create_operation_prologue k operation_id (body : M S unit) :
  exploration_strategy k = StrategyPCT ->
  is_attached k = true ->
  operation_id ≠ main_op_id ->
  bind check_enabled (fun _ => bind check_attached (fun _ =>
    bind (if N.eqb operation_id main_op_id
          then throw MainOperationExplicitlyCreated else ret tt)
      (fun _ => body))) k
  = body k.
Proof.
  intros Hconfig Hattached Hmain. kunfold. rewrite Hconfig, Hattached.
  by destruct (N.eqb_spec operation_id main_op_id).
Qed.

Lemma create_operation_duplicate k operation_id op :
  exploration_strategy k = StrategyPCT ->
  is_attached k = true ->
  operation_id ≠ main_op_id ->
  operation_map k !! operation_id = Some op ->
  Operation.status op ≠ OperationStatus.Completed ->
  create_operation operation_id k
  = (set_last_error_code DuplicateOperation k, Returned DuplicateOperation).
Proof.
  intros Hconfig Hattached Hmain Hop Hstatus.
  unfold create_operation, run_entry.
  rewrite create_operation_prologue by done.
  by rewrite (create_operation_inner_duplicate _ _ op).
Qed.

Lemma create_operation_no_duplicate k operation_id :
  exploration_strategy k = StrategyPCT ->
  is_attached k = true ->
  operation_id ≠ main_op_id ->
  (∀ op, operation_map k !! operation_id = Some op ->
         Operation.status op = OperationStatus.Completed) ->
  create_operation operation_id k
  = (fst (create_operation_inner operation_id k), Returned (last_error_code k)).
Proof.
  intros Hconfig Hattached Hmain Hop.
  unfold create_operation, run_entry.
  rewrite create_operation_prologue by done.
  pose proof (create_operation_inner_outcome operation_id k) as Hout.
  destruct (create_operation_inner operation_id k) as [k' o] eqn:Hinner.
  simpl in *.
  assert (o = Done tt) as ->.
  { destruct (operation_map k !! operation_id) as [op|]; [|done].
    by rewrite decide_True in Hout by by apply Hop. }
  f_equal. f_equal.
  (* [create_operation_inner] does not touch [last_error_code] *)
  revert Hinner. unfold create_operation_inner, insert_and_schedule_first,
    schedule_first, update_operation. kunfold.
  destruct (operation_map k !! operation_id) as [op|].
  - destruct (decide _); [|done]. simpl.
    repeat (destruct (Nat.eqb _ _); simpl); by intros [= <-].
  - simpl. repeat (destruct (Nat.eqb _ _); simpl); by intros [= <-].
Qed.

End KernelCreateEntry.

(** C5: [create_operation_inner] throws [DuplicateOperation] exactly when an
    operation with the id exists and its status is not [Completed]; when the
    id exists with status [Completed] it throws nothing and the status is
    [None] again.  The entry point [create_operation] returns
    [last_error_code], which a call that throws nothing leaves as it was.
    On an attached kernel and for an id other than the main one: when the
    operation exists and has not completed, [create_operation] returns
    [DuplicateOperation] and leaves the state as it was; otherwise it
    creates or revives the operation and returns the code stored before the
    call; so it returns [DuplicateOperation] exactly when the operation
    exists and has not completed, or [DuplicateOperation] is the code an
    earlier call has stored.  In the sequence [create_operation(7);
    start_operation(7); complete_operation(7); create_operation(7)], made
    right after [attach], the last call returns [Success] and a further
    [create_operation(7)] returns [DuplicateOperation]. *)
Theorem create_operation_duplicate_exactly_when_live :
  (∀ (S : Type) (HS : Strategy S) (k : SchedulerClient S) operation_id,
     snd (create_operation_inner operation_id k)
     = Raised (Code DuplicateOperation)
     <-> ∃ op, operation_map k !! operation_id = Some op
               ∧ Operation.status op ≠ OperationStatus.Completed)
  ∧ (∀ (S : Type) (HS : Strategy S) (k : SchedulerClient S) operation_id op,
       operation_map k !! operation_id = Some op ->
       Operation.status op = OperationStatus.Completed ->
       snd (create_operation_inner operation_id k) = Done tt
       ∧ status_of operation_id (fst (create_operation_inner operation_id k))
         = Some OperationStatus.None)
  ∧ (∀ (S : Type) (HS : Strategy S) (k : SchedulerClient S) operation_id op,
       exploration_strategy k = StrategyPCT ->
       is_attached k = true ->
       operation_id ≠ main_op_id ->
       operation_map k !! operation_id = Some op ->
       (Operation.status op ≠ OperationStatus.Completed ->
        create_operation operation_id k
        = (set_last_error_code DuplicateOperation k,
           Returned DuplicateOperation))
       ∧ (Operation.status op = OperationStatus.Completed ->
          snd (create_operation operation_id k) = Returned (last_error_code k)
          ∧ status_of operation_id (fst (create_operation operation_id k))
            = Some OperationStatus.None))
  ∧ (∀ (S : Type) (HS : Strategy S) (k : SchedulerClient S) operation_id,
       exploration_strategy k = StrategyPCT ->
       is_attached k = true ->
       operation_id ≠ main_op_id ->
       (∀ op, operation_map k !! operation_id = Some op ->
              Operation.status op = OperationStatus.Completed) ->
       create_operation operation_id k
       = (fst (create_operation_inner operation_id k),
          Returned (last_error_code k)))
  ∧ (∀ (S : Type) (HS : Strategy S) (k : SchedulerClient S) operation_id,
       exploration_strategy k = StrategyPCT ->
       is_attached k = true ->
       operation_id ≠ main_op_id ->
       snd (create_operation operation_id k) = Returned DuplicateOperation
       <-> (∃ op, operation_map k !! operation_id = Some op
                  ∧ Operation.status op ≠ OperationStatus.Completed)
           ∨ last_error_code k = DuplicateOperation)
  ∧ (status_of 7 kernel_completed_7 = Some OperationStatus.Completed
     ∧ snd (create_operation 7 kernel_completed_7) = Returned Success
     ∧ status_of 7 (fst (create_operation 7 kernel_completed_7))
       = Some OperationStatus.None
     ∧ snd (create_operation 7 (fst (create_operation 7 kernel_completed_7)))
       = Returned DuplicateOperation).
Proof.
  split; [|split; [|split; [|split; [|split]]]].
  - intros S HS k operation_id.
    rewrite create_operation_inner_outcome. split.
    + destruct (operation_map k !! operation_id) as [op|]; [|done].
      destruct (decide _); [done|]. eauto.
    + intros (op & -> & Hstatus). by rewrite decide_False.
  - intros S HS k operation_id op Hop Hstatus.
    rewrite create_operation_inner_outcome, Hop, decide_True by done.
    split; [done|]. unfold status_of.
    destruct (create_operation_inner_revives operation_id k op Hop Hstatus)
      as (op' & -> & Hnone).
    simpl. by rewrite Hnone.
  - intros S HS k operation_id op Hconfig Hattached Hmain Hop. split.
    + intros Hstatus. by apply (create_operation_duplicate k operation_id op).
    + intros Hstatus. rewrite create_operation_no_duplicate; try done.
      * simpl. split; [done|]. unfold status_of.
        destruct (create_operation_inner_revives operation_id k op Hop Hstatus)
          as (op' & -> & Hnone).
        simpl. by rewrite Hnone.
      * intros op0. rewrite Hop. by intros [= <-].
  - intros S HS k operation_id Hconfig Hattached Hmain Hop.
    by apply create_operation_no_duplicate.
  - intros S HS k operation_id Hconfig Hattached Hmain.
    destruct (operation_map k !! operation_id) as [op|] eqn:Hop.
    + destruct (decide (Operation.status op = OperationStatus.Completed))
        as [Hstatus|Hstatus].
      * rewrite create_operation_no_duplicate; try done.
        -- simpl. split.
           ++ intros [= Herror]. by right.
           ++ intros [(op0 & [= <-] & Hlive)|Herror]; [done|by rewrite Herror].
        -- intros op0. rewrite Hop. by intros [= <-].
      * rewrite (create_operation_duplicate k operation_id op) by done.
        simpl. split; [|done]. intros _. left. eauto.
    + rewrite create_operation_no_duplicate; try done.
      * simpl. split.
        -- intros [= Herror]. by right.
        -- intros [(op0 & [=] & _)|Herror]. by rewrite Herror.
      * intros op0. by rewrite Hop.
  - vm_compute. done.
Qed.

Lemma create_operation_duplicate_exactly_when_live_witness :
  snd (create_operation 7 kernel_completed_7)
  = Returned (last_error_code kernel_completed_7)
  ∧ status_of 7 (fst (create_operation 7 kernel_completed_7))
    = Some OperationStatus.None.
Proof.
  refine (proj2 (proj1 (proj2 (proj2 create_operation_duplicate_exactly_when_live))
                   (PCTStrategy (list N)) _ kernel_completed_7 7
                   (Operation.mk 7 OperationStatus.Completed false ∅ None None)
                   _ _ _ _) _).
  - reflexivity.
  - reflexivity.
  - discriminate.
  - vm_compute. reflexivity.
  - reflexivity.
Defined.

(** ** The token *)

Section KernelToken.
Context {S : Type} `{Strategy S}.
Implicit Types (k : SchedulerClient S) (op : Operation.t).

Lemma benign_step_refl k : benign_step k k.
Proof. split; [done|]. intros i op' Hop Htok. right. eauto. Qed.

Lemma benign_step_trans k1 k2 k3 :
  benign_step k1 k2 -> benign_step k2 k3 -> benign_step k1 k3.
Proof.
  intros [Hid12 H12] [Hid23 H23]. split; [congruence|].
  intros i op3 Hop3 Htok3.
  destruct (H23 i op3 Hop3 Htok3) as [->|(op2 & Hop2 & Htok2)].
  - left. done.
  - by apply (H12 i op2).
Qed.

Lemma benign_step_token_invariant k k' :
  token_invariant k -> benign_step k k' -> token_invariant k'.
Proof.
  intros Hinv [Hid Hstep] i op' Hop' Htok'. rewrite Hid.
  destruct (Hstep i op' Hop' Htok') as [->|(op & Hop & Htok)]; [done|].
  by apply (Hinv i op).
Qed.

(** A step that changes neither the operation map nor the token holder. *)
Lemma benign_step_same_operations k k' :
  operation_map k' = operation_map k ->
  scheduled_op_id k' = scheduled_op_id k ->
  benign_step k k'.
Proof.
  intros Hmap Hid. split; [done|]. rewrite Hmap. intros i op' Hop Htok.
  right. eauto.
Qed.

(** A write to one record that does not hand it the token. *)
Lemma benign_step_alter k operation_id (f : Operation.t -> Operation.t) :
  (∀ op, operation_map k !! operation_id = Some op ->
         holds_token (f op) ->
         holds_token op ∨ operation_id = scheduled_op_id k) ->
  benign_step k
    (set_operation_map (alter f operation_id (operation_map k)) k).
Proof.
  intros Hf. split; [done|]. simpl. intros i op' Hop' Htok'.
  destruct (decide (i = operation_id)) as [->|Hne].
  - rewrite lookup_alter_eq in Hop'.
    destruct (operation_map k !! operation_id) as [op|] eqn:Hop; [|done].
    simpl in Hop'. injection Hop' as <-.
    destruct (Hf op eq_refl Htok') as [Htok|Hid]; [right; eauto|by left].
  - rewrite lookup_alter_ne in Hop' by done. right. eauto.
Qed.

Lemma benign_ret {A} (a : A) : benign (ret a : M S A).
Proof. intros k. apply benign_step_refl. Qed.

Lemma benign_throw {A} e : benign (throw e : M S A).
Proof. intros k. apply benign_step_refl. Qed.

Lemma benign_suspend {A} w : benign (suspend w : M S A).
Proof. intros k. apply benign_step_refl. Qed.

Lemma benign_get : benign (get : M S (SchedulerClient S)).
Proof. intros k. apply benign_step_refl. Qed.

Lemma benign_operation_at operation_id :
  benign (operation_at operation_id : M S Operation.t).
Proof.
  intros k. unfold operation_at.
  destruct (operation_map k !! operation_id); apply benign_step_refl.
Qed.

Lemma benign_bind {A B} (m : M S A) (f : A -> M S B) :
  benign m -> (∀ a, benign (f a)) -> benign (bind m f).
Proof.
  intros Hm Hf k. unfold bind. specialize (Hm k).
  destruct (m k) as [k1 [a|x|w]]; simpl in *; [|done..].
  eapply benign_step_trans; [done|apply Hf].
Qed.

Lemma benign_modify (f : SchedulerClient S -> SchedulerClient S) :
  (∀ k, operation_map (f k) = operation_map k) ->
  (∀ k, scheduled_op_id (f k) = scheduled_op_id k) ->
  benign (modify f).
Proof.
  intros Hmap Hid k.
  apply benign_step_same_operations; simpl; [apply Hmap|apply Hid].
Qed.

Lemma benign_update_operation operation_id (f : Operation.t -> Operation.t) :
  (∀ op, holds_token (f op) -> holds_token op) ->
  benign (update_operation operation_id f : M S unit).
Proof.
  intros Hf k. apply benign_step_alter. intros op _ Htok. left. by apply Hf.
Qed.

Lemma benign_update_operations (f : Operations.t -> Operations.t) :
  benign (update_operations f : M S unit).
Proof. by apply benign_modify. Qed.

Lemma benign_when b (m : M S unit) : benign m -> benign (when b m).
Proof. intros Hm. destruct b; [done|apply benign_ret]. Qed.

Lemma benign_for_each {A} (l : list A) (body : A -> M S unit) :
  (∀ x, benign (body x)) -> benign (for_each l body).
Proof.
  intros Hbody. induction l as [|x rest IH]; simpl.
  - apply benign_ret.
  - apply benign_bind; [apply Hbody|done].
Qed.

Lemma benign_check_enabled : benign (check_enabled : M S unit).
Proof.
  intros k. unfold check_enabled. kunfold.
  destruct (exploration_strategy k); apply benign_step_refl.
Qed.

Lemma benign_check_attached : benign (check_attached : M S unit).
Proof.
  intros k. unfold check_attached. kunfold.
  destruct (is_attached k); apply benign_step_refl.
Qed.

Lemma benign_park operation_id : benign (park operation_id : M S unit).
Proof.
  apply benign_bind; [apply benign_operation_at|]. intros op.
  destruct (Operation.is_scheduled op); [apply benign_ret|apply benign_suspend].
Qed.

Lemma benign_operations_insert operation_id :
  benign (operations_insert operation_id : M S unit).
Proof.
  apply benign_bind; [apply benign_get|]. intros k.
  destruct (Operations.insert _ _); [by apply benign_modify|apply benign_throw].
Qed.

(** The helpers of the operation record hand no token. *)
Lemma holds_token_unblock op : holds_token (Operation.unblock op) -> holds_token op.
Proof.
  unfold Operation.unblock.
  destruct (Operation.status op) eqn:Hs; try done.
  unfold holds_token. simpl. intros [Hflag _]. split; [done|]. by rewrite Hs.
Qed.

Lemma holds_token_on_join_operation operation_id op :
  holds_token (Operation.on_join_operation operation_id op).1 -> holds_token op.
Proof.
  unfold Operation.on_join_operation.
  destruct (Operation.join_target op) as [[ids mode]|]; [|done].
  destruct (Operation.satisfied _ _); simpl; [|done].
  intros Htok. by apply holds_token_unblock in Htok.
Qed.

Lemma holds_token_on_resource_signal resource_id op :
  holds_token (Operation.on_resource_signal resource_id op).1 -> holds_token op.
Proof.
  unfold Operation.on_resource_signal.
  destruct (Operation.waiting_resources op) as [[ids mode]|]; [|done].
  destruct (Operation.satisfied _ _); simpl; [|done].
  intros Htok. by apply holds_token_unblock in Htok.
Qed.

End KernelToken.

Section KernelTokenSteps.
Context {S : Type} `{Strategy S}.
Implicit Types (k : SchedulerClient S) (op : Operation.t).

(** [attach] changes the state as an entry point that returns
    [last_error_code] would. *)
Lemma run_block_state (body : M S unit) k :
  fst (run_block body k) = fst (run_entry body k).
Proof. unfold run_block, run_entry. by destruct (body k) as [k' [[]|[e|]|w]]. Qed.

(** Waking a parked call changes the state as the test of [is_attached]
    does. *)
Lemma resume_parked_state operation_id k :
  fst (resume_parked operation_id k) = fst (run_entry check_attached k).
Proof.
  unfold resume_parked. kunfold. destruct (is_attached k); [|done].
  destruct (operation_map k !! operation_id) as [op|]; [|done].
  by destruct (Operation.is_scheduled op).
Qed.

Lemma bind_Raised {A B} (m : M S A) (f : A -> M S B) k k1 x :
  m k = (k1, Raised x) -> bind m f k = (k1, Raised x).
Proof. intros Hm. unfold bind. by rewrite Hm. Qed.

Lemma operation_at_Some k operation_id op :
  operation_map k !! operation_id = Some op ->
  operation_at operation_id k = (k, Done op).
Proof. intros Hop. unfold operation_at. by rewrite Hop. Qed.

Lemma operation_at_None k operation_id :
  operation_map k !! operation_id = None ->
  operation_at operation_id k = (k, Raised OutOfRange).
Proof. intros Hop. unfold operation_at. by rewrite Hop. Qed.

(** Sequencing, with the state the first part ends in. *)
Lemma benign_step_bind {A B} (m : M S A) (f : A -> M S B) k :
  benign_step k (fst (m k)) ->
  (∀ a k1, m k = (k1, Done a) -> benign_step k1 (fst (f a k1))) ->
  benign_step k (fst (bind m f k)).
Proof.
  intros Hm Hf. unfold bind.
  destruct (m k) as [k1 [a|x|w]] eqn:Hmk; simpl in *; [|done..].
  eapply benign_step_trans; [done|by apply Hf].
Qed.

Lemma holds_token_add_joiner joiner op :
  holds_token (add_joiner joiner op) -> holds_token op.
Proof. done. Qed.

Lemma holds_token_completed op :
  holds_token (Operation.set_status OperationStatus.Completed op) ->
  holds_token op.
Proof. by intros [_ Hs]. Qed.

Lemma holds_token_cancel op : holds_token (cancel op) -> holds_token op.
Proof. by intros [_ Hs]. Qed.

Lemma holds_token_revive op : holds_token (revive op) -> holds_token op.
Proof. by intros [Hf _]. Qed.

(** The caller that blocks is the token holder: its record may change. *)
Lemma benign_block_scheduled (store : Operation.t -> Operation.t) :
  benign (block_scheduled store : M S unit).
Proof.
  intros k. unfold block_scheduled.
  rewrite (bind_Done get _ k k k) by done.
  destruct (operation_map k !! scheduled_op_id k) as [op|] eqn:Hop.
  - rewrite (bind_Done _ _ k k op) by by apply operation_at_Some.
    erewrite bind_Done by reflexivity. simpl.
    eapply benign_step_trans;
      [apply (benign_step_alter k (scheduled_op_id k) store)|].
    + intros. by right.
    + by apply benign_step_same_operations.
  - erewrite bind_Raised by by apply operation_at_None. apply benign_step_refl.
Qed.

Lemma benign_notify_joiner operation_id blocked_id :
  benign (notify_joiner operation_id blocked_id : M S unit).
Proof.
  intros k. unfold notify_joiner.
  destruct (operation_map k !! blocked_id) as [op|] eqn:Hop.
  - rewrite (bind_Done _ _ k k op) by by apply operation_at_Some.
    pose proof (holds_token_on_join_operation operation_id op) as Htok.
    destruct (Operation.on_join_operation operation_id op) as [op' unblocked].
    apply benign_step_bind.
    + apply (benign_step_alter k blocked_id (fun _ => op')).
      intros op0 Hop0. left. rewrite Hop in Hop0. injection Hop0 as <-.
      by apply Htok.
    + intros _ k1 _. apply benign_when, benign_update_operations.
  - erewrite bind_Raised by by apply operation_at_None. apply benign_step_refl.
Qed.

Lemma benign_notify_blocked resource_id blocked_id :
  benign (notify_blocked resource_id blocked_id : M S unit).
Proof.
  intros k. unfold notify_blocked.
  destruct (operation_map k !! blocked_id) as [op|] eqn:Hop.
  - rewrite (bind_Done _ _ k k op) by by apply operation_at_Some.
    pose proof (holds_token_on_resource_signal resource_id op) as Htok.
    destruct (Operation.on_resource_signal resource_id op) as [op' unblocked].
    apply benign_step_bind.
    + apply (benign_step_alter k blocked_id (fun _ => op')).
      intros op0 Hop0. left. rewrite Hop in Hop0. injection Hop0 as <-.
      by apply Htok.
    + intros _ k1 _. apply benign_when, benign_update_operations.
  - erewrite bind_Raised by by apply operation_at_None. apply benign_step_refl.
Qed.

Lemma benign_block_on_resource resource_id :
  benign (block_on_resource resource_id : M S unit).
Proof.
  apply benign_bind; [apply benign_get|]. intros k.
  destruct (resource_map k !! resource_id);
    [by apply benign_modify|apply benign_throw].
Qed.

Lemma benign_collect_join_operations operation_ids joins :
  benign (collect_join_operations operation_ids joins : M S (list N)).
Proof.
  revert joins. induction operation_ids as [|i rest IH]; intros joins; simpl.
  - apply benign_ret.
  - apply benign_bind; [apply benign_get|]. intros k.
    destruct (operation_map k !! i) as [join_op|]; [|apply benign_throw].
    destruct (decide _); [|apply IH].
    apply benign_bind; [|intros _; apply IH].
    apply benign_update_operation, holds_token_add_joiner.
Qed.

Lemma benign_cancel_operation operation_id :
  benign (cancel_operation operation_id : M S unit).
Proof.
  unfold cancel_operation.
  apply benign_bind; [apply benign_operation_at|]. intros op.
  destruct (decide _); [|apply benign_ret].
  apply benign_bind; [|intros _; apply benign_update_operations].
  apply benign_update_operation, holds_token_cancel.
Qed.

(** Starting an operation moves its status from [None] to [Enabled]. *)
Lemma benign_start_operation_inner operation_id :
  benign (start_operation_inner operation_id : M S unit).
Proof.
  intros k. unfold start_operation_inner.
  rewrite (bind_Done get _ k k k) by done.
  destruct (operation_map k !! operation_id) as [op|] eqn:Hop;
    [|apply benign_step_refl].
  destruct (decide _) as [|Hcompleted]; [apply benign_step_refl|].
  destruct (decide _) as [|Hnone]; [apply benign_step_refl|].
  apply benign_step_bind; [by apply benign_step_same_operations|].
  intros [] k1 [= <-]. rewrite decide_True by done.
  apply benign_step_bind.
  - apply benign_step_alter. simpl. intros op0 Hop0 [Hflag _]. left.
    rewrite Hop in Hop0. injection Hop0 as <-. done.
  - intros _ k2 _.
    apply benign_bind; [apply benign_operations_insert|].
    intros _. apply benign_park.
Qed.

(** ** The invariant along the code *)

Lemma preserves_benign {A} (m : M S A) :
  benign m -> preserves_token_invariant m.
Proof. intros Hm k Hinv. by eapply benign_step_token_invariant. Qed.

Lemma preserves_bind {A B} (m : M S A) (f : A -> M S B) :
  preserves_token_invariant m ->
  (∀ a, preserves_token_invariant (f a)) ->
  preserves_token_invariant (bind m f).
Proof.
  intros Hm Hf k Hinv. unfold bind. specialize (Hm k Hinv).
  destruct (m k) as [k1 [a|x|w]]; simpl in *; [|done..]. by apply Hf.
Qed.

Lemma preserves_run_entry (body : M S unit) k :
  preserves_token_invariant body ->
  token_invariant k -> token_invariant (fst (run_entry body k)).
Proof.
  intros Hbody Hinv. unfold run_entry. specialize (Hbody k Hinv).
  by destruct (body k) as [k1 [a|[e|]|w]].
Qed.

End KernelTokenSteps.

Section KernelTokenInvariant.
Context {S : Type} `{Strategy S}.
Implicit Types (k : SchedulerClient S) (op : Operation.t).

Lemma token_invariant_same_operations k k' :
  operation_map k' = operation_map k ->
  scheduled_op_id k' = scheduled_op_id k ->
  token_invariant k -> token_invariant k'.
Proof.
  intros Hmap Hid Hinv.
  eapply benign_step_token_invariant; [done|].
  by apply benign_step_same_operations.
Qed.

(** A map with one entry has one key. *)
Lemma map_size_1_key (m : gmap N Operation.t) i j x y :
  size m = 1%nat -> m !! i = Some x -> m !! j = Some y -> i = j.
Proof.
  intros Hsize Hi Hj. apply (size_singleton_inv (dom m)).
  - by rewrite size_dom.
  - apply elem_of_dom. eauto.
  - apply elem_of_dom. eauto.
Qed.

Lemma map_insert_new_lookup (m : gmap N Operation.t) operation_id i op :
  map_insert_new operation_id m !! i = Some op ->
  m !! i = Some op ∨ (i = operation_id ∧ op = Operation.new operation_id).
Proof.
  unfold map_insert_new. destruct (m !! operation_id) eqn:Hm; [by left|].
  destruct (decide (i = operation_id)) as [->|Hne].
  - rewrite lookup_insert_eq. intros [= <-]. by right.
  - rewrite lookup_insert_ne by done. by left.
Qed.

Lemma map_insert_new_present (m : gmap N Operation.t) operation_id :
  is_Some (map_insert_new operation_id m !! operation_id).
Proof.
  unfold map_insert_new. destruct (m !! operation_id) eqn:Hm.
  - rewrite Hm. eauto.
  - rewrite lookup_insert_eq. eauto.
Qed.

(** The first operation of a map becomes the token holder. *)
Lemma preserves_insert_and_schedule_first operation_id :
  preserves_token_invariant (insert_and_schedule_first operation_id : M S unit).
Proof.
  intros k Hinv. unfold insert_and_schedule_first.
  erewrite bind_Done by reflexivity.
  erewrite bind_Done by reflexivity.
  set (m := map_insert_new operation_id (operation_map k)).
  assert (∀ i op, m !! i = Some op -> holds_token op -> i = scheduled_op_id k)
    as Hinv1.
  { intros i op Hop Htok.
    apply map_insert_new_lookup in Hop as [Hop|[-> ->]]; [by apply (Hinv i op)|].
    by destruct Htok. }
  simpl. fold m. destruct (Nat.eqb_spec (size m) 1) as [Hsize|Hsize]; simpl.
  - intros i op Hop _. simpl in *.
    destruct (map_insert_new_present (operation_map k) operation_id) as [x Hx].
    fold m in Hx.
    destruct (decide (i = operation_id)) as [->|Hne]; [done|].
    rewrite lookup_alter_ne in Hop by done.
    by apply (map_size_1_key m i operation_id op x).
  - exact Hinv1.
Qed.

Lemma preserves_create_operation_inner operation_id :
  preserves_token_invariant (create_operation_inner operation_id : M S unit).
Proof.
  unfold create_operation_inner.
  apply preserves_bind; [apply preserves_benign, benign_get|]. intros k.
  apply preserves_bind.
  - destruct (operation_map k !! operation_id) as [existing_op|].
    + apply preserves_benign. destruct (decide _); [|apply benign_throw].
      apply benign_update_operation, holds_token_revive.
    + apply preserves_insert_and_schedule_first.
  - intros _. apply preserves_bind; [apply preserves_insert_and_schedule_first|].
    intros _. by apply preserves_benign, benign_modify.
Qed.

(** The hand-over of the token. *)
Lemma preserves_schedule_next_inner :
  preserves_token_invariant (schedule_next_inner : M S unit).
Proof.
  intros k Hinv. unfold schedule_next_inner.
  rewrite (bind_Done get _ k k k) by done.
  destruct (N.ltb 0 _); [done|].
  destruct (Nat.eqb _ 0); [by destruct (Nat.ltb _ _)|].
  destruct (strategy_next_operation _ _ _) as [st [next_id|e]].
  2:{ erewrite bind_Done by reflexivity. done. }
  erewrite bind_Done by reflexivity.
  set (k1 := set_strategy st k).
  destruct (operation_map k !! next_id) as [next_op|] eqn:Hnext.
  2:{ erewrite bind_Raised by (by apply operation_at_None). done. }
  rewrite (bind_Done _ _ k1 k1 next_op) by by apply operation_at_Some.
  erewrite bind_Done by reflexivity.
  destruct (decide (scheduled_op_id k ≠ next_id)) as [Hne|Heq].
  2:{ simpl. intros i op Hop Htok. simpl in *.
      destruct (decide (scheduled_op_id k = next_id)) as [<-|]; [|done].
      by apply (Hinv i op). }
  erewrite bind_Done by reflexivity.
  set (k3 := fst (update_operation next_id (Operation.set_is_scheduled true)
                    (fst (modify (set_scheduled_op_id next_id) k1)))).
  assert (∀ i, i ≠ next_id -> operation_map k3 !! i = operation_map k !! i)
    as Hother.
  { intros i Hi. simpl. by rewrite lookup_alter_ne. }
  assert (scheduled_op_id k3 = next_id) as Hid3 by done.
  destruct (operation_map k !! scheduled_op_id k) as [previous_op|] eqn:Hprev.
  - rewrite (bind_Done _ _ k3 k3 previous_op)
      by (apply operation_at_Some; by rewrite Hother).
    destruct (decide _) as [Hlive|Hdone].
    + erewrite bind_Done by reflexivity.
      eapply benign_step_token_invariant; [|apply benign_park].
      intros i op Hop Htok. simpl in Hop |- *.
      destruct (decide (i = next_id)) as [->|Hi]; [done|].
      destruct (decide (i = scheduled_op_id k)) as [->|Hi'].
      * rewrite lookup_alter_eq, lookup_alter_ne, Hprev in Hop by done.
        simpl in Hop. injection Hop as <-. by destruct Htok.
      * rewrite !lookup_alter_ne in Hop by done.
        by destruct Hi', (Hinv i op).
    + intros i op Hop Htok. change (i = next_id).
      change (operation_map k3 !! i = Some op) in Hop.
      destruct (decide (i = next_id)) as [->|Hi]; [done|].
      rewrite Hother in Hop by done.
      assert (i = scheduled_op_id k) as -> by by apply (Hinv i op).
      rewrite Hprev in Hop. injection Hop as <-.
      destruct Htok as [_ Hstatus]. destruct Hdone. done.
  - erewrite bind_Raised
      by (apply operation_at_None; by rewrite Hother).
    intros i op Hop Htok. change (i = next_id).
    change (operation_map k3 !! i = Some op) in Hop.
    destruct (decide (i = next_id)) as [->|Hi]; [done|].
    rewrite Hother in Hop by done.
    assert (i = scheduled_op_id k) as -> by by apply (Hinv i op).
    by rewrite Hprev in Hop.
Qed.

End KernelTokenInvariant.

(** Composition of the steps that move no token. *)
Ltac benign_auto :=
  repeat first
    [ apply benign_ret | apply benign_throw | apply benign_suspend
    | apply benign_get | apply benign_operation_at
    | apply benign_check_enabled | apply benign_check_attached
    | apply benign_park | apply benign_operations_insert
    | apply benign_update_operations | apply benign_block_scheduled
    | apply benign_notify_joiner | apply benign_notify_blocked
    | apply benign_block_on_resource | apply benign_collect_join_operations
    | apply benign_start_operation_inner | apply benign_cancel_operation
    | apply benign_when
    | (apply benign_for_each; intros ?; cbv beta)
    | (apply benign_modify; [done|done])
    | (apply benign_update_operation;
       first [ apply holds_token_add_joiner | apply holds_token_completed
             | apply holds_token_cancel | apply holds_token_revive ])
    | match goal with
      | |- benign (bind _ _) => apply benign_bind; [|intros ?; cbv beta]
      | |- benign (match ?x with _ => _ end) => destruct x
      end ].

(** Composition of the steps that keep the invariant of the token. *)
Ltac preserves_auto :=
  repeat first
    [ apply preserves_create_operation_inner
    | apply preserves_schedule_next_inner
    | match goal with
      | |- preserves_token_invariant (bind _ _) =>
          apply preserves_bind; [|intros ?; cbv beta]
      | |- preserves_token_invariant (match ?x with _ => _ end) => destruct x
      end
    | (apply preserves_benign; solve [benign_auto]) ].

Section KernelReachableInvariant.
Context {S : Type} `{Strategy S}.
Implicit Types (k : SchedulerClient S) (op : Operation.t).

Lemma benign_clear_operation_map :
  benign (modify (set_operation_map ∅) : M S unit).
Proof. intros k. split; [done|]. intros i op Hop. by simpl in Hop. Qed.

Lemma token_invariant_attach k :
  token_invariant k -> token_invariant (fst (attach k)).
Proof.
  intros Hinv. unfold attach. rewrite run_block_state.
  apply preserves_run_entry; [|done]. preserves_auto.
Qed.

Lemma token_invariant_detach k :
  token_invariant k -> token_invariant (fst (detach k)).
Proof.
  intros Hinv. apply preserves_run_entry; [|done].
  apply preserves_benign.
  repeat first [ apply benign_clear_operation_map | progress benign_auto ].
Qed.

Lemma token_invariant_create_operation i k :
  token_invariant k -> token_invariant (fst (create_operation i k)).
Proof. intros Hinv. apply preserves_run_entry; [|done]. preserves_auto. Qed.

Lemma token_invariant_start_operation i k :
  token_invariant k -> token_invariant (fst (start_operation i k)).
Proof. intros Hinv. apply preserves_run_entry; [|done]. preserves_auto. Qed.

Lemma token_invariant_join_operation i k :
  token_invariant k -> token_invariant (fst (join_operation i k)).
Proof. intros Hinv. apply preserves_run_entry; [|done]. preserves_auto. Qed.

Lemma token_invariant_join_operations l b k :
  token_invariant k -> token_invariant (fst (join_operations l b k)).
Proof. intros Hinv. apply preserves_run_entry; [|done]. preserves_auto. Qed.

Lemma token_invariant_complete_operation i k :
  token_invariant k -> token_invariant (fst (complete_operation i k)).
Proof. intros Hinv. apply preserves_run_entry; [|done]. preserves_auto. Qed.

Lemma token_invariant_create_resource r k :
  token_invariant k -> token_invariant (fst (create_resource r k)).
Proof. intros Hinv. apply preserves_run_entry; [|done]. preserves_auto. Qed.

Lemma token_invariant_wait_resource r k :
  token_invariant k -> token_invariant (fst (wait_resource r k)).
Proof. intros Hinv. apply preserves_run_entry; [|done]. preserves_auto. Qed.

Lemma token_invariant_wait_resources l b k :
  token_invariant k -> token_invariant (fst (wait_resources l b k)).
Proof. intros Hinv. apply preserves_run_entry; [|done]. preserves_auto. Qed.

Lemma token_invariant_signal_resource r k :
  token_invariant k -> token_invariant (fst (signal_resource r k)).
Proof. intros Hinv. apply preserves_run_entry; [|done]. preserves_auto. Qed.

Lemma token_invariant_signal_resource_operation r i k :
  token_invariant k -> token_invariant (fst (signal_resource_operation r i k)).
Proof. intros Hinv. apply preserves_run_entry; [|done]. preserves_auto. Qed.

Lemma token_invariant_delete_resource r k :
  token_invariant k -> token_invariant (fst (delete_resource r k)).
Proof. intros Hinv. apply preserves_run_entry; [|done]. preserves_auto. Qed.

Lemma token_invariant_schedule_next k :
  token_invariant k -> token_invariant (fst (schedule_next k)).
Proof. intros Hinv. apply preserves_run_entry; [|done]. preserves_auto. Qed.

Lemma token_invariant_resume_schedule_next k :
  token_invariant k -> token_invariant (fst (resume_schedule_next k)).
Proof. intros Hinv. apply preserves_run_entry; [|done]. preserves_auto. Qed.

Lemma token_invariant_resume_parked operation_id k :
  token_invariant k -> token_invariant (fst (resume_parked operation_id k)).
Proof.
  intros Hinv. rewrite resume_parked_state.
  apply preserves_run_entry; [|done]. preserves_auto.
Qed.

Lemma token_invariant_perform c k :
  token_invariant k -> token_invariant (perform c k).
Proof.
  intros Hinv. destruct c; simpl.
  - by apply token_invariant_attach.
  - by apply token_invariant_detach.
  - by apply token_invariant_create_operation.
  - by apply token_invariant_start_operation.
  - by apply token_invariant_join_operation.
  - by apply token_invariant_join_operations.
  - by apply token_invariant_complete_operation.
  - by apply token_invariant_create_resource.
  - by apply token_invariant_wait_resource.
  - by apply token_invariant_wait_resources.
  - by apply token_invariant_signal_resource.
  - by apply token_invariant_signal_resource_operation.
  - by apply token_invariant_delete_resource.
  - by apply token_invariant_schedule_next.
  - unfold kernel_next_boolean.
    destruct (strategy_next_boolean (strategy k)) as [st b]. done.
  - unfold kernel_next_integer.
    destruct (strategy_next_integer (strategy k) max_value) as [st v]. done.
  - by apply token_invariant_resume_schedule_next.
  - by apply token_invariant_resume_parked.
Qed.

Lemma reachable_run calls k : reachable k -> reachable (run calls k).
Proof.
  revert k. induction calls as [|c rest IH]; intros k Hk; simpl; [done|].
  apply IH. by constructor.
Qed.

(** C1, as the code has it: in every kernel state reachable by any sequence
    of calls, a record with [is_scheduled = true] whose status is not
    [Completed] is the record of [scheduled_op_id]; so at most one operation
    that has not completed has [is_scheduled = true]. *)
Theorem one_live_operation_is_scheduled k :
  reachable k ->
  ∀ i j opi opj,
    operation_map k !! i = Some opi -> holds_token opi ->
    operation_map k !! j = Some opj -> holds_token opj ->
    i = scheduled_op_id k ∧ i = j.
Proof.
  intros Hreach.
  assert (token_invariant k) as Hinv.
  { induction Hreach as [config st|c k Hreach IH].
    - intros i op Hop. by simpl in Hop.
    - by apply token_invariant_perform. }
  intros i j opi opj Hi Htoki Hj Htokj.
  rewrite (Hinv i opi Hi Htoki), (Hinv j opj Hj Htokj). done.
Qed.

End KernelReachableInvariant.

Lemma kernel_after_completion_reachable : reachable kernel_after_completion.
Proof. apply reachable_run. constructor. Qed.

(** C1 fails as stated: after [attach; create_operation(1);
    start_operation(1); join_operation(1); complete_operation(1)] the kernel
    is attached and two records have [is_scheduled = true], the main
    operation that got the token back and operation [1] that completed while
    it held the token.  Nor is there always a record that holds the flag and
    has not completed while attached: when operation [1] completes while the
    main operation waits for a resource, only the completed record has it. *)
Lemma completed_operation_keeps_is_scheduled :
  reachable kernel_after_completion
  ∧ is_attached kernel_after_completion = true
  ∧ scheduled_operations kernel_after_completion = [1; 0]
  ∧ status_of 1 kernel_after_completion = Some OperationStatus.Completed
  ∧ reachable kernel_blocked_after_completion
  ∧ is_attached kernel_blocked_after_completion = true
  ∧ scheduled_operations kernel_blocked_after_completion = [1]
  ∧ live_scheduled_operations kernel_blocked_after_completion = []
  ∧ ¬ (∀ k : SchedulerClient (PCTStrategy (list N)),
         reachable k ->
         (length (scheduled_operations k) <= 1)%nat
         ∧ (is_attached k = true ->
            length (scheduled_operations k) = 1%nat)).
Proof.
  split; [exact kernel_after_completion_reachable|].
  split; [by vm_compute|]. split; [by vm_compute|]. split; [by vm_compute|].
  split; [apply reachable_run; constructor|].
  split; [by vm_compute|]. split; [by vm_compute|]. split; [by vm_compute|].
  intros Hclaim.
  destruct (Hclaim _ kernel_after_completion_reachable) as [Hle _].
  vm_compute in Hle. lia.
Qed.

Lemma one_live_operation_is_scheduled_witness :
  0 = scheduled_op_id kernel_after_completion ∧ 0 = 0.
Proof.
  refine (one_live_operation_is_scheduled kernel_after_completion
            kernel_after_completion_reachable 0 0
            (Operation.mk 0 OperationStatus.Enabled true ∅ None None)
            (Operation.mk 0 OperationStatus.Enabled true ∅ None None)
            _ _ _ _).
  - vm_compute. reflexivity.
  - split; [reflexivity|discriminate].
  - vm_compute. reflexivity.
  - split; [reflexivity|discriminate].
Defined.

(** ** Registered operations *)

Section KernelRegistered.
Context {S : Type} `{Strategy S}.
Implicit Types (k : SchedulerClient S) (op : Operation.t).

Lemma registered_same k k' :
  operation_map k' = operation_map k ->
  resource_map k' = resource_map k ->
  registered k -> registered k'.
Proof. unfold registered. by intros -> ->. Qed.

Lemma registered_alter k operation_id (f : Operation.t -> Operation.t) :
  (∀ op, operation_map k !! operation_id = Some op ->
         Operation.id (f op) = Operation.id op) ->
  registered k ->
  registered (set_operation_map (alter f operation_id (operation_map k)) k).
Proof.
  intros Hf [Hids Hblocked]. split; simpl.
  - intros i op'. destruct (decide (i = operation_id)) as [->|Hne].
    + rewrite lookup_alter_eq.
      destruct (operation_map k !! operation_id) as [op|] eqn:Hop; [|done].
      simpl. intros [= <-]. rewrite Hf by done. by apply Hids.
    + rewrite lookup_alter_ne by done. apply Hids.
  - intros r blocked b Hr Hb. apply lookup_alter_is_Some. by eapply Hblocked.
Qed.

Lemma registered_insert_new k operation_id :
  registered k ->
  registered
    (set_operation_map (map_insert_new operation_id (operation_map k)) k).
Proof.
  intros [Hids Hblocked]. split; simpl.
  - intros i op Hop.
    apply map_insert_new_lookup in Hop as [Hop|[-> ->]]; [by apply Hids|done].
  - intros r blocked b Hr Hb. destruct (Hblocked r blocked b Hr Hb) as [op Hop].
    unfold map_insert_new. destruct (operation_map k !! operation_id); [eauto|].
    destruct (decide (b = operation_id)) as [->|Hne].
    + rewrite lookup_insert_eq. eauto.
    + rewrite lookup_insert_ne by done. eauto.
Qed.

(** A new blocked set whose members are registered. *)
Lemma registered_resource_insert k resource_id (blocked : gset N) :
  (∀ b, b ∈ blocked -> is_Some (operation_map k !! b)) ->
  registered k ->
  registered (set_resource_map (<[resource_id := blocked]> (resource_map k)) k).
Proof.
  intros Hnew [Hids Hblocked]. split; simpl; [done|].
  intros r blocked' b. destruct (decide (r = resource_id)) as [->|Hne].
  - rewrite lookup_insert_eq. intros [= <-]. apply Hnew.
  - rewrite lookup_insert_ne by done. apply Hblocked.
Qed.

Lemma registered_resource_delete k resource_id :
  registered k ->
  registered (set_resource_map (delete resource_id (resource_map k)) k).
Proof.
  intros [Hids Hblocked]. split; simpl; [done|].
  intros r blocked b Hr. apply lookup_delete_Some in Hr as [_ Hr].
  by apply (Hblocked r).
Qed.

Lemma registered_ret {A} (a : A) : preserves_registered (ret a : M S A).
Proof. by intros k. Qed.

Lemma registered_throw {A} e : preserves_registered (throw e : M S A).
Proof. by intros k. Qed.

Lemma registered_suspend {A} w : preserves_registered (suspend w : M S A).
Proof. by intros k. Qed.

Lemma registered_get : preserves_registered (get : M S (SchedulerClient S)).
Proof. by intros k. Qed.

Lemma registered_operation_at operation_id :
  preserves_registered (operation_at operation_id : M S Operation.t).
Proof.
  intros k. unfold operation_at. by destruct (operation_map k !! operation_id).
Qed.

Lemma registered_bind {A B} (m : M S A) (f : A -> M S B) :
  preserves_registered m -> (∀ a, preserves_registered (f a)) ->
  preserves_registered (bind m f).
Proof.
  intros Hm Hf k Hk. unfold bind. specialize (Hm k Hk).
  destruct (m k) as [k1 [a|x|w]]; simpl in *; [|done..]. by apply Hf.
Qed.

(** Sequencing, with the state the first part ends in. *)
Lemma registered_bind_at {A B} (m : M S A) (f : A -> M S B) k :
  registered (fst (m k)) ->
  (∀ a k1, m k = (k1, Done a) -> registered k1 -> registered (fst (f a k1))) ->
  registered (fst (bind m f k)).
Proof.
  intros Hm Hf. unfold bind.
  destruct (m k) as [k1 [a|x|w]] eqn:Hmk; simpl in *; [|done..]. by apply Hf.
Qed.

Lemma registered_modify (f : SchedulerClient S -> SchedulerClient S) :
  (∀ k, operation_map (f k) = operation_map k) ->
  (∀ k, resource_map (f k) = resource_map k) ->
  preserves_registered (modify f).
Proof.
  intros Hmap Hres k. apply registered_same; simpl; [apply Hmap|apply Hres].
Qed.

Lemma registered_update_operation operation_id (f : Operation.t -> Operation.t) :
  (∀ op, Operation.id (f op) = Operation.id op) ->
  preserves_registered (update_operation operation_id f : M S unit).
Proof. intros Hf k. apply registered_alter. intros op _. apply Hf. Qed.

Lemma registered_when b (m : M S unit) :
  preserves_registered m -> preserves_registered (when b m).
Proof. intros Hm. destruct b; [done|apply registered_ret]. Qed.

Lemma registered_for_each {A} (l : list A) (body : A -> M S unit) :
  (∀ x, preserves_registered (body x)) -> preserves_registered (for_each l body).
Proof.
  intros Hbody. induction l as [|x rest IH]; simpl.
  - apply registered_ret.
  - apply registered_bind; [apply Hbody|done].
Qed.

Lemma registered_insert_map operation_id :
  preserves_registered
    (modify (fun k =>
       set_operation_map (map_insert_new operation_id (operation_map k)) k)
     : M S unit).
Proof. intros k. apply registered_insert_new. Qed.

Lemma registered_create_resource resource_id :
  preserves_registered
    (modify (fun k =>
       set_resource_map (<[resource_id := ∅]> (resource_map k)) k) : M S unit).
Proof.
  intros k. apply registered_resource_insert. intros b Hb. set_solver.
Qed.

Lemma registered_delete_resource resource_id :
  preserves_registered
    (modify (fun k =>
       set_resource_map (delete resource_id (resource_map k)) k) : M S unit).
Proof. intros k. apply registered_resource_delete. Qed.

Lemma id_on_join_operation operation_id op :
  Operation.id (Operation.on_join_operation operation_id op).1 = Operation.id op.
Proof.
  unfold Operation.on_join_operation.
  destruct (Operation.join_target op) as [[ids mode]|]; [|done].
  destruct (Operation.satisfied _ _); simpl; [|done].
  unfold Operation.unblock. simpl. by destruct (Operation.status op).
Qed.

Lemma id_on_resource_signal resource_id op :
  Operation.id (Operation.on_resource_signal resource_id op).1 = Operation.id op.
Proof.
  unfold Operation.on_resource_signal.
  destruct (Operation.waiting_resources op) as [[ids mode]|]; [|done].
  destruct (Operation.satisfied _ _); simpl; [|done].
  unfold Operation.unblock. simpl. by destruct (Operation.status op).
Qed.

Lemma registered_notify_joiner operation_id blocked_id :
  preserves_registered (notify_joiner operation_id blocked_id : M S unit).
Proof.
  intros k Hk. unfold notify_joiner.
  destruct (operation_map k !! blocked_id) as [op|] eqn:Hop.
  - rewrite (bind_Done _ _ k k op) by by apply operation_at_Some.
    pose proof (id_on_join_operation operation_id op) as Hid.
    destruct (Operation.on_join_operation operation_id op) as [op' unblocked].
    apply registered_bind_at.
    + apply (registered_alter k blocked_id (fun _ => op')); [|done].
      intros op0. rewrite Hop. by intros [= <-].
    + intros _ k1 _. revert k1. apply registered_when.
      by apply registered_modify.
  - by erewrite bind_Raised by by apply operation_at_None.
Qed.

Lemma registered_notify_blocked resource_id blocked_id :
  preserves_registered (notify_blocked resource_id blocked_id : M S unit).
Proof.
  intros k Hk. unfold notify_blocked.
  destruct (operation_map k !! blocked_id) as [op|] eqn:Hop.
  - rewrite (bind_Done _ _ k k op) by by apply operation_at_Some.
    pose proof (id_on_resource_signal resource_id op) as Hid.
    destruct (Operation.on_resource_signal resource_id op) as [op' unblocked].
    apply registered_bind_at.
    + apply (registered_alter k blocked_id (fun _ => op')); [|done].
      intros op0. rewrite Hop. by intros [= <-].
    + intros _ k1 _. revert k1. apply registered_when.
      by apply registered_modify.
  - by erewrite bind_Raised by by apply operation_at_None.
Qed.

Lemma registered_check_enabled : preserves_registered (check_enabled : M S unit).
Proof.
  intros k. unfold check_enabled. kunfold. by destruct (exploration_strategy k).
Qed.

Lemma registered_check_attached : preserves_registered (check_attached : M S unit).
Proof. intros k. unfold check_attached. kunfold. by destruct (is_attached k). Qed.

Lemma registered_update_operations (f : Operations.t -> Operations.t) :
  preserves_registered (update_operations f : M S unit).
Proof. by apply registered_modify. Qed.

Lemma registered_park operation_id :
  preserves_registered (park operation_id : M S unit).
Proof.
  apply registered_bind; [apply registered_operation_at|]. intros op.
  destruct (Operation.is_scheduled op);
    [apply registered_ret|apply registered_suspend].
Qed.

Lemma registered_operations_insert operation_id :
  preserves_registered (operations_insert operation_id : M S unit).
Proof.
  apply registered_bind; [apply registered_get|]. intros k.
  destruct (Operations.insert _ _);
    [by apply registered_modify|apply registered_throw].
Qed.

Lemma registered_block_scheduled (store : Operation.t -> Operation.t) :
  (∀ op, Operation.id (store op) = Operation.id op) ->
  preserves_registered (block_scheduled store : M S unit).
Proof.
  intros Hstore. unfold block_scheduled.
  apply registered_bind; [apply registered_get|]. intros k.
  apply registered_bind; [apply registered_operation_at|]. intros op.
  apply registered_bind; [by apply registered_update_operation|]. intros _.
  apply registered_update_operations.
Qed.

(** After the caller has blocked, its record is registered. *)
Lemma block_scheduled_Done (store : Operation.t -> Operation.t) k k1 a :
  block_scheduled store k = (k1, Done a) ->
  is_Some (operation_map k1 !! scheduled_op_id k1).
Proof.
  unfold block_scheduled. rewrite (bind_Done get _ k k k) by done.
  destruct (operation_map k !! scheduled_op_id k) as [op|] eqn:Hop.
  - rewrite (bind_Done _ _ k k op) by by apply operation_at_Some.
    erewrite bind_Done by reflexivity. intros [= <- _]. simpl.
    rewrite lookup_alter_eq, Hop. simpl. eauto.
  - by erewrite bind_Raised by by apply operation_at_None.
Qed.

Lemma registered_block_on_resource resource_id k :
  registered k -> is_Some (operation_map k !! scheduled_op_id k) ->
  registered (fst (block_on_resource resource_id k))
  ∧ operation_map (fst (block_on_resource resource_id k)) = operation_map k
  ∧ scheduled_op_id (fst (block_on_resource resource_id k)) = scheduled_op_id k.
Proof.
  intros Hk Hcaller. unfold block_on_resource.
  rewrite (bind_Done get _ k k k) by done.
  destruct (resource_map k !! resource_id) as [blocked|] eqn:Hres; [|done].
  simpl. split; [|done].
  apply registered_resource_insert; [|done]. intros b Hb.
  apply elem_of_union in Hb as [Hb|Hb].
  - apply elem_of_singleton in Hb as ->. done.
  - destruct Hk as [_ Hblocked]. by apply (Hblocked resource_id blocked).
Qed.

Lemma registered_block_on_resources resource_ids k :
  registered k -> is_Some (operation_map k !! scheduled_op_id k) ->
  registered (fst (for_each resource_ids block_on_resource k)).
Proof.
  revert k. induction resource_ids as [|r rest IH]; intros k Hk Hcaller; simpl.
  - done.
  - destruct (registered_block_on_resource r k Hk Hcaller) as (Hk1 & Hmap & Hid).
    apply registered_bind_at; [done|]. intros a k1 Hstep _.
    rewrite Hstep in Hk1, Hmap, Hid. simpl in *.
    apply IH; [done|]. by rewrite Hmap, Hid.
Qed.

Lemma notify_blocked_keeps_registered resource_id blocked_id k b :
  is_Some (operation_map k !! b) ->
  is_Some (operation_map (fst (notify_blocked resource_id blocked_id k)) !! b).
Proof.
  intros Hb. unfold notify_blocked.
  destruct (operation_map k !! blocked_id) as [op|] eqn:Hop.
  - rewrite (bind_Done _ _ k k op) by by apply operation_at_Some.
    destruct (Operation.on_resource_signal resource_id op) as [op' unblocked].
    erewrite bind_Done by reflexivity.
    destruct unblocked; simpl; by apply lookup_alter_is_Some.
  - by erewrite bind_Raised by by apply operation_at_None.
Qed.

Lemma registered_cancel_operation operation_id :
  preserves_registered (cancel_operation operation_id : M S unit).
Proof.
  unfold cancel_operation.
  apply registered_bind; [apply registered_operation_at|]. intros op.
  destruct (decide _); [|apply registered_ret].
  apply registered_bind; [by apply registered_update_operation|].
  intros _. apply registered_update_operations.
Qed.

Lemma registered_collect_join_operations operation_ids joins :
  preserves_registered (collect_join_operations operation_ids joins : M S (list N)).
Proof.
  revert joins. induction operation_ids as [|i rest IH]; intros joins; simpl.
  - apply registered_ret.
  - apply registered_bind; [apply registered_get|]. intros k.
    destruct (operation_map k !! i) as [join_op|]; [|apply registered_throw].
    destruct (decide _); [|apply IH].
    apply registered_bind; [|intros _; apply IH].
    by apply registered_update_operation.
Qed.

(** The end of [detach]: the three containers are cleared. *)
Lemma registered_clear :
  preserves_registered
    (bind (modify (set_operation_map ∅)) (fun _ =>
       bind (update_operations Operations.clear) (fun _ =>
         bind (modify (set_resource_map ∅)) (fun _ =>
           modify (set_pending_start_operation_count 0)))) : M S unit).
Proof. intros k _. split; simpl; intros; simplify_map_eq. Qed.

End KernelRegistered.

(** Composition of the steps that keep the operations registered. *)
Ltac registered_auto :=
  repeat first
    [ apply registered_ret | apply registered_throw | apply registered_suspend
    | apply registered_get | apply registered_operation_at
    | apply registered_check_enabled | apply registered_check_attached
    | apply registered_park | apply registered_operations_insert
    | apply registered_update_operations | apply registered_notify_joiner
    | apply registered_notify_blocked | apply registered_cancel_operation
    | apply registered_collect_join_operations | apply registered_clear
    | apply registered_insert_map | apply registered_create_resource
    | apply registered_delete_resource | apply registered_when
    | (apply registered_block_scheduled; intros ?; reflexivity)
    | (apply registered_for_each; intros ?; cbv beta)
    | (apply registered_modify; [done|done])
    | (apply registered_update_operation; intros ?; reflexivity)
    | match goal with
      | |- preserves_registered (bind _ _) =>
          apply registered_bind; [|intros ?; cbv beta]
      | |- preserves_registered (match ?x with _ => _ end) => destruct x
      end ].

Section KernelReachableRegistered.
Context {S : Type} `{Strategy S}.
Implicit Types (k : SchedulerClient S) (op : Operation.t).

Lemma registered_run_entry (body : M S unit) k :
  preserves_registered body ->
  registered k -> registered (fst (run_entry body k)).
Proof.
  intros Hbody Hk. unfold run_entry. specialize (Hbody k Hk).
  by destruct (body k) as [k1 [a|[e|]|w]].
Qed.

Lemma registered_insert_and_schedule_first operation_id :
  preserves_registered (insert_and_schedule_first operation_id : M S unit).
Proof. unfold insert_and_schedule_first, schedule_first. registered_auto. Qed.

Lemma registered_create_operation_inner operation_id :
  preserves_registered (create_operation_inner operation_id : M S unit).
Proof.
  unfold create_operation_inner.
  repeat first [ apply registered_insert_and_schedule_first
               | progress registered_auto ].
Qed.

Lemma registered_start_operation_inner operation_id :
  preserves_registered (start_operation_inner operation_id : M S unit).
Proof. unfold start_operation_inner. registered_auto. Qed.

Lemma registered_schedule_next_inner :
  preserves_registered (schedule_next_inner : M S unit).
Proof. unfold schedule_next_inner. registered_auto. Qed.

(** The caller blocks on resources after its record was found. *)
Lemma registered_wait (store : Operation.t -> Operation.t) resource_ids :
  (∀ op, Operation.id (store op) = Operation.id op) ->
  preserves_registered
    (bind (block_scheduled store) (fun _ =>
       bind (for_each resource_ids block_on_resource) (fun _ =>
         schedule_next_inner)) : M S unit).
Proof.
  intros Hstore k Hk.
  apply registered_bind_at; [by apply registered_block_scheduled|].
  intros a k1 Hblock Hk1. apply block_scheduled_Done in Hblock.
  apply registered_bind_at; [by apply registered_block_on_resources|].
  intros _ k2 _. apply registered_schedule_next_inner.
Qed.

Lemma registered_signal_resource_operation resource_id operation_id k :
  registered k ->
  registered (fst (signal_resource_operation resource_id operation_id k)).
Proof.
  intros Hk. apply registered_run_entry; [|done]. clear k Hk.
  apply registered_bind; [apply registered_check_enabled|]. intros _.
  apply registered_bind; [apply registered_check_attached|]. intros _.
  intros k Hk. rewrite (bind_Done get _ k k k) by done.
  destruct (resource_map k !! resource_id) as [blocked|] eqn:Hres; [|done].
  destruct (decide _); [|done].
  apply registered_bind_at; [by apply registered_notify_blocked|].
  intros a k1 Hstep Hk1. simpl.
  apply registered_resource_insert; [|done]. intros b Hb.
  apply elem_of_difference in Hb as [Hb _].
  pose proof (notify_blocked_keeps_registered resource_id operation_id k b)
    as Hkeep.
  rewrite Hstep in Hkeep. apply Hkeep.
  destruct Hk as [_ Hblocked]. by apply (Hblocked resource_id blocked).
Qed.

Lemma registered_perform c k : registered k -> registered (perform c k).
Proof.
  intros Hk. destruct c; simpl.
  - unfold attach. rewrite run_block_state. apply registered_run_entry; [|done].
    repeat first [ apply registered_create_operation_inner
                 | apply registered_start_operation_inner
                 | progress registered_auto ].
  - apply registered_run_entry; [|done].
    repeat first [ apply registered_clear | progress registered_auto ].
  - apply registered_run_entry; [|done].
    repeat first [ apply registered_create_operation_inner
                 | progress registered_auto ].
  - apply registered_run_entry; [|done].
    repeat first [ apply registered_start_operation_inner
                 | progress registered_auto ].
  - apply registered_run_entry; [|done].
    repeat first [ apply registered_schedule_next_inner
                 | progress registered_auto ].
  - apply registered_run_entry; [|done].
    repeat first [ apply registered_schedule_next_inner
                 | progress registered_auto ].
  - apply registered_run_entry; [|done].
    repeat first [ apply registered_schedule_next_inner
                 | progress registered_auto ].
  - apply registered_run_entry; [|done]. registered_auto.
  - apply registered_run_entry; [|done].
    apply registered_bind; [apply registered_check_enabled|]. intros _.
    apply registered_bind; [apply registered_check_attached|]. intros _.
    unfold wait_resource.
    pose proof (registered_wait (Operation.wait_resource_signal resource_id)
                  [resource_id]) as Hwait.
    intros k0 Hk0. specialize (Hwait (fun _ => eq_refl) k0 Hk0).
    revert Hwait. unfold bind. simpl.
    destruct (block_scheduled _ k0) as [k1 [a|x|w]]; simpl; [|done..].
    unfold bind. by destruct (block_on_resource resource_id k1) as [k2 [b|x|w]].
  - apply registered_run_entry; [|done].
    apply registered_bind; [apply registered_check_enabled|]. intros _.
    apply registered_bind; [apply registered_check_attached|]. intros _.
    by apply registered_wait.
  - apply registered_run_entry; [|done]. registered_auto.
  - by apply registered_signal_resource_operation.
  - apply registered_run_entry; [|done]. registered_auto.
  - apply registered_run_entry; [|done].
    repeat first [ apply registered_schedule_next_inner
                 | progress registered_auto ].
  - unfold kernel_next_boolean.
    destruct (strategy_next_boolean (strategy k)) as [st b]. done.
  - unfold kernel_next_integer.
    destruct (strategy_next_integer (strategy k) max_value) as [st v]. done.
  - apply registered_run_entry; [|done]. apply registered_schedule_next_inner.
  - rewrite resume_parked_state.
    apply registered_run_entry; [|done]. apply registered_check_attached.
Qed.

(** In every reachable state the records are filed under their own id and
    the operations blocked on a resource are registered. *)
Lemma reachable_registered k : reachable k -> registered k.
Proof.
  induction 1 as [config st|c k Hreach IH].
  - split; simpl; intros; simplify_map_eq.
  - by apply registered_perform.
Qed.

End KernelReachableRegistered.

(** ** Signalling a resource *)

Section EnabledSet.
Implicit Types (ops : Operations.t).

Lemma mem_enable i b ops :
  Operations.mem i (Operations.enable b ops) = Operations.mem i ops.
Proof.
  unfold Operations.mem, Operations.enable, Operations.set_flag.
  induction ops as [|[j flag] rest IH]; simpl; [done|].
  rewrite IH. by destruct (N.eqb j b).
Qed.

Lemma is_enabled_enable_mono i b ops :
  Operations.is_enabled i ops = true ->
  Operations.is_enabled i (Operations.enable b ops) = true.
Proof.
  unfold Operations.is_enabled, Operations.enable, Operations.set_flag.
  induction ops as [|[j flag] rest IH]; simpl; [done|].
  rewrite !orb_true_iff. intros [Hhere|Hrest]; [left|right; by apply IH].
  destruct (N.eqb j b); simpl in *; [|done].
  apply andb_true_iff in Hhere as [-> _]. done.
Qed.

Lemma is_enabled_enable b ops :
  Operations.mem b ops = true ->
  Operations.is_enabled b (Operations.enable b ops) = true.
Proof.
  unfold Operations.mem, Operations.is_enabled, Operations.enable,
    Operations.set_flag.
  induction ops as [|[j flag] rest IH]; simpl; [done|].
  rewrite !orb_true_iff. intros [Hhere|Hrest]; [left|right; by apply IH].
  rewrite Hhere. simpl. by rewrite Hhere.
Qed.

End EnabledSet.

Lemma is_scheduled_on_resource_signal resource_id op :
  Operation.is_scheduled (Operation.on_resource_signal resource_id op).1
  = Operation.is_scheduled op.
Proof.
  unfold Operation.on_resource_signal.
  destruct (Operation.waiting_resources op) as [[ids mode]|]; [|done].
  destruct (Operation.satisfied _ _); simpl; [|done].
  unfold Operation.unblock. simpl. by destruct (Operation.status op).
Qed.

Section KernelSignal.
Context {S : Type} `{Strategy S}.
Implicit Types (k : SchedulerClient S) (op : Operation.t).

Lemma entry_prologue k (body : M S unit) :
  exploration_strategy k = StrategyPCT ->
  is_attached k = true ->
  bind check_enabled (fun _ => bind check_attached (fun _ => body)) k = body k.
Proof. intros Hconfig Hattached. kunfold. by rewrite Hconfig, Hattached. Qed.

(** One turn of the loop over the blocked operations. *)
Lemma notify_blocked_registered resource_id b k op :
  operation_map k !! b = Some op ->
  notify_blocked resource_id b k
  = (let '(op', unblocked) := Operation.on_resource_signal resource_id op in
     set_operations
       (if unblocked then Operations.enable (Operation.id op) (operations k)
        else operations k)
       (set_operation_map (<[b := op']> (operation_map k)) k),
     Done tt).
Proof.
  intros Hop. unfold notify_blocked.
  rewrite (bind_Done _ _ k k op) by by apply operation_at_Some.
  destruct (Operation.on_resource_signal resource_id op) as [op' unblocked].
  erewrite bind_Done by reflexivity. unfold update_operation, modify. simpl.
  assert (alter (fun _ => op') b (operation_map k) = <[b := op']> (operation_map k))
    as ->.
  { apply map_eq. intros i. destruct (decide (i = b)) as [->|Hne].
    - by rewrite lookup_alter_eq, lookup_insert_eq, Hop.
    - by rewrite lookup_alter_ne, lookup_insert_ne. }
  destruct unblocked; simpl; [done|]. by destruct k.
Qed.

(** The effect of the loop of [signal_resource]. *)
Lemma notify_blocked_loop resource_id (l : list N) k :
  NoDup l ->
  (∀ b, b ∈ l -> ∃ op, operation_map k !! b = Some op ∧ Operation.id op = b) ->
  ∃ k',
    for_each l (notify_blocked resource_id) k = (k', Done tt)
    ∧ resource_map k' = resource_map k
    ∧ scheduled_op_id k' = scheduled_op_id k
    ∧ last_error_code k' = last_error_code k
    ∧ (∀ i, i ∉ l -> operation_map k' !! i = operation_map k !! i)
    ∧ (∀ b op, b ∈ l -> operation_map k !! b = Some op ->
         operation_map k' !! b
         = Some (Operation.on_resource_signal resource_id op).1)
    ∧ (∀ i, Operations.mem i (operations k') = Operations.mem i (operations k))
    ∧ (∀ i, Operations.is_enabled i (operations k) = true ->
            Operations.is_enabled i (operations k') = true)
    ∧ (∀ b op, b ∈ l -> operation_map k !! b = Some op ->
         (Operation.on_resource_signal resource_id op).2 = true ->
         Operations.mem b (operations k) = true ->
         Operations.is_enabled b (operations k') = true).
Proof.
  revert k. induction l as [|b rest IH]; intros k Hnodup Hreg.
  - exists k. simpl. repeat split; try done.
    + intros b op Hb. by apply elem_of_nil in Hb.
    + intros b op Hb. by apply elem_of_nil in Hb.
  - apply NoDup_cons in Hnodup as [Hb Hnodup].
    destruct (Hreg b) as (opb & Hopb & Hidb); [apply list_elem_of_here|].
    pose proof (notify_blocked_registered resource_id b k opb Hopb) as Hstep.
    destruct (Operation.on_resource_signal resource_id opb) as [opb' unblocked]
      eqn:Hsignal.
    set (k1 := set_operations
                 (if unblocked
                  then Operations.enable (Operation.id opb) (operations k)
                  else operations k)
                 (set_operation_map (<[b := opb']> (operation_map k)) k)) in *.
    assert (∀ i, i ≠ b -> operation_map k1 !! i = operation_map k !! i)
      as Hother by (intros i Hi; simpl; by rewrite lookup_insert_ne).
    destruct (IH k1 Hnodup) as
      (k' & Hloop & Hres & Hid & Herr & Hout & Hin & Hmem & Hmono & Hwake).
    { intros b' Hb'. rewrite Hother by (intros ->; done).
      apply Hreg. by apply list_elem_of_further. }
    assert (∀ i, Operations.mem i (operations k1) = Operations.mem i (operations k))
      as Hmem1.
    { intros i. simpl. destruct unblocked; [apply mem_enable|done]. }
    assert (∀ i, Operations.is_enabled i (operations k) = true ->
                 Operations.is_enabled i (operations k1) = true) as Hmono1.
    { intros i Hi. simpl.
      destruct unblocked; [by apply is_enabled_enable_mono|done]. }
    exists k'. simpl. rewrite (bind_Done _ _ k k1 tt) by done.
    split; [done|]. split; [done|]. split; [done|]. split; [done|].
    split; [|split; [|split; [|split]]].
    + intros i Hi. apply not_elem_of_cons in Hi as [Hib Hi].
      rewrite Hout by done. by apply Hother.
    + intros b' op Hb' Hop. apply elem_of_cons in Hb' as [->|Hb'].
      * rewrite Hout by done. simpl. rewrite lookup_insert_eq.
        rewrite Hopb in Hop. injection Hop as <-. by rewrite Hsignal.
      * apply Hin; [done|]. rewrite Hother by (intros ->; done). done.
    + intros i. by rewrite Hmem, Hmem1.
    + intros i Hi. by apply Hmono, Hmono1.
    + intros b' op Hb' Hop Hsat Hmember.
      apply elem_of_cons in Hb' as [->|Hb'].
      * apply Hmono. rewrite Hopb in Hop. injection Hop as <-.
        rewrite Hsignal in Hsat. simpl in Hsat. subst unblocked.
        simpl. rewrite Hidb. by apply is_enabled_enable.
      * apply (Hwake b' op); [done| |done|by rewrite Hmem1].
        rewrite Hother by (intros ->; done). done.
Qed.

(** [signal_resource] on an existing resource whose blocked operations are
    registered. *)
Lemma signal_resource_registered k resource_id blocked :
  exploration_strategy k = StrategyPCT ->
  is_attached k = true ->
  resource_map k !! resource_id = Some blocked ->
  (∀ b, b ∈ blocked ->
        ∃ op, operation_map k !! b = Some op ∧ Operation.id op = b) ->
  let k' := fst (signal_resource resource_id k) in
  snd (signal_resource resource_id k) = Returned (last_error_code k)
  ∧ (∀ b op, b ∈ blocked -> operation_map k !! b = Some op ->
       (Operation.on_resource_signal resource_id op).2 = true ->
       Operations.mem b (operations k) = true ->
       Operations.is_enabled b (operations k') = true)
  ∧ resource_map k' !! resource_id = Some ∅
  ∧ scheduled_op_id k' = scheduled_op_id k
  ∧ (∀ i, Operation.is_scheduled <$> operation_map k' !! i
          = Operation.is_scheduled <$> operation_map k !! i).
Proof.
  intros Hconfig Hattached Hres Hreg k'.
  destruct (notify_blocked_loop resource_id (elements blocked) k)
    as (k1 & Hloop & Hres1 & Hid & Herr & Hout & Hin & Hmem & Hmono & Hwake).
  { apply NoDup_elements. }
  { intros b Hb. apply Hreg. by apply elem_of_elements. }
  assert (signal_resource resource_id k
          = (set_resource_map (<[resource_id := ∅]> (resource_map k1)) k1,
             Returned (last_error_code k1))) as Hsignal.
  { unfold signal_resource, run_entry. rewrite entry_prologue by done.
    rewrite (bind_Done get _ k k k) by done. rewrite Hres.
    by rewrite (bind_Done _ _ k k1 tt) by done. }
  subst k'. rewrite Hsignal. simpl.
  split; [by rewrite Herr|]. split; [|split; [|split]].
  - intros b op Hb. apply Hwake. by apply elem_of_elements.
  - by rewrite lookup_insert_eq.
  - done.
  - intros i. destruct (decide (i ∈ blocked)) as [Hi|Hi].
    + destruct (Hreg i Hi) as (op & Hop & _).
      rewrite (Hin i op) by (by try apply elem_of_elements).
      rewrite Hop. simpl. by rewrite is_scheduled_on_resource_signal.
    + rewrite Hout; [done|]. by rewrite elem_of_elements.
Qed.

(** C8: in every reachable state of an attached kernel, [signal_resource] on
    an existing resource throws nothing; every blocked operation whose wait
    is satisfied by the signal ([on_resource_signal] returns true) and that
    is a member of the enabled set is enabled afterwards; the blocked set of
    the resource is empty afterwards; and the token is not passed:
    [scheduled_op_id] and every [is_scheduled] flag are as before. *)
Theorem signal_resource_wakes_and_keeps_token k resource_id blocked :
  reachable k ->
  exploration_strategy k = StrategyPCT ->
  is_attached k = true ->
  resource_map k !! resource_id = Some blocked ->
  let k' := fst (signal_resource resource_id k) in
  snd (signal_resource resource_id k) = Returned (last_error_code k)
  ∧ (∀ b op, b ∈ blocked -> operation_map k !! b = Some op ->
       (Operation.on_resource_signal resource_id op).2 = true ->
       Operations.mem b (operations k) = true ->
       Operations.is_enabled b (operations k') = true)
  ∧ resource_map k' !! resource_id = Some ∅
  ∧ scheduled_op_id k' = scheduled_op_id k
  ∧ (∀ i, Operation.is_scheduled <$> operation_map k' !! i
          = Operation.is_scheduled <$> operation_map k !! i).
Proof.
  intros Hreach Hconfig Hattached Hres.
  apply (signal_resource_registered k resource_id blocked); try done.
  intros b Hb. destruct (reachable_registered k Hreach) as [Hids Hblocked].
  destruct (Hblocked resource_id blocked b Hres Hb) as [op Hop].
  exists op. split; [done|]. by apply Hids.
Qed.

End KernelSignal.

(** ** The kernel theorems on concrete inputs *)

Lemma kernel_after_duplicate_reachable : reachable kernel_after_duplicate.
Proof. apply reachable_run. constructor. Qed.

(** C5 fails as stated for the entry point: after [attach;
    create_operation(7); create_operation(7)] the second call has stored
    [DuplicateOperation] in [last_error_code], which only [attach] resets.
    No operation has the id [8]; [create_operation(8)] throws nothing,
    creates operation [8] and returns [DuplicateOperation]. *)
Lemma create_operation_returns_stored_duplicate :
  reachable kernel_after_duplicate
  ∧ is_attached kernel_after_duplicate = true
  ∧ last_error_code kernel_after_duplicate = DuplicateOperation
  ∧ operation_map kernel_after_duplicate !! 8 = None
  ∧ snd (create_operation_inner 8 kernel_after_duplicate) = Done tt
  ∧ snd (create_operation 8 kernel_after_duplicate) = Returned DuplicateOperation
  ∧ status_of 8 (fst (create_operation 8 kernel_after_duplicate))
    = Some OperationStatus.None
  ∧ ¬ (∀ (k : SchedulerClient (PCTStrategy (list N))) operation_id,
         reachable k ->
         snd (create_operation operation_id k) = Returned DuplicateOperation
         <-> ∃ op, operation_map k !! operation_id = Some op
                   ∧ Operation.status op ≠ OperationStatus.Completed).
Proof.
  assert (operation_map kernel_after_duplicate !! 8 = None) as Hfresh
    by (vm_compute; reflexivity).
  assert (snd (create_operation 8 kernel_after_duplicate)
          = Returned DuplicateOperation) as Hreturn
    by (vm_compute; reflexivity).
  split; [exact kernel_after_duplicate_reachable|].
  split; [vm_compute; reflexivity|]. split; [vm_compute; reflexivity|].
  split; [exact Hfresh|]. split; [vm_compute; reflexivity|].
  split; [exact Hreturn|]. split; [vm_compute; reflexivity|].
  intros Hclaim.
  destruct (proj1 (Hclaim kernel_after_duplicate 8
                     kernel_after_duplicate_reachable) Hreturn)
    as (op & Hop & _).
  rewrite Hfresh in Hop. discriminate Hop.
Qed.

Lemma schedule_next_without_enabled_witness :
  schedule_next_inner kernel_deadlocked
  = (kernel_deadlocked, Raised (Code DeadlockDetected))
  ∧ schedule_next kernel_deadlocked
    = (set_last_error_code DeadlockDetected kernel_deadlocked,
       Returned DeadlockDetected).
Proof.
  assert (exploration_strategy kernel_deadlocked = StrategyPCT) as Hconfig
    by (vm_compute; reflexivity).
  assert (is_attached kernel_deadlocked = true) as Hattached
    by (vm_compute; reflexivity).
  assert (pending_start_operation_count kernel_deadlocked = 0) as Hpending
    by (vm_compute; reflexivity).
  assert (Operations.size true (operations kernel_deadlocked) = 0%nat) as Hsize
    by (vm_compute; reflexivity).
  assert (Nat.ltb 0 (Operations.size false (operations kernel_deadlocked)) = true)
    as Htotal by (vm_compute; reflexivity).
  pose proof (schedule_next_without_enabled kernel_deadlocked
                Hpending Hsize) as Hw.
  cbv zeta in Hw. rewrite Htotal in Hw. destruct Hw as [Hinner Hentry].
  split; [exact Hinner|exact (Hentry Hconfig Hattached)].
Defined.

Example kernel_deadlocked_state :
  last_error_code kernel_deadlocked = DeadlockDetected
  ∧ operations kernel_deadlocked = [(0, false); (1, false)]
  ∧ scheduled_op_id kernel_deadlocked = 1.
Proof. by vm_compute. Qed.

(** Without any member in the enabled set the schedule is finished. *)
Example schedule_next_finished :
  snd (schedule_next (set_is_attached true kernel_new)) = Returned Success.
Proof. by vm_compute. Qed.

Lemma wait_resource_missing_resource_mutates_witness :
  snd (wait_resource 9 kernel_attached) = Returned NotExistingResource
  ∧ status_of 0 (fst (wait_resource 9 kernel_attached))
    = Some OperationStatus.Blocked
  ∧ Operations.is_enabled 0 (operations (fst (wait_resource 9 kernel_attached)))
    = false
  ∧ Operations.is_enabled 0 (operations kernel_attached) = true.
Proof.
  destruct (wait_resource_missing_resource_mutates kernel_attached 9
              (Operation.mk 0 OperationStatus.Enabled true ∅ None None))
    as (Hret & _ & _ & _ & Hdisabled & _).
  - reflexivity.
  - reflexivity.
  - reflexivity.
  - reflexivity.
  - split; [exact Hret|]. split; [|split; [exact Hdisabled|reflexivity]].
    reflexivity.
Defined.

Lemma signal_resource_wakes_and_keeps_token_witness :
  Operations.is_enabled 0 (operations kernel_waiting) = false
  ∧ Operations.is_enabled 0 (operations (fst (signal_resource 5 kernel_waiting)))
    = true
  ∧ resource_map (fst (signal_resource 5 kernel_waiting)) !! 5 = Some ∅
  ∧ scheduled_op_id (fst (signal_resource 5 kernel_waiting)) = 1.
Proof.
  assert (reachable kernel_waiting) as Hreach
    by (apply reachable_run; constructor).
  destruct (signal_resource_wakes_and_keeps_token kernel_waiting 5 {[0]} Hreach)
    as (_ & Hwake & Hempty & Hid & _).
  - reflexivity.
  - reflexivity.
  - reflexivity.
  - split; [reflexivity|]. split; [|split; [exact Hempty|exact Hid]].
    apply (Hwake 0 (Operation.mk 0 OperationStatus.Blocked false ∅ None
                      (Some ({[5]}, All)))).
    + by apply elem_of_singleton.
    + reflexivity.
    + reflexivity.
    + reflexivity.
Defined.

(** * Further properties *)

Section PCTScheduleLength.
Context {G : Type} `{RandomGen G}.

Lemma shuffle_priority_change_points_schedule_length (s : PCTStrategy G) :
  schedule_length (shuffle_priority_change_points s) = schedule_length s.
Proof.
  unfold shuffle_priority_change_points. destruct (N.ltb _ _); [|done].
  by destruct (shuffle_loop _ _ _).
Qed.

(** X1: the schedule length never decreases: no public call of the strategy
    lowers [schedule_length], and [prepare_next_iteration] raises it to the
    number of steps of the iteration that ended when that is larger. *)
Theorem schedule_length_monotone (s : PCTStrategy G) (c : PCTCall) :
  schedule_length s <= schedule_length (pct_perform c s)
  ∧ ∀ iteration, 1 < iteration ->
      schedule_length (prepare_next_iteration s iteration)
      = N.max (schedule_length s) (scheduled_steps s).
Proof.
  split.
  - destruct c as [operations current| |max_value|iteration]; simpl.
    + pose proof (next_operation_change_points s operations current) as Hf.
      injection Hf as _ _ ->. lia.
    + destruct (next_boolean_fields s) as [Hf _]. injection Hf as _ _ ->. lia.
    + destruct (next_integer_fields s max_value) as [Hf _].
      injection Hf as _ _ ->. lia.
    + unfold prepare_next_iteration. destruct (N.ltb 1 iteration); [|lia].
      rewrite shuffle_priority_change_points_schedule_length. simpl.
      destruct (N.ltb_spec (schedule_length s) (scheduled_steps s)); simpl; lia.
  - intros iteration Hiteration. unfold prepare_next_iteration.
    destruct (N.ltb_spec 1 iteration); [|lia].
    rewrite shuffle_priority_change_points_schedule_length. simpl.
    destruct (N.ltb_spec (schedule_length s) (scheduled_steps s)); simpl; lia.
Qed.

End PCTScheduleLength.

Section KernelFurther.
Context {S : Type} `{Strategy S}.
Implicit Types (k : SchedulerClient S).

(** X2: while a created operation has not started, [schedule_next] picks no
    operation: the call waits for the pending starts and leaves the state,
    the token holder included, as it was. *)
Theorem schedule_next_waits_for_pending_starts k :
  exploration_strategy k = StrategyPCT ->
  is_attached k = true ->
  0 < pending_start_operation_count k ->
  schedule_next_inner k = (k, Suspended PendingOperations)
  ∧ schedule_next k = (k, Waiting PendingOperations).
Proof.
  intros Hconfig Hattached Hpending.
  assert (schedule_next_inner k = (k, Suspended PendingOperations)) as Hinner.
  { unfold schedule_next_inner. rewrite (bind_Done get _ k k k) by done.
    by destruct (N.ltb_spec 0 (pending_start_operation_count k)); [|lia]. }
  split; [done|]. unfold schedule_next, run_entry.
  by rewrite entry_prologue, Hinner.
Qed.

(** X3: creating a resource and deleting it again restores the resource table;
    neither call throws. *)
Theorem create_then_delete_resource_restores k resource_id :
  exploration_strategy k = StrategyPCT ->
  is_attached k = true ->
  resource_map k !! resource_id = None ->
  let k1 := fst (create_resource resource_id k) in
  snd (create_resource resource_id k) = Returned (last_error_code k)
  ∧ resource_map k1 !! resource_id = Some ∅
  ∧ snd (delete_resource resource_id k1) = Returned (last_error_code k)
  ∧ resource_map (fst (delete_resource resource_id k1)) = resource_map k.
Proof.
  intros Hconfig Hattached Hres k1.
  assert (create_resource resource_id k
          = (set_resource_map (<[resource_id := ∅]> (resource_map k)) k,
             Returned (last_error_code k))) as Hcreate.
  { unfold create_resource, run_entry. rewrite entry_prologue by done.
    rewrite (bind_Done get _ k k k) by done. by rewrite Hres. }
  subst k1. rewrite Hcreate. simpl.
  split; [done|]. split; [by rewrite lookup_insert_eq|].
  unfold delete_resource, run_entry. rewrite entry_prologue by done.
  erewrite bind_Done by reflexivity. simpl. rewrite lookup_insert_eq. simpl.
  split; [done|]. rewrite delete_insert_eq. by apply delete_id.
Qed.

End KernelFurther.

Lemma schedule_next_waits_for_pending_starts_witness :
  0 < pending_start_operation_count (run [CallCreateOperation 1] kernel_attached)
  ∧ snd (schedule_next (run [CallCreateOperation 1] kernel_attached))
    = Waiting PendingOperations.
Proof.
  assert (0 < pending_start_operation_count
                (run [CallCreateOperation 1] kernel_attached)) as Hpending
    by (vm_compute; reflexivity).
  split; [exact Hpending|].
  destruct (schedule_next_waits_for_pending_starts
              (run [CallCreateOperation 1] kernel_attached)) as [_ ->];
    [reflexivity|reflexivity|exact Hpending|reflexivity].
Defined.

Lemma create_then_delete_resource_restores_witness :
  resource_map
    (fst (delete_resource 5 (fst (create_resource 5 kernel_attached))))
  = resource_map kernel_attached.
Proof.
  apply (create_then_delete_resource_restores kernel_attached 5); reflexivity.
Defined.

(** ** The priority list of the strategy *)

Section PCTPriorities.
Context {G : Type} `{RandomGen G}.
Implicit Types (s : PCTStrategy G).

Lemma NoDup_insert_at index x l :
  x ∉ l -> NoDup l -> NoDup (insert_at index x l).
Proof.
  intros Hx Hl. unfold insert_at.
  rewrite <- (take_drop index l) in Hx, Hl.
  apply NoDup_app in Hl as (Htake & Hdisj & Hdrop).
  apply NoDup_app. split; [done|]. split.
  - intros y Hy [->|Hy']%elem_of_cons.
    + apply Hx, elem_of_app. by left.
    + by apply (Hdisj y).
  - apply NoDup_cons. split; [|done].
    intros Hin. apply Hx, elem_of_app. by right.
Qed.

Lemma assign_priority_distinct s next_op :
  priorities_distinct s -> priorities_distinct (assign_priority s next_op).
Proof.
  intros [Hnodup Hknown]. unfold assign_priority.
  destruct (decide (next_op ∈ known_operations s)) as [|Hnew]; [done|].
  destruct (gen_next (generator s)) as [v g']. split; simpl.
  - apply NoDup_insert_at; [|done]. by rewrite <- Hknown.
  - intros x. rewrite elem_of_insert_at, elem_of_union, elem_of_singleton.
    by rewrite Hknown.
Qed.

Lemma assign_priorities_distinct operations s :
  priorities_distinct s -> priorities_distinct (foldl assign_priority s operations).
Proof.
  revert s. induction operations as [|o rest IH]; intros s Hs; simpl; [done|].
  by apply IH, assign_priority_distinct.
Qed.

Lemma seed_priorities_distinct s current :
  priorities_distinct s -> priorities_distinct (seed_priorities s current).
Proof.
  intros [Hnodup Hknown]. unfold seed_priorities.
  destruct (prioritized_operations s) as [|top rest] eqn:Hprio; simpl.
  - split; simpl.
    + apply NoDup_singleton.
    + intros x. rewrite elem_of_union, elem_of_singleton, Hknown.
      rewrite list_elem_of_singleton, elem_of_nil. naive_solver.
  - unfold priorities_distinct. by rewrite Hprio.
Qed.

Lemma try_deprioritize_distinct s operations :
  priorities_distinct s ->
  priorities_distinct
    (fst (try_deprioritize_operation_with_highest_priority s operations)).
Proof.
  intros [Hnodup Hknown].
  unfold try_deprioritize_operation_with_highest_priority.
  destruct (Nat.leb _ _); [done|].
  destruct (decide _); [|done].
  unfold get_operation_with_highest_priority.
  destruct (scan_priorities _ _) as [op|] eqn:Hscan; [|done].
  apply scan_priorities_Some in Hscan as (_ & pre & post & Hprio & _).
  assert (op ∈ prioritized_operations s) as Hin.
  { rewrite Hprio. apply elem_of_app. right. apply list_elem_of_here. }
  split; simpl.
  - apply NoDup_app. split; [by apply NoDup_filter|]. split.
    + intros x Hx ->%list_elem_of_singleton.
      unfold list_remove in Hx. apply list_elem_of_filter in Hx as [Hne _].
      done.
    + apply NoDup_singleton.
  - intros x. rewrite elem_of_list_remove, Hknown. naive_solver.
Qed.

Lemma next_operation_distinct s operations current :
  priorities_distinct s ->
  priorities_distinct (fst (next_operation s operations current)).
Proof.
  intros Hs. unfold next_operation.
  pose proof (try_deprioritize_distinct
                (set_new_operation_priorities s operations current) operations
                (assign_priorities_distinct operations _
                   (seed_priorities_distinct s current Hs))) as Htry.
  destruct (try_deprioritize_operation_with_highest_priority _ _)
    as [s2 [b|e]]; simpl in *; done.
Qed.

Lemma priorities_distinct_fields s s' :
  priority_fields s' = priority_fields s ->
  priorities_distinct s -> priorities_distinct s'.
Proof.
  unfold priority_fields, priorities_distinct. intros [= -> ->]. done.
Qed.

Lemma prepare_next_iteration_distinct s iteration :
  priorities_distinct s -> priorities_distinct (prepare_next_iteration s iteration).
Proof.
  intros Hs. unfold prepare_next_iteration.
  destruct (N.ltb 1 iteration); [|done].
  eapply priorities_distinct_fields;
    [apply shuffle_priority_change_points_priorities|].
  split; simpl; [apply NoDup_nil_2|]. intros x. set_solver.
Qed.

(** X4: in every state the strategy can reach, the priority list holds no
    operation twice, and [known_operations] is exactly the set of the
    operations in the list. *)
Theorem priorities_are_distinct s :
  pct_reachable s ->
  NoDup (prioritized_operations s)
  ∧ ∀ x, x ∈ known_operations s <-> x ∈ prioritized_operations s.
Proof.
  induction 1 as [g seed bound|c s Hs IH].
  - split; simpl; [apply NoDup_nil_2|]. intros x. set_solver.
  - destruct c as [operations current| |max_value|iteration]; simpl.
    + by apply next_operation_distinct.
    + eapply priorities_distinct_fields; [apply next_boolean_fields|done].
    + eapply priorities_distinct_fields; [apply next_integer_fields|done].
    + by apply prepare_next_iteration_distinct.
Qed.

End PCTPriorities.

Section PCTShuffleCount.
Context {G : Type} `{RandomGen G}.
Implicit Types (s : PCTStrategy G).

Lemma length_iter_swap i j (l : list N) : length (iter_swap i j l) = length l.
Proof.
  unfold iter_swap. destruct (l !! i), (l !! j); [|done..].
  by rewrite !length_insert.
Qed.

Lemma NoDup_iter_swap i j (l : list N) : NoDup l -> NoDup (iter_swap i j l).
Proof.
  intros Hl. unfold iter_swap.
  destruct (l !! i) as [a|] eqn:Hi; [|done].
  destruct (l !! j) as [b|] eqn:Hj; [|done].
  pose proof (lookup_lt_Some _ _ _ Hi) as Hilt.
  pose proof (lookup_lt_Some _ _ _ Hj) as Hjlt.
  assert (∀ n x, <[i := b]> (<[j := a]> l) !! n = Some x ->
            ∃ m, l !! m = Some x
                 ∧ m = (if Nat.eqb n i then j else if Nat.eqb n j then i else n))
    as Hlookup.
  { intros n x Hn.
    destruct (Nat.eqb_spec n i) as [->|Hni].
    - rewrite list_lookup_insert_eq in Hn by (by rewrite length_insert).
      injection Hn as <-. by exists j.
    - rewrite list_lookup_insert_ne in Hn by done.
      destruct (Nat.eqb_spec n j) as [->|Hnj].
      + rewrite list_lookup_insert_eq in Hn by done. injection Hn as <-.
        by exists i.
      + rewrite list_lookup_insert_ne in Hn by done. by exists n. }
  apply NoDup_alt. intros n m x Hn Hm.
  apply Hlookup in Hn as (n' & Hn & ->).
  apply Hlookup in Hm as (m' & Hm & ->).
  pose proof (proj1 (NoDup_alt l) Hl _ _ _ Hn Hm) as Heq.
  destruct (Nat.eqb_spec n i), (Nat.eqb_spec n j), (Nat.eqb_spec m i),
    (Nat.eqb_spec m j); lia.
Qed.

Lemma shuffle_loop_NoDup idx g (range : list N) :
  NoDup range ->
  NoDup (snd (shuffle_loop idx g range))
  ∧ length (snd (shuffle_loop idx g range)) = length range.
Proof.
  revert g range. induction idx as [|idx IH]; intros g range Hrange; simpl.
  - done.
  - destruct (gen_next g) as [v g'].
    destruct (IH g' (iter_swap (S idx)
                       (N.to_nat (v mod N.of_nat (length range))) range)
                (NoDup_iter_swap _ _ _ Hrange)) as [Hnodup Hlen].
    split; [done|]. by rewrite Hlen, length_iter_swap.
Qed.

Lemma build_range_NoDup schedule_len :
  NoDup (build_range schedule_len)
  ∧ length (build_range schedule_len) = (N.to_nat schedule_len - 1)%nat.
Proof.
  unfold build_range. split.
  - apply NoDup_fmap_2; [apply _|apply NoDup_seq].
  - by rewrite length_map, length_seq.
Qed.

Lemma shuffle_priority_change_points_count s :
  priority_change_points s = ∅ ->
  size (priority_change_points (shuffle_priority_change_points s))
  = Nat.min (N.to_nat (max_priority_switches s)) (N.to_nat (schedule_length s) - 1).
Proof.
  intros Hempty.
  destruct (N.ltb_spec 1 (schedule_length s)) as [Hlen|Hlen].
  - rewrite shuffle_priority_change_points_stores_prefix by done.
    destruct (build_range_NoDup (schedule_length s)) as [Hnodup Hrange].
    destruct (shuffle_loop_NoDup
                (length (build_range (schedule_length s)) - 1) (generator s)
                _ Hnodup) as [Hshuffled Hlength].
    rewrite size_list_to_set
      by (eapply sublist_NoDup; [done|apply sublist_take]).
    by rewrite length_take, Hlength, Hrange.
  - unfold shuffle_priority_change_points.
    destruct (N.ltb_spec 1 (schedule_length s)); [lia|].
    rewrite Hempty, size_empty. lia.
Qed.

Lemma shuffle_priority_change_points_steps s :
  scheduled_steps (shuffle_priority_change_points s) = scheduled_steps s
  ∧ schedule_length (shuffle_priority_change_points s) = schedule_length s.
Proof.
  unfold shuffle_priority_change_points. destruct (N.ltb _ _); [|done].
  by destruct (shuffle_loop _ _ _).
Qed.

(** X5: [prepare_next_iteration] with an iteration above [1] starts the
    iteration with no step taken and no priority assigned, with the schedule
    length raised to the steps of the iteration that ended, and with exactly
    [min (max_priority_switches, schedule_length - 1)] change points,
    whatever the generator draws: the shuffled range holds no step twice. *)
Theorem change_points_count s iteration :
  1 < iteration ->
  let s' := prepare_next_iteration s iteration in
  scheduled_steps s' = 0
  ∧ prioritized_operations s' = []
  ∧ schedule_length s' = N.max (schedule_length s) (scheduled_steps s)
  ∧ size (priority_change_points s')
    = Nat.min (N.to_nat (max_priority_switches s))
        (N.to_nat (schedule_length s') - 1).
Proof.
  intros Hiteration s'. subst s'. unfold prepare_next_iteration.
  destruct (N.ltb_spec 1 iteration); [|lia].
  set (s3 := set_change_points _ _).
  pose proof (shuffle_priority_change_points_priorities s3) as Hprio.
  pose proof (shuffle_priority_change_points_count s3 eq_refl) as Hcount.
  assert (schedule_length s3 = N.max (schedule_length s) (scheduled_steps s))
    as Hlength.
  { subst s3. simpl.
    destruct (N.ltb_spec (schedule_length s) (scheduled_steps s)); simpl; lia. }
  assert (max_priority_switches s3 = max_priority_switches s) as Hbound.
  { subst s3. simpl. by destruct (N.ltb _ _). }
  destruct (shuffle_priority_change_points_steps s3) as [Hsteps Hsame].
  injection Hprio as Hlist _.
  rewrite Hsteps, Hlist, Hsame, Hcount, Hlength, Hbound.
  by repeat split.
Qed.

End PCTShuffleCount.

Section PCTChoice.
Context {G : Type} `{RandomGen G}.
Implicit Types (s : PCTStrategy G).

Lemma scan_priorities_head top rest operations :
  top ∈ operations -> scan_priorities (top :: rest) operations = Some top.
Proof.
  intros Htop. simpl.
  destruct (find_enabled top operations) as [o|] eqn:Hfind.
  - by apply find_enabled_Some in Hfind as [-> _].
  - by apply find_enabled_None in Hfind.
Qed.

Lemma scan_priorities_app pre post operations x :
  x ∈ pre -> x ∈ operations ->
  ∃ o, scan_priorities (pre ++ post) operations = Some o ∧ o ∈ pre.
Proof.
  induction pre as [|p pre IH]; intros Hx Hop; [by apply elem_of_nil in Hx|].
  simpl. destruct (find_enabled p operations) as [o|] eqn:Hfind.
  - apply find_enabled_Some in Hfind as [-> _]. exists p.
    split; [done|apply list_elem_of_here].
  - apply elem_of_cons in Hx as [->|Hx].
    + by apply find_enabled_None in Hfind.
    + destruct (IH Hx Hop) as (o & Hscan & Ho). exists o.
      split; [done|by apply list_elem_of_further].
Qed.

Lemma assign_priorities_steps operations s :
  scheduled_steps (foldl assign_priority s operations) = scheduled_steps s.
Proof.
  revert s. induction operations as [|o l IH]; intros s; simpl; [done|].
  rewrite IH. unfold assign_priority. destruct (decide _); [done|].
  by destruct (gen_next _).
Qed.

Lemma set_new_operation_priorities_steps s operations current :
  scheduled_steps (set_new_operation_priorities s operations current)
  = scheduled_steps s.
Proof.
  unfold set_new_operation_priorities. rewrite assign_priorities_steps.
  unfold seed_priorities. by destruct (Nat.eqb _ _).
Qed.

Lemma NoDup_other (operations : list N) top :
  NoDup operations -> (1 < length operations)%nat ->
  ∃ o, o ∈ operations ∧ o ≠ top.
Proof.
  intros Hnodup Hlen.
  destruct operations as [|a [|b l]]; simpl in Hlen; [lia..|].
  apply NoDup_cons in Hnodup as [Hab _].
  destruct (decide (a = top)) as [->|Ha].
  - exists b. split; [apply list_elem_of_further, list_elem_of_here|].
    intros ->. apply Hab, list_elem_of_here.
  - exists a. split; [apply list_elem_of_here|done].
Qed.

(** X6: away from a change point (or with at most one enabled operation)
    the operation at the front of the priority list runs on: when it is
    enabled, [next_operation] returns it, new operations get their priority
    behind it, and it stays at the front. *)
Theorem next_operation_keeps_the_highest_priority s operations current top rest :
  prioritized_operations s = top :: rest ->
  top ∈ operations ->
  (length operations <= 1)%nat ∨ scheduled_steps s ∉ priority_change_points s ->
  ∃ rest',
    next_operation s operations current
    = (incr_scheduled_steps (set_new_operation_priorities s operations current),
       Ok top)
    ∧ prioritized_operations (fst (next_operation s operations current))
      = top :: rest'.
Proof.
  intros Hprio Htop Hquiet.
  assert (seed_priorities s current = s) as Hseed.
  { unfold seed_priorities. by rewrite Hprio. }
  destruct (assign_priorities_head operations s top rest Hprio) as [rest' Hnew].
  exists rest'. unfold next_operation, set_new_operation_priorities.
  rewrite Hseed.
  pose proof (set_new_operation_priorities_change_points s operations current)
    as Hfields.
  unfold set_new_operation_priorities in Hfields. rewrite Hseed in Hfields.
  pose proof (assign_priorities_steps operations s) as Hsteps.
  assert (try_deprioritize_operation_with_highest_priority
            (foldl assign_priority s operations) operations
          = (foldl assign_priority s operations, Ok false)) as ->.
  { unfold try_deprioritize_operation_with_highest_priority.
    destruct (Nat.leb_spec (length operations) 1) as [|Hmany]; [done|].
    injection Hfields as Hpoints _ _. rewrite Hsteps, Hpoints.
    destruct (decide _) as [Hin|]; [|done].
    destruct Hquiet as [|Hnot]; [lia|done]. }
  unfold get_operation_with_highest_priority. simpl. rewrite Hnew.
  by rewrite scan_priorities_head.
Qed.

(** X7: at a change point with more than one enabled operation, the
    enabled operation with the highest priority is moved to the end of the
    priority list and [next_operation] returns another enabled operation. *)
Theorem next_operation_deprioritizes_at_change_point s operations current :
  pct_reachable s ->
  NoDup operations ->
  (1 < length operations)%nat ->
  scheduled_steps s ∈ priority_change_points s ->
  ∃ s' top next_id,
    scan_priorities
      (prioritized_operations (set_new_operation_priorities s operations current))
      operations = Some top
    ∧ next_operation s operations current = (s', Ok next_id)
    ∧ next_id ∈ operations
    ∧ next_id ≠ top
    ∧ last (prioritized_operations s') = Some top.
Proof.
  intros Hreach Hnodup Hlen Hpoint.
  set (s1 := set_new_operation_priorities s operations current).
  destruct (set_new_operation_priorities_known s operations current
              (pct_reachable_known_prioritized s Hreach)) as [_ Hall].
  fold s1 in Hall.
  destruct (NoDup_other operations 0 Hnodup Hlen) as (x & Hx & _).
  destruct (scan_priorities_is_Some (prioritized_operations s1) operations x
              (Hall x Hx) Hx) as [top Htop].
  destruct (NoDup_other operations top Hnodup Hlen) as (o & Ho & Hne).
  assert (o ∈ list_remove top (prioritized_operations s1)) as Hrest.
  { unfold list_remove. apply list_elem_of_filter. split; [done|by apply Hall]. }
  destruct (scan_priorities_app (list_remove top (prioritized_operations s1))
              [top] operations o Hrest Ho) as (next_id & Hscan & Hnext).
  exists (incr_scheduled_steps
            (set_prioritized
               (list_remove top (prioritized_operations s1) ++ [top]) s1)),
    top, next_id.
  split; [done|]. split; [|split; [|split]].
  - unfold next_operation. fold s1.
    unfold try_deprioritize_operation_with_highest_priority.
    destruct (Nat.leb_spec (length operations) 1) as [|_]; [lia|].
    pose proof (set_new_operation_priorities_change_points s operations current)
      as Hfields.
    fold s1 in Hfields. injection Hfields as Hpoints _ _.
    pose proof (set_new_operation_priorities_steps s operations current)
      as Hsteps.
    fold s1 in Hsteps. rewrite <- Hsteps, <- Hpoints in Hpoint.
    destruct (decide _) as [_|]; [|done].
    unfold get_operation_with_highest_priority. rewrite Htop. simpl.
    by rewrite Hscan.
  - by apply scan_priorities_Some in Hscan as [? _].
  - unfold list_remove in Hnext. by apply list_elem_of_filter in Hnext as [? _].
  - simpl. apply last_snoc.
Qed.

End PCTChoice.

(** ** The step counter and the seed *)

Section PCTSteps.
Context {G : Type} `{RandomGen G}.
Implicit Types (s : PCTStrategy G).

Lemma try_deprioritize_steps s operations :
  scheduled_steps
    (fst (try_deprioritize_operation_with_highest_priority s operations))
  = scheduled_steps s.
Proof.
  unfold try_deprioritize_operation_with_highest_priority.
  destruct (Nat.leb _ _); [done|]. destruct (decide _); [|done].
  by destruct (get_operation_with_highest_priority s operations).
Qed.

(** X25: every choice takes one step.  In every state the strategy can
    reach, each public call other than [prepare_next_iteration]
    ([next_operation], also when it throws, [next_boolean] and
    [next_integer]) increments [scheduled_steps] by one, modulo [2^64]. *)
Theorem every_choice_takes_one_step s c :
  pct_reachable s ->
  (∀ iteration, c ≠ PCTPrepareNextIteration iteration) ->
  scheduled_steps (pct_perform c s) = wrap64 (scheduled_steps s + 1).
Proof.
  intros Hreach Hcall.
  destruct c as [operations current| |max_value|iteration]; simpl.
  - unfold next_operation.
    set (s1 := set_new_operation_priorities s operations current).
    pose proof (try_deprioritize_steps s1 operations) as Hsteps.
    assert (scheduled_steps s1 = scheduled_steps s) as Hs1
      by apply set_new_operation_priorities_steps.
    destruct (try_deprioritize_operation_with_highest_priority s1 operations)
      as [s2 [b|e]] eqn:Htry; simpl in *; [congruence|].
    exfalso. unfold try_deprioritize_operation_with_highest_priority in Htry.
    destruct (Nat.leb_spec (length operations) 1) as [|Hlen]; [done|].
    destruct (decide _); [|done].
    destruct operations as [|x rest]; [simpl in Hlen; lia|].
    destruct (set_new_operation_priorities_known s (x :: rest) current
                (pct_reachable_known_prioritized s Hreach)) as [_ Hall].
    destruct (get_operation_with_highest_priority_Ok s1 (x :: rest) x)
      as [op Hop]; [apply Hall|..]; try apply list_elem_of_here.
    by rewrite Hop in Htry.
  - unfold next_boolean. by destruct (gen_next _).
  - unfold next_integer. by destruct (gen_next _).
  - by destruct (Hcall iteration).
Qed.

(** X26: the seed never changes.  No public call assigns [iteration_seed]
    or [max_priority_switches]: [random_seed] returns the seed of the
    constructor in every iteration. *)
Theorem random_seed_never_changes s c :
  random_seed (pct_perform c s) = random_seed s
  ∧ max_priority_switches (pct_perform c s) = max_priority_switches s.
Proof.
  assert (∀ s0 operations,
            iteration_seed (foldl assign_priority s0 operations)
            = iteration_seed s0
            ∧ max_priority_switches (foldl assign_priority s0 operations)
              = max_priority_switches s0) as Hassign.
  { intros s0 operations. revert s0.
    induction operations as [|o rest IH]; intros s0; simpl; [done|].
    destruct (IH (assign_priority s0 o)) as [-> ->].
    unfold assign_priority. destruct (decide _); [done|].
    by destruct (gen_next _). }
  unfold random_seed.
  destruct c as [operations current| |max_value|iteration]; simpl.
  - unfold next_operation, set_new_operation_priorities.
    destruct (Hassign (seed_priorities s current) operations) as [Hseed Hbound].
    assert (iteration_seed (seed_priorities s current) = iteration_seed s
            ∧ max_priority_switches (seed_priorities s current)
              = max_priority_switches s) as [Hseed0 Hbound0].
    { unfold seed_priorities. by destruct (Nat.eqb _ _). }
    unfold try_deprioritize_operation_with_highest_priority.
    destruct (Nat.leb _ _); simpl; [split; congruence|].
    destruct (decide _); simpl; [|split; congruence].
    destruct (get_operation_with_highest_priority _ _); simpl; split; congruence.
  - unfold next_boolean. by destruct (gen_next _).
  - unfold next_integer. by destruct (gen_next _).
  - unfold prepare_next_iteration. destruct (N.ltb 1 iteration); [|done].
    unfold shuffle_priority_change_points. simpl.
    destruct (N.ltb 1 _); [destruct (shuffle_loop _ _ _)|]; simpl;
      by destruct (N.ltb (schedule_length s) (scheduled_steps s)).
Qed.

End PCTSteps.

Lemma every_choice_takes_one_step_witness :
  scheduled_steps (pct_perform PCTNextBoolean pct_example)
  = wrap64 (scheduled_steps pct_example + 1).
Proof.
  apply (every_choice_takes_one_step pct_example PCTNextBoolean
           pct_example_reachable).
  intros iteration. discriminate.
Defined.

(** ** The further properties of the strategy on concrete inputs *)

Lemma pct_scheduled_reachable : pct_reachable pct_scheduled.
Proof. apply pct_reachable_call, pct_example_reachable. Qed.

Lemma pct_at_change_point_reachable : pct_reachable pct_at_change_point.
Proof. do 2 apply pct_reachable_call. apply pct_example_reachable. Qed.

Lemma priorities_are_distinct_witness :
  NoDup (prioritized_operations pct_scheduled)
  ∧ ∀ x, x ∈ known_operations pct_scheduled
         <-> x ∈ prioritized_operations pct_scheduled.
Proof.
  exact (priorities_are_distinct pct_scheduled pct_scheduled_reachable).
Defined.

Example pct_scheduled_state :
  prioritized_operations pct_scheduled = [1; 2]
  ∧ elements (known_operations pct_scheduled) = [2; 1]
  ∧ scheduled_steps pct_scheduled = 1.
Proof. by vm_compute. Qed.

Lemma change_points_count_witness :
  1 < 3
  ∧ size (priority_change_points (prepare_next_iteration pct_example 3)) = 2%nat.
Proof.
  assert (1 < 3) as Hiteration by lia.
  split; [exact Hiteration|].
  destruct (change_points_count pct_example 3 Hiteration) as (_ & _ & _ & Hcount).
  etrans; [exact Hcount|]. vm_compute. reflexivity.
Defined.

Lemma next_operation_keeps_the_highest_priority_witness :
  snd (next_operation pct_scheduled [2; 1] 2) = Ok 1.
Proof.
  assert (prioritized_operations pct_scheduled = [1; 2]) as Hprio
    by (vm_compute; reflexivity).
  assert (scheduled_steps pct_scheduled ∉ priority_change_points pct_scheduled)
    as Hquiet by (apply (bool_decide_unpack _); vm_compute; exact I).
  destruct (next_operation_keeps_the_highest_priority pct_scheduled [2; 1] 2 1 [2]
              Hprio) as (rest' & Hnext & _).
  - apply list_elem_of_further, list_elem_of_here.
  - by right.
  - by rewrite Hnext.
Defined.

Lemma next_operation_deprioritizes_at_change_point_witness :
  scheduled_steps pct_at_change_point ∈ priority_change_points pct_at_change_point
  ∧ ∃ s' top next_id,
      next_operation pct_at_change_point [1; 2] 1 = (s', Ok next_id)
      ∧ next_id ≠ top
      ∧ last (prioritized_operations s') = Some top.
Proof.
  assert (scheduled_steps pct_at_change_point
          ∈ priority_change_points pct_at_change_point) as Hpoint
    by (apply (bool_decide_unpack _); vm_compute; exact I).
  split; [exact Hpoint|].
  destruct (next_operation_deprioritizes_at_change_point
              pct_at_change_point [1; 2] 1 pct_at_change_point_reachable)
    as (s' & top & next_id & _ & Hnext & _ & Hne & Hlast).
  - apply NoDup_cons. split; [|apply NoDup_singleton].
    by intros ?%list_elem_of_singleton.
  - simpl. lia.
  - exact Hpoint.
  - exists s', top, next_id.
    split; [exact Hnext|]. split; [exact Hne|exact Hlast].
Defined.

Example next_operation_at_change_point :
  snd (next_operation pct_at_change_point [1; 2] 1) = Ok 2
  ∧ prioritized_operations (fst (next_operation pct_at_change_point [1; 2] 1))
    = [2; 1].
Proof. by vm_compute. Qed.

(** ** The guards of the entry points *)

Section KernelGuards.
Context {S : Type} `{Strategy S}.
Implicit Types (k : SchedulerClient S).

Lemma entry_disabled (body : M S unit) k :
  exploration_strategy k = StrategyNone ->
  run_entry (bind check_enabled (fun _ => body)) k
  = (set_last_error_code SchedulerDisabled k, Returned SchedulerDisabled).
Proof. intros Hconfig. kunfold. by rewrite Hconfig. Qed.

Lemma entry_detached (body : M S unit) k :
  exploration_strategy k = StrategyPCT ->
  is_attached k = false ->
  run_entry (bind check_enabled (fun _ => bind check_attached (fun _ => body))) k
  = (set_last_error_code ClientNotAttached k, Returned ClientNotAttached).
Proof. intros Hconfig Hattached. kunfold. by rewrite Hconfig, Hattached. Qed.

(** X8: with the exploration strategy [None] the kernel is disabled: every
    entry point stores [SchedulerDisabled] in [last_error_code] and changes
    nothing else, and every entry point that returns a code returns
    [SchedulerDisabled]; [attach], whose code has no [return] statement,
    ends without waiting. *)
Theorem disabled_kernel_rejects_every_call k :
  exploration_strategy k = StrategyNone ->
  let rejected :=
    (set_last_error_code SchedulerDisabled k, Returned SchedulerDisabled) in
  attach k = (set_last_error_code SchedulerDisabled k, None)
  ∧ detach k = rejected
  ∧ schedule_next k = rejected
  ∧ (∀ i, create_operation i k = rejected ∧ start_operation i k = rejected
          ∧ join_operation i k = rejected ∧ complete_operation i k = rejected)
  ∧ (∀ l b, join_operations l b k = rejected ∧ wait_resources l b k = rejected)
  ∧ (∀ r, create_resource r k = rejected ∧ wait_resource r k = rejected
          ∧ signal_resource r k = rejected ∧ delete_resource r k = rejected)
  ∧ (∀ r i, signal_resource_operation r i k = rejected).
Proof.
  intros Hconfig rejected. subst rejected.
  split; [unfold attach, run_block; kunfold; by rewrite Hconfig|].
  repeat (split || intros ?); by apply entry_disabled.
Qed.

(** X9: on a kernel that is not attached, every entry point other than
    [attach] returns [ClientNotAttached] and changes nothing but the stored
    error code. *)
Theorem detached_kernel_rejects_every_call k :
  exploration_strategy k = StrategyPCT ->
  is_attached k = false ->
  let rejected :=
    (set_last_error_code ClientNotAttached k, Returned ClientNotAttached) in
  detach k = rejected
  ∧ schedule_next k = rejected
  ∧ (∀ i, create_operation i k = rejected ∧ start_operation i k = rejected
          ∧ join_operation i k = rejected ∧ complete_operation i k = rejected)
  ∧ (∀ l b, join_operations l b k = rejected ∧ wait_resources l b k = rejected)
  ∧ (∀ r, create_resource r k = rejected ∧ wait_resource r k = rejected
          ∧ signal_resource r k = rejected ∧ delete_resource r k = rejected)
  ∧ (∀ r i, signal_resource_operation r i k = rejected).
Proof.
  intros Hconfig Hattached rejected. subst rejected.
  repeat (split || intros ?); by apply entry_detached.
Qed.

End KernelGuards.

(** ** The members of the enabled set *)

Section EnabledSetMembers.
Implicit Types (ops : Operations.t).

Lemma mem_set_flag i b flag ops :
  Operations.mem i (Operations.set_flag b flag ops) = Operations.mem i ops.
Proof.
  unfold Operations.mem, Operations.set_flag.
  induction ops as [|[j f] rest IH]; simpl; [done|].
  rewrite IH. by destruct (N.eqb j b).
Qed.

Lemma mem_remove i b ops :
  Operations.mem i (Operations.remove b ops) = true ->
  Operations.mem i ops = true.
Proof.
  unfold Operations.mem, Operations.remove.
  induction ops as [|[j f] rest IH]; simpl; [done|].
  destruct (N.eqb j b); simpl; rewrite ?orb_true_iff; naive_solver.
Qed.

Lemma mem_insert i b ops ops' :
  Operations.insert b ops = Ok ops' ->
  Operations.mem i ops' = true -> Operations.mem i ops = true ∨ i = b.
Proof.
  unfold Operations.insert. destruct (Operations.is_enabled b ops); [done|].
  destruct (Operations.mem b ops) eqn:Hmem; intros [= <-].
  - unfold Operations.enable. rewrite mem_set_flag. by left.
  - unfold Operations.mem. rewrite existsb_app, orb_true_iff. simpl.
    rewrite orb_false_r. intros [Hin|Heq]; [by left|right].
    by apply N.eqb_eq in Heq.
Qed.

Lemma mem_view i ops :
  i ∈ Operations.view ops -> Operations.mem i ops = true.
Proof.
  unfold Operations.view, Operations.mem.
  induction ops as [|[j f] rest IH]; simpl; [by intros ?%elem_of_nil|].
  destruct f; simpl.
  - intros [->|Hin]%elem_of_cons; [by rewrite N.eqb_refl|].
    rewrite IH by done. by rewrite orb_true_r.
  - intros Hin. rewrite IH by done. by rewrite orb_true_r.
Qed.

End EnabledSetMembers.

(** ** Registered ids along the code *)

Section KernelSafetyRules.
Context {S : Type} `{Strategy S}.
Implicit Types (k : SchedulerClient S) (op : Operation.t).

Lemma grows_refl k : grows k k.
Proof. by split. Qed.

Lemma grows_trans k1 k2 k3 : grows k1 k2 -> grows k2 k3 -> grows k1 k3.
Proof.
  intros [Herr12 H12] [Herr23 H23]. split; [congruence|].
  intros i Hi. by apply H23, H12.
Qed.

Lemma grows_same k k' :
  operation_map k' = operation_map k ->
  last_error_code k' = last_error_code k -> grows k k'.
Proof. intros Hmap Herr. split; [done|]. intros i. by rewrite Hmap. Qed.

Lemma grows_alter k (f : Operation.t -> Operation.t) i :
  grows k (set_operation_map (alter f i (operation_map k)) k).
Proof. split; [done|]. intros j Hj. simpl. by apply lookup_alter_is_Some. Qed.

Lemma is_Some_map_insert_new (m : gmap N Operation.t) i j :
  is_Some (m !! j) -> is_Some (map_insert_new i m !! j).
Proof.
  intros Hj. unfold map_insert_new. destruct (m !! i) eqn:Hi; [done|].
  destruct (decide (j = i)) as [->|Hne].
  - by rewrite lookup_insert_eq.
  - by rewrite lookup_insert_ne.
Qed.

Lemma is_Some_map_insert_new_eq (m : gmap N Operation.t) i :
  is_Some (map_insert_new i m !! i).
Proof.
  unfold map_insert_new. destruct (m !! i) eqn:Hi; [by rewrite Hi|].
  by rewrite lookup_insert_eq.
Qed.

(** *** The closure under the updates of the kernel *)

Lemma closed_alter m ops res i (f : Operation.t -> Operation.t) :
  (∀ op, m !! i = Some op ->
     Operation.id (f op) = Operation.id op
     ∧ ∀ b, b ∈ Operation.blocked_operation_ids (f op) ->
            b ∈ Operation.blocked_operation_ids op ∨ is_Some (m !! b)) ->
  closed m ops res -> closed (alter f i m) ops res.
Proof.
  intros Hf (Hrec & Hres & Hmem). split; [|split].
  - intros j op'. destruct (decide (j = i)) as [->|Hne].
    + rewrite lookup_alter_eq. destruct (m !! i) as [op|] eqn:Hop; [|done].
      simpl. intros [= <-]. destruct (Hf op eq_refl) as [Hid Hblocked].
      destruct (Hrec i op Hop) as [Hi Hjoin]. split; [congruence|].
      intros b Hb. apply lookup_alter_is_Some.
      destruct (Hblocked b Hb) as [Hold|]; [by apply Hjoin|done].
    + rewrite lookup_alter_ne by done. intros Hop.
      destruct (Hrec j op' Hop) as [Hj Hjoin]. split; [done|].
      intros b Hb. by apply lookup_alter_is_Some, Hjoin.
  - intros r blocked b Hr Hb. by apply lookup_alter_is_Some, (Hres r blocked).
  - intros j Hj. by apply lookup_alter_is_Some, Hmem.
Qed.

Lemma closed_insert_new m ops res i :
  closed m ops res -> closed (map_insert_new i m) ops res.
Proof.
  intros (Hrec & Hres & Hmem). split; [|split].
  - intros j op Hop. apply map_insert_new_lookup in Hop as [Hop|[-> ->]].
    + destruct (Hrec j op Hop) as [Hj Hjoin]. split; [done|].
      intros b Hb. by apply is_Some_map_insert_new, Hjoin.
    + split; [done|]. simpl. intros b Hb. by apply elem_of_empty in Hb.
  - intros r blocked b Hr Hb. by apply is_Some_map_insert_new, (Hres r blocked).
  - intros j Hj. by apply is_Some_map_insert_new, Hmem.
Qed.

Lemma closed_operations m ops ops' res :
  (∀ i, Operations.mem i ops' = true ->
        Operations.mem i ops = true ∨ is_Some (m !! i)) ->
  closed m ops res -> closed m ops' res.
Proof.
  intros Hnew (Hrec & Hres & Hmem). split; [done|]. split; [done|].
  intros i Hi. destruct (Hnew i Hi) as [Hold|]; [by apply Hmem|done].
Qed.

Lemma closed_resources m ops res res' :
  (∀ r blocked b, res' !! r = Some blocked -> b ∈ blocked ->
     (∃ blocked0, res !! r = Some blocked0 ∧ b ∈ blocked0) ∨ is_Some (m !! b)) ->
  closed m ops res -> closed m ops res'.
Proof.
  intros Hnew (Hrec & Hres & Hmem). split; [done|]. split; [|done].
  intros r blocked b Hr Hb.
  destruct (Hnew r blocked b Hr Hb) as [(blocked0 & Hr0 & Hb0)|]; [|done].
  by apply (Hres r blocked0).
Qed.

(** *** Live states under the updates of the kernel *)

Lemma live_same k k' :
  is_attached k' = is_attached k ->
  operation_map k' = operation_map k ->
  operations k' = operations k ->
  resource_map k' = resource_map k ->
  scheduled_op_id k' = scheduled_op_id k ->
  live k -> live k'.
Proof. unfold live. by intros -> -> -> -> ->. Qed.

Lemma live_alter k i (f : Operation.t -> Operation.t) :
  (∀ op, operation_map k !! i = Some op ->
     Operation.id (f op) = Operation.id op
     ∧ ∀ b, b ∈ Operation.blocked_operation_ids (f op) ->
            b ∈ Operation.blocked_operation_ids op
            ∨ is_Some (operation_map k !! b)) ->
  live k -> live (set_operation_map (alter f i (operation_map k)) k).
Proof.
  intros Hf (Hattached & Hsid & Hmain & Hclosed). split; [done|]. simpl.
  split; [by apply lookup_alter_is_Some|].
  split; [by apply lookup_alter_is_Some|]. by apply closed_alter.
Qed.

(** The updates that keep the id and the joiners of a record. *)
Lemma live_update k i (f : Operation.t -> Operation.t) :
  (∀ op, Operation.id (f op) = Operation.id op
         ∧ Operation.blocked_operation_ids (f op)
           = Operation.blocked_operation_ids op) ->
  live k -> live (set_operation_map (alter f i (operation_map k)) k).
Proof.
  intros Hf. apply live_alter. intros op _. destruct (Hf op) as [-> ->].
  split; [done|]. by left.
Qed.

Lemma live_operations k ops' :
  (∀ i, Operations.mem i ops' = true ->
        Operations.mem i (operations k) = true
        ∨ is_Some (operation_map k !! i)) ->
  live k -> live (set_operations ops' k).
Proof.
  intros Hnew (Hattached & Hsid & Hmain & Hclosed). split; [done|]. simpl.
  split; [done|]. split; [done|]. by eapply closed_operations.
Qed.

Lemma live_resources k res' :
  (∀ r blocked b, res' !! r = Some blocked -> b ∈ blocked ->
     (∃ blocked0, resource_map k !! r = Some blocked0 ∧ b ∈ blocked0)
     ∨ is_Some (operation_map k !! b)) ->
  live k -> live (set_resource_map res' k).
Proof.
  intros Hnew (Hattached & Hsid & Hmain & Hclosed). split; [done|]. simpl.
  split; [done|]. split; [done|]. by eapply closed_resources.
Qed.

Lemma live_scheduled k i :
  is_Some (operation_map k !! i) -> live k -> live (set_scheduled_op_id i k).
Proof. intros Hi (Hattached & Hsid & Hmain & Hclosed). by split. Qed.

Lemma live_insert_new k i :
  live k -> live (set_operation_map (map_insert_new i (operation_map k)) k).
Proof.
  intros (Hattached & Hsid & Hmain & Hclosed). split; [done|]. simpl.
  split; [by apply is_Some_map_insert_new|].
  split; [by apply is_Some_map_insert_new|]. by apply closed_insert_new.
Qed.

(** *** The rules of the steps *)

Lemma safe_at_ret {A} (a : A) k : live k -> safe_at (ret a) k.
Proof. intros Hk. split; [done|apply grows_refl]. Qed.

Lemma safe_at_throw {A} e k :
  e ≠ Failure -> live k -> safe_at (throw e : M S A) k.
Proof. intros He Hk. split; [done|]. split; [done|apply grows_refl]. Qed.

Lemma safe_at_suspend {A} w k : live k -> safe_at (suspend w : M S A) k.
Proof. intros Hk. split; [done|apply grows_refl]. Qed.

Lemma safe_at_modify (f : SchedulerClient S -> SchedulerClient S) k :
  live (f k) -> grows k (f k) -> safe_at (modify f) k.
Proof. by split. Qed.

Lemma safe_at_bind {A B} (m : M S A) (f : A -> M S B) k :
  safe_at m k ->
  (∀ a k1, m k = (k1, Done a) -> live k1 -> grows k k1 ->
           safe_at (f a) k1) ->
  safe_at (bind m f) k.
Proof.
  unfold safe_at, bind. intros Hm Hf.
  destruct (m k) as [k1 [a|[e|]|w]] eqn:Hmk; try done.
  destruct Hm as [Hlive Hgrows]. specialize (Hf a k1 eq_refl Hlive Hgrows).
  destruct (f a k1) as [k2 [b|[e|]|w]]; try done.
  - destruct Hf as [? ?]. split; [done|]. by eapply grows_trans.
  - destruct Hf as (? & ? & ?). split; [done|]. split; [done|].
    by eapply grows_trans.
  - destruct Hf as [? ?]. split; [done|]. by eapply grows_trans.
Qed.

Lemma safe_at_get_bind {B} (f : SchedulerClient S -> M S B) k :
  safe_at (f k) k -> safe_at (bind get f) k.
Proof. done. Qed.

Lemma safe_at_modify_bind {B} (g : SchedulerClient S -> SchedulerClient S)
    (f : unit -> M S B) k :
  live (g k) -> grows k (g k) -> safe_at (f tt) (g k) ->
  safe_at (bind (modify g) f) k.
Proof.
  intros Hlive Hgrows Hf. apply safe_at_bind; [by apply safe_at_modify|].
  by intros [] k1 [= <-] _ _.
Qed.

Lemma safe_at_operation_at_bind {B} i (f : Operation.t -> M S B) k op :
  operation_map k !! i = Some op -> live k ->
  safe_at (f op) k -> safe_at (bind (operation_at i) f) k.
Proof.
  intros Hop Hlive Hf. apply safe_at_bind.
  - unfold safe_at. rewrite (operation_at_Some k i op Hop).
    split; [done|apply grows_refl].
  - intros a k1. rewrite (operation_at_Some k i op Hop). by intros [= <- <-] _ _.
Qed.

Lemma safe_bind {A B} (m : M S A) (f : A -> M S B) :
  safe m -> (∀ a, safe (f a)) -> safe (bind m f).
Proof.
  intros Hm Hf k Hk. apply safe_at_bind; [by apply Hm|].
  intros a k1 _ Hk1 _. by apply Hf.
Qed.

Lemma safe_ret {A} (a : A) : safe (ret a : M S A).
Proof. intros k. apply safe_at_ret. Qed.

Lemma safe_throw {A} e : e ≠ Failure -> safe (throw e : M S A).
Proof. intros He k. by apply safe_at_throw. Qed.

Lemma safe_when b (m : M S unit) : safe m -> safe (when b m).
Proof. intros Hm. destruct b; [done|apply safe_ret]. Qed.

Lemma safe_for_each {A} (l : list A) (body : A -> M S unit) :
  (∀ x, safe (body x)) -> safe (for_each l body).
Proof.
  intros Hbody. induction l as [|x rest IH]; simpl; [apply safe_ret|].
  apply safe_bind; [apply Hbody|]. by intros _.
Qed.

(** A loop over ids that are registered when it starts. *)
Lemma safe_at_for_each_registered (l : list N) (body : N -> M S unit) k :
  (∀ x k', is_Some (operation_map k' !! x) -> live k' -> safe_at (body x) k') ->
  (∀ x, x ∈ l -> is_Some (operation_map k !! x)) ->
  live k -> safe_at (for_each l body) k.
Proof.
  intros Hbody. revert k. induction l as [|x rest IH]; intros k Hl Hk; simpl.
  - by apply safe_at_ret.
  - apply safe_at_bind.
    + apply Hbody; [|done]. apply Hl, list_elem_of_here.
    + intros _ k1 _ Hk1 [_ Hgrows]. apply IH; [|done].
      intros y Hy. by apply Hgrows, Hl, list_elem_of_further.
Qed.

Lemma safe_update_operation i (f : Operation.t -> Operation.t) :
  (∀ op, Operation.id (f op) = Operation.id op
         ∧ Operation.blocked_operation_ids (f op)
           = Operation.blocked_operation_ids op) ->
  safe (update_operation i f : M S unit).
Proof.
  intros Hf k Hk. apply safe_at_modify; [by apply live_update|].
  apply grows_alter.
Qed.

Lemma safe_update_operations (f : Operations.t -> Operations.t) :
  (∀ i ops, Operations.mem i (f ops) = true -> Operations.mem i ops = true) ->
  safe (update_operations f : M S unit).
Proof.
  intros Hf k Hk. apply safe_at_modify; [|by apply grows_same].
  apply live_operations; [|done]. intros i Hi. left. by apply Hf.
Qed.

Lemma safe_disable i :
  safe (update_operations (Operations.disable i) : M S unit).
Proof.
  apply safe_update_operations. intros j ops. unfold Operations.disable.
  by rewrite mem_set_flag.
Qed.

Lemma safe_enable i :
  safe (update_operations (Operations.enable i) : M S unit).
Proof.
  apply safe_update_operations. intros j ops. unfold Operations.enable.
  by rewrite mem_set_flag.
Qed.

Lemma safe_remove i :
  safe (update_operations (Operations.remove i) : M S unit).
Proof. apply safe_update_operations. intros j ops. apply mem_remove. Qed.

End KernelSafetyRules.

(** ** [attach] and [detach] *)

Section KernelAttachDetach.
Context {S : Type} `{Strategy S}.
Implicit Types (k : SchedulerClient S) (op : Operation.t).

Lemma create_first_operation i k :
  operation_map k = ∅ ->
  create_operation_inner i k
  = (mkScheduler (exploration_strategy k) (strategy k)
       {[i := Operation.set_is_scheduled true (Operation.new i)]}
       (operations k) (resource_map k) i
       (wrap64 (pending_start_operation_count k + 1)) (is_attached k)
       (iteration_count k) (last_error_code k),
     Done tt).
Proof.
  intros Hmap. destruct k as [cfg st m ops res sid p att it err].
  simpl in Hmap. subst m.
  unfold create_operation_inner, insert_and_schedule_first, schedule_first,
    update_operation, map_insert_new.
  kunfold. simpl. rewrite lookup_empty. simpl.
  rewrite lookup_empty, insert_empty, map_size_singleton. simpl.
  rewrite alter_singleton_eq, lookup_singleton_eq, map_size_singleton. simpl.
  by rewrite alter_singleton_eq.
Qed.

Lemma start_first_operation i k op :
  operation_map k = {[i := op]} ->
  Operation.status op = OperationStatus.None ->
  Operation.is_scheduled op = true ->
  Operation.id op = i ->
  operations k = Operations.empty ->
  start_operation_inner i k
  = (mkScheduler (exploration_strategy k) (strategy k)
       {[i := Operation.set_status OperationStatus.Enabled op]}
       [(i, true)] (resource_map k) (scheduled_op_id k)
       (wrap64 (pending_start_operation_count k + (uint64_modulus - 1)))
       (is_attached k) (iteration_count k) (last_error_code k),
     Done tt).
Proof.
  intros Hmap Hstatus Hscheduled Hid Hops.
  destruct k as [cfg st m ops res sid p att it err].
  simpl in Hmap, Hops. subst m ops.
  unfold start_operation_inner, operations_insert, park, operation_at,
    update_operation.
  kunfold. simpl. rewrite lookup_singleton_eq.
  rewrite Hstatus, Hid. simpl.
  rewrite alter_singleton_eq, lookup_singleton_eq. simpl.
  by rewrite Hscheduled.
Qed.

Lemma attach_idle k :
  exploration_strategy k = StrategyPCT ->
  idle k ->
  attach k = (attached_kernel k, None).
Proof.
  intros Hconfig (Hattached & Hmap & Hops & Hres & Hpending).
  unfold attach, run_block.
  rewrite (bind_Done check_enabled _ k k tt)
    by (unfold check_enabled; kunfold; by rewrite Hconfig).
  rewrite (bind_Done get _ k k k) by done. rewrite Hattached.
  rewrite (bind_Done (modify _) _ k _ tt) by reflexivity.
  rewrite (bind_Done (modify _) _ _ _ tt) by reflexivity.
  rewrite (bind_Done (modify _) _ _ _ tt) by reflexivity.
  erewrite (bind_Done get) by reflexivity.
  set (n := wrap64 (iteration_count k + 1)).
  set (k1 := set_last_error_code _ _).
  assert (∀ st, create_operation_inner main_op_id (set_strategy st k1)
                = (mkScheduler StrategyPCT st
                     {[main_op_id := Operation.set_is_scheduled true
                                        (Operation.new main_op_id)]}
                     Operations.empty ∅ main_op_id 1 true n Success, Done tt))
    as Hcreate.
  { intros st. rewrite create_first_operation by done. subst k1. simpl.
    by rewrite Hconfig, Hops, Hres, Hpending. }
  assert (create_operation_inner main_op_id k1
          = (mkScheduler StrategyPCT (strategy k)
               {[main_op_id := Operation.set_is_scheduled true
                                  (Operation.new main_op_id)]}
               Operations.empty ∅ main_op_id 1 true n Success, Done tt))
    as Hcreate'.
  { rewrite create_first_operation by done. subst k1. simpl.
    by rewrite Hconfig, Hops, Hres, Hpending. }
  unfold attached_kernel. fold n. rewrite Hconfig, Hres.
  change (iteration_count k1) with n.
  destruct (N.ltb 1 n); simpl.
  - rewrite (bind_Done (modify _) _ k1 _ tt) by reflexivity.
    erewrite bind_Done by apply Hcreate.
    by erewrite start_first_operation by done.
  - rewrite (bind_Done (ret tt) _ k1 k1 tt) by reflexivity.
    erewrite bind_Done by apply Hcreate'.
    by erewrite start_first_operation by done.
Qed.


Lemma cancel_operation_registered i k :
  is_Some (operation_map k !! i) ->
  ∃ k', cancel_operation i k = (k', Done tt)
        ∧ kernel_frame k' = kernel_frame k
        ∧ ∀ j, is_Some (operation_map k !! j) -> is_Some (operation_map k' !! j).
Proof.
  intros [op Hop]. unfold cancel_operation.
  rewrite (bind_Done _ _ k k op) by (by apply operation_at_Some).
  destruct (decide _).
  - eexists. split; [reflexivity|]. split; [done|]. simpl.
    intros j Hj. by apply lookup_alter_is_Some.
  - by exists k.
Qed.

Lemma cancel_operations_registered (l : list N) k :
  (∀ i, i ∈ l -> is_Some (operation_map k !! i)) ->
  ∃ k', for_each l cancel_operation k = (k', Done tt)
        ∧ kernel_frame k' = kernel_frame k.
Proof.
  revert k. induction l as [|i rest IH]; intros k Hl; simpl.
  - by exists k.
  - destruct (cancel_operation_registered i k) as (k1 & Hcancel & Hframe1 & Hdom);
      [apply Hl, list_elem_of_here|].
    destruct (IH k1) as (k2 & Hrest & Hframe2).
    { intros j Hj. by apply Hdom, Hl, list_elem_of_further. }
    exists k2. rewrite (bind_Done _ _ k k1 tt) by done.
    split; [done|congruence].
Qed.

Lemma detach_attached k :
  exploration_strategy k = StrategyPCT ->
  is_attached k = true ->
  is_Some (operation_map k !! main_op_id) ->
  detach k = (detached_kernel k, Returned (last_error_code k)).
Proof.
  intros Hconfig Hattached [main_op Hmain].
  unfold detach, run_entry. rewrite entry_prologue by done.
  rewrite (bind_Done (modify _) _ k _ tt) by reflexivity.
  erewrite (bind_Done (operation_at _)) by (by apply operation_at_Some).
  erewrite (bind_Done (update_operation _ _)) by reflexivity.
  erewrite (bind_Done (update_operations _)) by reflexivity.
  erewrite (bind_Done get) by reflexivity.
  set (k1 := set_operations _ _).
  destruct (cancel_operations_registered
              (map fst (map_to_list (operation_map k1))) k1)
    as (k2 & Hloop & Hframe).
  { intros i (entry & -> & Hentry)%list_elem_of_fmap. destruct entry as [j op].
    apply elem_of_map_to_list in Hentry. by exists op. }
  rewrite (bind_Done _ _ k1 k2 tt) by done.
  injection Hframe as Hcfg Hst Hsid Hatt Hit Herr.
  unfold detached_kernel. kunfold. unfold update_operations, modify.
  unfold set_pending_start_operation_count, set_resource_map, set_operations,
    set_operation_map.
  simpl. by rewrite Hcfg, Hst, Hsid, Hatt, Hit, Herr.
Qed.

End KernelAttachDetach.

(** ** The code of the entry points *)

Section KernelSafetyBodies.
Context {S : Type} `{Strategy S}.
Implicit Types (k : SchedulerClient S) (op : Operation.t).

(** The strategy picks one of the enabled operations it is given, and throws
    no [Failure]. *)
Hypothesis strategy_picks_enabled : ∀ (s : S) operations current,
  match strategy_next_operation s operations current with
  | (_, Ok next_id) => next_id ∈ operations
  | (_, Throw e) => e ≠ Failure
  end.

Lemma safe_at_park i k :
  is_Some (operation_map k !! i) -> live k -> safe_at (park i) k.
Proof.
  intros [op Hop] Hk. unfold park.
  eapply safe_at_operation_at_bind; [done..|].
  destruct (Operation.is_scheduled op);
    [by apply safe_at_ret|by apply safe_at_suspend].
Qed.

Lemma safe_at_operations_insert i k :
  is_Some (operation_map k !! i) -> live k -> safe_at (operations_insert i) k.
Proof.
  intros Hi Hk. unfold operations_insert. apply safe_at_get_bind.
  destruct (Operations.insert i (operations k)) as [ops|e] eqn:Hinsert.
  - apply safe_at_modify; [|by apply grows_same].
    apply live_operations; [|done]. intros j Hj.
    destruct (mem_insert j i _ _ Hinsert Hj) as [Hold| ->]; [by left|by right].
  - apply safe_at_throw; [|done]. unfold Operations.insert in Hinsert.
    destruct (Operations.is_enabled _ _); [by injection Hinsert as <-|].
    by destruct (Operations.mem _ _).
Qed.

Lemma safe_insert_and_schedule_first i :
  safe (insert_and_schedule_first i : M S unit).
Proof.
  intros k Hk. unfold insert_and_schedule_first.
  apply safe_at_modify_bind.
  - by apply live_insert_new.
  - split; [done|]. intros j. simpl. apply is_Some_map_insert_new.
  - apply safe_at_get_bind.
    destruct (Nat.eqb _ 1); simpl; [|by apply safe_at_ret, live_insert_new].
    unfold schedule_first. apply safe_at_modify_bind.
    + apply live_scheduled; [|by apply live_insert_new].
      apply is_Some_map_insert_new_eq.
    + by apply grows_same.
    + apply safe_update_operation; [done|].
      apply live_scheduled; [|by apply live_insert_new].
      apply is_Some_map_insert_new_eq.
Qed.

Lemma safe_create_operation_inner i :
  safe (create_operation_inner i : M S unit).
Proof.
  intros k Hk. unfold create_operation_inner. apply safe_at_get_bind.
  apply safe_at_bind.
  - destruct (operation_map k !! i) as [existing_op|].
    + destruct (decide _); [|by apply safe_at_throw].
      by apply safe_update_operation.
    + by apply safe_insert_and_schedule_first.
  - intros _ k1 _ Hk1 _. apply safe_at_bind.
    + by apply safe_insert_and_schedule_first.
    + intros _ k2 _ Hk2 _. apply safe_at_modify; [|by apply grows_same].
      by eapply live_same; [..|exact Hk2].
Qed.

Lemma safe_start_operation_inner i :
  safe (start_operation_inner i : M S unit).
Proof.
  intros k Hk. unfold start_operation_inner. apply safe_at_get_bind.
  destruct (operation_map k !! i) as [op|] eqn:Hop;
    [|by apply safe_at_throw].
  destruct (decide _); [by apply safe_at_throw|].
  destruct (decide _); [by apply safe_at_throw|].
  assert (Operation.id op = i) as Hid.
  { destruct Hk as (_ & _ & _ & Hrec & _). by destruct (Hrec i op Hop). }
  apply safe_at_modify_bind;
    [by eapply live_same; [..|exact Hk]|by apply grows_same|].
  destruct (decide _); [|apply safe_at_ret; by eapply live_same; [..|exact Hk]].
  apply safe_at_bind.
  - apply safe_update_operation; [done|]. by eapply live_same; [..|exact Hk].
  - intros _ k1 _ Hk1 [_ Hgrows1]. rewrite Hid.
    assert (is_Some (operation_map k1 !! i)) as Hi.
    { apply Hgrows1. simpl. by rewrite Hop. }
    apply safe_at_bind; [by apply safe_at_operations_insert|].
    intros _ k2 _ Hk2 [_ Hgrows2]. apply safe_at_park; [|done]. by apply Hgrows2.
Qed.

Lemma safe_block_scheduled (store : Operation.t -> Operation.t) :
  (∀ op, Operation.id (store op) = Operation.id op
         ∧ Operation.blocked_operation_ids (store op)
           = Operation.blocked_operation_ids op) ->
  safe (block_scheduled store : M S unit).
Proof.
  intros Hstore k Hk. unfold block_scheduled. apply safe_at_get_bind.
  destruct Hk as (Hattached & [op Hop] & Hrest).
  eapply safe_at_operation_at_bind; [done..|].
  apply safe_bind; [by apply safe_update_operation| |done].
  intros _. apply safe_disable.
Qed.

Lemma safe_block_on_resource r : safe (block_on_resource r : M S unit).
Proof.
  intros k Hk. unfold block_on_resource. apply safe_at_get_bind.
  destruct (resource_map k !! r) as [blocked|] eqn:Hr;
    [|by apply safe_at_throw].
  apply safe_at_modify; [|by apply grows_same].
  apply live_resources; [|done]. intros r' blocked' b.
  destruct (decide (r' = r)) as [->|Hne].
  - rewrite lookup_insert_eq. intros [= <-] [->%elem_of_singleton|Hb]%elem_of_union.
    + right. by destruct Hk as (_ & ? & _).
    + left. eauto.
  - rewrite lookup_insert_ne by done. intros Hr' Hb. left. eauto.
Qed.

Lemma safe_schedule_next_inner : safe (schedule_next_inner : M S unit).
Proof.
  intros k Hk. unfold schedule_next_inner. apply safe_at_get_bind.
  destruct (N.ltb _ _); [by apply safe_at_suspend|].
  destruct (Nat.eqb _ _).
  { destruct (Nat.ltb _ _); by apply safe_at_throw. }
  pose proof (strategy_picks_enabled (strategy k)
                (Operations.view (operations k)) (scheduled_op_id k)) as Hpick.
  destruct (strategy_next_operation _ _ _) as [st [next_id|e]].
  2:{ apply safe_at_modify_bind;
        [by eapply live_same; [..|exact Hk]|by apply grows_same|].
      apply safe_at_throw; [done|]. by eapply live_same; [..|exact Hk]. }
  assert (live (set_strategy st k)) as Hk1
    by (by eapply live_same; [..|exact Hk]).
  apply safe_at_modify_bind; [done|by apply grows_same|].
  assert (is_Some (operation_map k !! next_id)) as [next_op Hnext].
  { destruct Hk as (_ & _ & _ & _ & _ & Hmem). by apply Hmem, mem_view. }
  eapply safe_at_operation_at_bind; [exact Hnext|done|].
  apply safe_at_modify_bind;
    [apply live_scheduled; [by exists next_op|done]|by apply grows_same|].
  destruct (decide _); [|apply safe_at_ret, live_scheduled; [by exists next_op|done]].
  apply safe_at_bind.
  - apply safe_update_operation; [done|].
    apply live_scheduled; [by exists next_op|done].
  - intros _ k2 _ Hk2 [_ Hgrows2].
    assert (is_Some (operation_map k2 !! scheduled_op_id k)) as [previous_op Hprevious].
    { apply Hgrows2. by destruct Hk as (_ & ? & _). }
    eapply safe_at_operation_at_bind; [exact Hprevious|done|].
    destruct (decide _); [|by apply safe_at_ret].
    apply safe_at_bind; [by apply safe_update_operation|].
    intros _ k3 _ Hk3 [_ Hgrows3]. apply safe_at_park; [|done].
    apply Hgrows3. by rewrite Hprevious.
Qed.

Lemma blocked_on_join_operation i op :
  Operation.blocked_operation_ids (Operation.on_join_operation i op).1
  = Operation.blocked_operation_ids op.
Proof.
  unfold Operation.on_join_operation.
  destruct (Operation.join_target op) as [[ids mode]|]; [|done].
  destruct (Operation.satisfied _ _); simpl; [|done].
  unfold Operation.unblock. simpl. by destruct (Operation.status op).
Qed.

Lemma blocked_on_resource_signal r op :
  Operation.blocked_operation_ids (Operation.on_resource_signal r op).1
  = Operation.blocked_operation_ids op.
Proof.
  unfold Operation.on_resource_signal.
  destruct (Operation.waiting_resources op) as [[ids mode]|]; [|done].
  destruct (Operation.satisfied _ _); simpl; [|done].
  unfold Operation.unblock. simpl. by destruct (Operation.status op).
Qed.

Lemma safe_at_notify_joiner i b k :
  is_Some (operation_map k !! b) -> live k -> safe_at (notify_joiner i b) k.
Proof.
  intros [op Hop] Hk. unfold notify_joiner.
  eapply safe_at_operation_at_bind; [done..|].
  pose proof (id_on_join_operation i op) as Hid.
  pose proof (blocked_on_join_operation i op) as Hblocked.
  destruct (Operation.on_join_operation i op) as [op' unblocked].
  simpl in Hid, Hblocked. apply safe_at_bind.
  - apply safe_at_modify; [|apply grows_alter].
    apply live_alter; [|done]. intros op0. rewrite Hop. intros [= <-].
    rewrite Hid, Hblocked. split; [done|]. by left.
  - intros _ k1 _ Hk1 _. apply safe_when; [apply safe_enable|done].
Qed.

Lemma safe_at_notify_blocked r b k :
  is_Some (operation_map k !! b) -> live k -> safe_at (notify_blocked r b) k.
Proof.
  intros [op Hop] Hk. unfold notify_blocked.
  eapply safe_at_operation_at_bind; [done..|].
  pose proof (id_on_resource_signal r op) as Hid.
  pose proof (blocked_on_resource_signal r op) as Hblocked.
  destruct (Operation.on_resource_signal r op) as [op' unblocked].
  simpl in Hid, Hblocked. apply safe_at_bind.
  - apply safe_at_modify; [|apply grows_alter].
    apply live_alter; [|done]. intros op0. rewrite Hop. intros [= <-].
    rewrite Hid, Hblocked. split; [done|]. by left.
  - intros _ k1 _ Hk1 _. apply safe_when; [apply safe_enable|done].
Qed.

Lemma live_add_joiner k i :
  live k ->
  live (set_operation_map
          (alter (add_joiner (scheduled_op_id k)) i (operation_map k)) k).
Proof.
  intros Hk. apply live_alter; [|done]. intros op _. split; [done|].
  simpl. intros b [->%elem_of_singleton|Hb]%elem_of_union; [right|by left].
  by destruct Hk as (_ & ? & _).
Qed.

Lemma safe_collect_join_operations l acc :
  safe (collect_join_operations l acc : M S (list N)).
Proof.
  revert acc. induction l as [|i rest IH]; intros acc k Hk; simpl.
  - by apply safe_at_ret.
  - apply safe_at_get_bind.
    destruct (operation_map k !! i) as [join_op|]; [|by apply safe_at_throw].
    destruct (decide _); [|by apply IH].
    apply safe_at_bind.
    + apply safe_at_modify; [by apply live_add_joiner|apply grows_alter].
    + intros _ k1 _ Hk1 _. by apply IH.
Qed.

(** *** The entry points on an attached kernel *)

Lemma safe_join_body (store : Operation.t -> Operation.t) :
  (∀ op, Operation.id (store op) = Operation.id op
         ∧ Operation.blocked_operation_ids (store op)
           = Operation.blocked_operation_ids op) ->
  safe (bind (block_scheduled store) (fun _ => schedule_next_inner) : M S unit).
Proof.
  intros Hstore. apply safe_bind; [by apply safe_block_scheduled|].
  intros _. apply safe_schedule_next_inner.
Qed.

Lemma safe_create_operation_body i :
  safe (bind (if N.eqb i main_op_id
              then throw MainOperationExplicitlyCreated else ret tt)
          (fun _ => create_operation_inner i) : M S unit).
Proof.
  apply safe_bind; [|intros _; apply safe_create_operation_inner].
  destruct (N.eqb _ _); [by apply safe_throw|apply safe_ret].
Qed.

Lemma safe_start_operation_body i :
  safe (bind (if N.eqb i main_op_id
              then throw MainOperationExplicitlyStarted else ret tt)
          (fun _ => start_operation_inner i) : M S unit).
Proof.
  apply safe_bind; [|intros _; apply safe_start_operation_inner].
  destruct (N.eqb _ _); [by apply safe_throw|apply safe_ret].
Qed.

Lemma safe_join_operation_body i :
  safe (bind get (fun k0 =>
          match operation_map k0 !! i with
          | None => throw NotExistingOperation
          | Some join_op =>
              if decide (Operation.status join_op ≠ OperationStatus.Completed)
              then
                bind (update_operation i (add_joiner (scheduled_op_id k0)))
                  (fun _ =>
                     bind (block_scheduled (Operation.join_operation i))
                       (fun _ => schedule_next_inner))
              else ret tt
          end) : M S unit).
Proof.
  intros k Hk. apply safe_at_get_bind.
  destruct (operation_map k !! i) as [join_op|]; [|by apply safe_at_throw].
  destruct (decide _); [|by apply safe_at_ret].
  apply safe_at_bind.
  - apply safe_at_modify; [by apply live_add_joiner|apply grows_alter].
  - intros _ k1 _ Hk1 _. by apply safe_join_body.
Qed.

Lemma safe_join_operations_body l wait_all :
  safe (bind (collect_join_operations l [])
          (fun joins =>
             match joins with
             | [] => ret tt
             | _ :: _ =>
                 bind (block_scheduled (Operation.join_operations joins wait_all))
                   (fun _ => schedule_next_inner)
             end) : M S unit).
Proof.
  apply safe_bind; [apply safe_collect_join_operations|].
  intros [|j joins]; [apply safe_ret|]. by apply safe_join_body.
Qed.

Lemma safe_complete_operation_body i :
  safe (bind (if N.eqb i main_op_id
              then throw MainOperationExplicitlyCompleted else ret tt)
          (fun _ => bind get (fun k0 =>
             match operation_map k0 !! i with
             | None => throw NotExistingOperation
             | Some op =>
                 if decide (Operation.status op = OperationStatus.Completed)
                 then throw OperationAlreadyCompleted
                 else if decide (Operation.status op = OperationStatus.None)
                 then throw OperationNotStarted
                 else
                   bind (update_operation i
                           (Operation.set_status OperationStatus.Completed))
                     (fun _ =>
                        bind (update_operations
                                (Operations.remove (Operation.id op)))
                          (fun _ =>
                             bind (for_each
                                     (elements (Operation.blocked_operation_ids op))
                                     (notify_joiner i))
                               (fun _ => schedule_next_inner)))
             end)) : M S unit).
Proof.
  apply safe_bind.
  { destruct (N.eqb _ _); [by apply safe_throw|apply safe_ret]. }
  intros _ k Hk. apply safe_at_get_bind.
  destruct (operation_map k !! i) as [op|] eqn:Hop; [|by apply safe_at_throw].
  destruct (decide _); [by apply safe_at_throw|].
  destruct (decide _); [by apply safe_at_throw|].
  apply safe_at_bind; [by apply safe_update_operation|].
  intros _ k1 _ Hk1 [_ Hgrows1]. apply safe_at_bind; [by apply safe_remove|].
  intros _ k2 _ Hk2 [_ Hgrows2]. apply safe_at_bind.
  - apply safe_at_for_each_registered; [|..|done].
    + intros b k'. apply safe_at_notify_joiner.
    + intros b Hb%elem_of_elements. apply Hgrows2, Hgrows1.
      destruct Hk as (_ & _ & _ & Hrec & _). by apply (Hrec i op Hop).
  - intros _ k3 _ Hk3 _. by apply safe_schedule_next_inner.
Qed.

Lemma safe_resource_shrink r (blocked : gset N) k :
  (∀ b, b ∈ blocked ->
        ∃ blocked0, resource_map k !! r = Some blocked0 ∧ b ∈ blocked0) ->
  live k ->
  safe_at (modify (fun k =>
             set_resource_map (<[r := blocked]> (resource_map k)) k)) k.
Proof.
  intros Hblocked Hk. apply safe_at_modify; [|by apply grows_same].
  apply live_resources; [|done]. intros r' blocked' b.
  destruct (decide (r' = r)) as [->|Hne].
  - rewrite lookup_insert_eq. intros [= <-] Hb. left. by apply Hblocked.
  - rewrite lookup_insert_ne by done. intros Hr' Hb. left. eauto.
Qed.

Lemma safe_create_resource_body r :
  safe (bind get (fun k0 =>
          match resource_map k0 !! r with
          | Some _ => throw DuplicateResource
          | None =>
              modify (fun k =>
                set_resource_map (<[r := ∅]> (resource_map k)) k)
          end) : M S unit).
Proof.
  intros k Hk. apply safe_at_get_bind.
  destruct (resource_map k !! r); [by apply safe_at_throw|].
  apply safe_resource_shrink; [|done]. intros b Hb.
  by apply elem_of_empty in Hb.
Qed.

Lemma safe_wait_resource_body r :
  safe (bind (block_scheduled (Operation.wait_resource_signal r))
          (fun _ => bind (block_on_resource r)
                      (fun _ => schedule_next_inner)) : M S unit).
Proof.
  apply safe_bind; [by apply safe_block_scheduled|]. intros _.
  apply safe_bind; [apply safe_block_on_resource|]. intros _.
  apply safe_schedule_next_inner.
Qed.

Lemma safe_wait_resources_body l wait_all :
  safe (bind (block_scheduled (Operation.wait_resource_signals l wait_all))
          (fun _ => bind (for_each l block_on_resource)
                      (fun _ => schedule_next_inner)) : M S unit).
Proof.
  apply safe_bind; [by apply safe_block_scheduled|]. intros _.
  apply safe_bind; [apply safe_for_each, safe_block_on_resource|]. intros _.
  apply safe_schedule_next_inner.
Qed.

Lemma safe_signal_resource_body r :
  safe (bind get (fun k0 =>
          match resource_map k0 !! r with
          | None => throw NotExistingResource
          | Some blocked_operation_ids =>
              bind (for_each (elements blocked_operation_ids) (notify_blocked r))
                (fun _ =>
                   modify (fun k =>
                     set_resource_map (<[r := ∅]> (resource_map k)) k))
          end) : M S unit).
Proof.
  intros k Hk. apply safe_at_get_bind.
  destruct (resource_map k !! r) as [blocked|] eqn:Hr;
    [|by apply safe_at_throw].
  apply safe_at_bind.
  - apply safe_at_for_each_registered; [|..|done].
    + intros b k'. apply safe_at_notify_blocked.
    + intros b Hb%elem_of_elements.
      destruct Hk as (_ & _ & _ & _ & Hres & _). by apply (Hres r blocked).
  - intros _ k1 _ Hk1 _. apply safe_resource_shrink; [|done]. intros b Hb.
    by apply elem_of_empty in Hb.
Qed.

Lemma safe_signal_resource_operation_body r i :
  safe (bind get (fun k0 =>
          match resource_map k0 !! r with
          | None => throw NotExistingResource
          | Some blocked_operation_ids =>
              if decide (i ∈ blocked_operation_ids) then
                bind (notify_blocked r i)
                  (fun _ =>
                     modify (fun k =>
                       set_resource_map
                         (<[r := blocked_operation_ids ∖ {[i]}]>
                            (resource_map k)) k))
              else ret tt
          end) : M S unit).
Proof.
  intros k Hk. apply safe_at_get_bind.
  destruct (resource_map k !! r) as [blocked|] eqn:Hr;
    [|by apply safe_at_throw].
  destruct (decide _) as [Hi|]; [|by apply safe_at_ret].
  assert (∀ b, b ∈ blocked -> is_Some (operation_map k !! b)) as Hblocked.
  { intros b Hb. destruct Hk as (_ & _ & _ & _ & Hres & _).
    by apply (Hres r blocked). }
  apply safe_at_bind; [apply safe_at_notify_blocked; [by apply Hblocked|done]|].
  intros _ k1 _ Hk1 [_ Hgrows1]. apply safe_at_modify; [|by apply grows_same].
  apply live_resources; [|done]. intros r' blocked' b.
  destruct (decide (r' = r)) as [->|Hne].
  - rewrite lookup_insert_eq. intros [= <-] [Hb _]%elem_of_difference.
    right. by apply Hgrows1, Hblocked.
  - rewrite lookup_insert_ne by done. intros Hr' Hb. left. eauto.
Qed.

Lemma safe_delete_resource_body r :
  safe (bind get (fun k0 =>
          match resource_map k0 !! r with
          | None => throw NotExistingResource
          | Some _ =>
              modify (fun k => set_resource_map (delete r (resource_map k)) k)
          end) : M S unit).
Proof.
  intros k Hk. apply safe_at_get_bind.
  destruct (resource_map k !! r); [|by apply safe_at_throw].
  apply safe_at_modify; [|by apply grows_same].
  apply live_resources; [|done]. intros r' blocked b Hr' Hb.
  apply lookup_delete_Some in Hr' as [_ Hr']. left. eauto.
Qed.

(** *** The entry points on any well-formed kernel *)

Lemma well_formed_last_error_code k e :
  e ≠ Failure -> well_formed k -> well_formed (set_last_error_code e k).
Proof.
  intros He [[Hlive|Hidle] _]; (split; [|done]); [left|right].
  - by eapply live_same; [..|exact Hlive].
  - done.
Qed.

Lemma well_formed_live k k' :
  live k' -> last_error_code k' = last_error_code k ->
  well_formed k -> well_formed k'.
Proof. intros Hlive Herr [_ Hk]. split; [by left|by rewrite Herr]. Qed.

Lemma well_formed_run_entry (body : M S unit) k :
  safe body -> live k ->
  last_error_code k ≠ Failure ->
  well_formed (fst (run_entry body k))
  ∧ snd (run_entry body k) ≠ Returned Failure.
Proof.
  intros Hbody Hlive Herr. specialize (Hbody k Hlive).
  unfold safe_at in Hbody. unfold run_entry.
  destruct (body k) as [k' [[]|[e|]|w]]; try done; simpl.
  - destruct Hbody as [Hk' [Herr' _]]. rewrite Herr'.
    split; [|congruence]. split; [by left|congruence].
  - destruct Hbody as (He & Hk' & _). split; [|congruence].
    split; [left; by eapply live_same; [..|exact Hk']|done].
  - destruct Hbody as [Hk' [Herr' _]]. split; [|done].
    split; [by left|congruence].
Qed.

Lemma well_formed_entry (body : M S unit) k :
  safe body -> well_formed k ->
  let entry :=
    run_entry (bind check_enabled (fun _ => bind check_attached (fun _ => body))) in
  well_formed (fst (entry k)) ∧ snd (entry k) ≠ Returned Failure.
Proof.
  intros Hbody Hk entry. subst entry.
  destruct (exploration_strategy k) eqn:Hconfig.
  { rewrite entry_disabled by done. simpl.
    split; [by apply well_formed_last_error_code|done]. }
  destruct (is_attached k) eqn:Hattached.
  2:{ rewrite entry_detached by done. simpl.
      split; [by apply well_formed_last_error_code|done]. }
  unfold run_entry. rewrite entry_prologue by done.
  destruct Hk as [[Hlive|Hidle] Herr].
  - by apply well_formed_run_entry.
  - destruct Hidle as [Hidle _]. congruence.
Qed.

Lemma well_formed_attach k :
  well_formed k -> well_formed (fst (attach k)).
Proof.
  intros Hk. destruct (exploration_strategy k) eqn:Hconfig.
  { unfold attach. rewrite run_block_state, entry_disabled by done. simpl.
    by apply well_formed_last_error_code. }
  destruct Hk as [[Hlive|Hidle] Herr].
  - assert (fst (attach k) = set_last_error_code ClientAttached k) as ->.
    { destruct Hlive as [Hattached _]. unfold attach, run_block. kunfold.
      by rewrite Hconfig, Hattached. }
    apply well_formed_last_error_code; [done|].
    split; [by left|done].
  - rewrite attach_idle by done. simpl.
    split; [left|done]. split; [done|]. simpl.
    split; [by rewrite lookup_singleton_eq|].
    split; [by rewrite lookup_singleton_eq|].
    destruct Hidle as (_ & _ & _ & Hres & _). rewrite Hres.
    split; [|split].
    + intros i op [<- <-]%lookup_singleton_Some. split; [done|].
      simpl. intros b Hb. by apply elem_of_empty in Hb.
    + intros r blocked b Hr. by rewrite lookup_empty in Hr.
    + intros i Hi. unfold Operations.mem in Hi. cbn [existsb fst] in Hi.
      rewrite orb_false_r in Hi. apply N.eqb_eq in Hi as <-.
      by rewrite lookup_singleton_eq.
Qed.

Lemma well_formed_detach k :
  well_formed k ->
  well_formed (fst (detach k)) ∧ snd (detach k) ≠ Returned Failure.
Proof.
  intros Hk. destruct (exploration_strategy k) eqn:Hconfig.
  { unfold detach. rewrite entry_disabled by done. simpl.
    split; [by apply well_formed_last_error_code|done]. }
  destruct Hk as [[Hlive|Hidle] Herr].
  - destruct Hlive as (Hattached & _ & Hmain & _).
    rewrite detach_attached by done. simpl. split; [|congruence].
    split; [by right|done].
  - destruct Hidle as [Hattached Hidle]. unfold detach.
    rewrite entry_detached by done. simpl. split; [|done].
    apply well_formed_last_error_code; [done|]. split; [by right|done].
Qed.

Lemma well_formed_resume_schedule_next k :
  well_formed k ->
  well_formed (fst (resume_schedule_next k))
  ∧ snd (resume_schedule_next k) ≠ Returned Failure.
Proof.
  intros [[Hlive|Hidle] Herr]; unfold resume_schedule_next.
  - apply well_formed_run_entry; [|done..].
    by apply safe_schedule_next_inner.
  - destruct Hidle as (Hattached & Hmap & Hops & Hres & Hpending).
    assert (schedule_next_inner k = (k, Raised (Code Success))) as Hinner.
    { unfold schedule_next_inner. rewrite (bind_Done get _ k k k) by done.
      by rewrite Hpending, Hops. }
    unfold run_entry. rewrite Hinner. simpl. split; [|done].
    apply well_formed_last_error_code; [done|]. split; [by right|done].
Qed.

Lemma well_formed_resume_parked operation_id k :
  well_formed k ->
  well_formed (fst (resume_parked operation_id k))
  ∧ snd (resume_parked operation_id k) ≠ Returned Failure.
Proof.
  intros Hk. unfold resume_parked. kunfold.
  destruct (is_attached k); simpl.
  - destruct (operation_map k !! operation_id) as [op|]; [|done].
    destruct (Operation.is_scheduled op); [|done]. simpl.
    split; [done|]. destruct Hk as [_ Herr]. congruence.
  - split; [by apply well_formed_last_error_code|done].
Qed.

Lemma well_formed_strategy k st :
  well_formed k -> well_formed (set_strategy st k).
Proof.
  intros [[Hlive|Hidle] Herr]; (split; [|done]); [left|by right].
  by eapply live_same; [..|exact Hlive].
Qed.

Lemma well_formed_perform c k :
  well_formed k ->
  well_formed (perform c k) ∧ reply_of c k ≠ Some (Returned Failure).
Proof.
  intros Hk.
  assert (∀ r : SchedulerClient S * Reply,
            well_formed r.1 ∧ r.2 ≠ Returned Failure ->
            well_formed r.1 ∧ Some r.2 ≠ Some (Returned Failure)) as Hreply.
  { intros r [Hwf Hne]. split; [done|congruence]. }
  destruct c; simpl.
  - split; [by apply well_formed_attach|]. by destruct (snd (attach k)).
  - by apply Hreply, well_formed_detach.
  - apply Hreply, well_formed_entry; [apply safe_create_operation_body|]; done.
  - apply Hreply, well_formed_entry; [apply safe_start_operation_body|]; done.
  - apply Hreply, well_formed_entry; [apply safe_join_operation_body|]; done.
  - apply Hreply, well_formed_entry; [apply safe_join_operations_body|]; done.
  - apply Hreply, well_formed_entry; [apply safe_complete_operation_body|]; done.
  - apply Hreply, well_formed_entry; [apply safe_create_resource_body|]; done.
  - apply Hreply, well_formed_entry; [apply safe_wait_resource_body|]; done.
  - apply Hreply, well_formed_entry; [apply safe_wait_resources_body|]; done.
  - apply Hreply, well_formed_entry; [apply safe_signal_resource_body|]; done.
  - apply Hreply, well_formed_entry;
      [apply safe_signal_resource_operation_body|]; done.
  - apply Hreply, well_formed_entry; [apply safe_delete_resource_body|]; done.
  - apply Hreply, well_formed_entry; [apply safe_schedule_next_inner|]; done.
  - split; [|done]. unfold kernel_next_boolean.
    destruct (strategy_next_boolean _). by apply well_formed_strategy.
  - split; [|done]. unfold kernel_next_integer.
    destruct (strategy_next_integer _ _). by apply well_formed_strategy.
  - by apply Hreply, well_formed_resume_schedule_next.
  - by apply Hreply, well_formed_resume_parked.
Qed.

Lemma reachable_well_formed k : reachable k -> well_formed k.
Proof.
  induction 1 as [config st|c k Hk IH].
  - split; [by right|done].
  - by apply well_formed_perform.
Qed.

End KernelSafetyBodies.

(** ** The kernel with the PCT strategy *)

Section KernelPCT.
Context {G : Type} `{RandomGen G}.
Implicit Types (k : SchedulerClient (PCTStrategy G)).

(** What [next_operation] returns is one of the enabled operations it was
    given; what it throws is [InternalError]. *)
Lemma next_operation_picks_enabled (s : PCTStrategy G) operations current :
  match next_operation s operations current with
  | (_, Ok next_id) => next_id ∈ operations
  | (_, Throw e) => e = InternalError
  end.
Proof.
  unfold next_operation.
  assert (∀ s0 : PCTStrategy G,
            match get_operation_with_highest_priority s0 operations with
            | Ok next_id => next_id ∈ operations
            | Throw e => e = InternalError
            end) as Hget.
  { intros s0. unfold get_operation_with_highest_priority.
    destruct (scan_priorities _ _) as [o|] eqn:Hscan; [|done].
    by apply scan_priorities_Some in Hscan as [? _]. }
  set (s1 := set_new_operation_priorities s operations current).
  unfold try_deprioritize_operation_with_highest_priority.
  destruct (Nat.leb _ _); [apply Hget|].
  destruct (decide _); [|apply Hget].
  pose proof (Hget s1) as Htop.
  destruct (get_operation_with_highest_priority s1 operations); [apply Hget|done].
Qed.

Lemma pct_picks_enabled (s : PCTStrategy G) operations current :
  match strategy_next_operation s operations current with
  | (_, Ok next_id) => next_id ∈ operations
  | (_, Throw e) => e ≠ Failure
  end.
Proof.
  pose proof (next_operation_picks_enabled s operations current) as Hpick.
  simpl. destruct (next_operation s operations current) as [s' [next_id|e]];
    [done|by subst e].
Qed.

Lemma reachable_pct_well_formed k : reachable k -> well_formed k.
Proof. apply reachable_well_formed, pct_picks_enabled. Qed.

Lemma reachable_attached_registered k :
  reachable k -> is_attached k = true ->
  is_Some (operation_map k !! scheduled_op_id k)
  ∧ is_Some (operation_map k !! main_op_id).
Proof.
  intros Hreach Hattached.
  destruct (reachable_pct_well_formed k Hreach) as [[Hlive|Hidle] _].
  - by destruct Hlive as (_ & ? & ? & _).
  - destruct Hidle as [Hidle _]. congruence.
Qed.

Lemma reachable_kernel_closed k :
  reachable k -> closed (operation_map k) (operations k) (resource_map k).
Proof.
  intros Hreach.
  destruct (reachable_pct_well_formed k Hreach) as [[Hlive|Hidle] _].
  - by destruct Hlive as (_ & _ & _ & ?).
  - destruct Hidle as (_ & Hmap & Hops & Hres & _). rewrite Hmap, Hops, Hres.
    split; [|split].
    + intros i op Hop. by rewrite lookup_empty in Hop.
    + intros r blocked b Hr. by rewrite lookup_empty in Hr.
    + done.
Qed.

(** X10: in every kernel state reachable with the PCT strategy, the ids the
    kernel refers to are registered operations: every record is filed under
    its own id, and the joiners of an operation, the operations blocked on a
    resource and the members of the enabled set are in [operation_map];
    while attached, so are the token holder [scheduled_op_id] and the main
    operation; and a kernel that is not attached holds no operation, no
    resource and no pending start. *)
Theorem reachable_kernel_is_closed k :
  reachable k ->
  closed (operation_map k) (operations k) (resource_map k)
  ∧ (is_attached k = true ->
     is_Some (operation_map k !! scheduled_op_id k)
     ∧ is_Some (operation_map k !! main_op_id))
  ∧ (is_attached k = false ->
     operation_map k = ∅ ∧ operations k = Operations.empty
     ∧ resource_map k = ∅ ∧ pending_start_operation_count k = 0).
Proof.
  intros Hreach. split; [by apply reachable_kernel_closed|].
  split; [by apply reachable_attached_registered|]. intros Hattached.
  destruct (reachable_pct_well_formed k Hreach) as [[Hlive|Hidle] _].
  - destruct Hlive as [Hlive _]. congruence.
  - by destruct Hidle as (_ & ? & ? & ? & ?).
Qed.

(** X11: with the PCT strategy no call ever returns [Failure], the code the
    entry points store when an exception other than an error code escapes:
    in every reachable state the stored error code is not [Failure], and no
    entry point called in that state returns it.  No [operation_map.at]
    throws [std::out_of_range]. *)
Theorem no_call_returns_failure k c :
  reachable k ->
  last_error_code k ≠ Failure ∧ reply_of c k ≠ Some (Returned Failure).
Proof.
  intros Hreach. pose proof (reachable_pct_well_formed k Hreach) as Hk.
  split; [by destruct Hk|].
  by apply (well_formed_perform pct_picks_enabled c k).
Qed.

(** X12: [attach] on a reachable kernel that is enabled and not attached
    throws nothing and does not wait; it stores [Success] in
    [last_error_code] and starts the iteration: the iteration count is
    incremented, the strategy is prepared from the second iteration on, and
    the main operation is the only operation, enabled and holding the
    token, with no start pending. *)
Theorem attach_starts_the_main_operation k :
  reachable k ->
  exploration_strategy k = StrategyPCT ->
  is_attached k = false ->
  attach k = (attached_kernel k, None).
Proof.
  intros Hreach Hconfig Hattached. apply attach_idle; [done|].
  destruct (reachable_pct_well_formed k Hreach) as [[Hlive|Hidle] _]; [|done].
  destruct Hlive as [Hlive _]. congruence.
Qed.

(** X13: [detach] on a reachable kernel that is enabled and attached throws
    nothing: it returns the stored error code and leaves a kernel that is
    not attached and holds no operation, no member of the enabled set, no
    resource and no pending start; the strategy, the iteration count and
    [scheduled_op_id] are as before. *)
Theorem detach_clears_the_kernel k :
  reachable k ->
  exploration_strategy k = StrategyPCT ->
  is_attached k = true ->
  detach k = (detached_kernel k, Returned (last_error_code k)).
Proof.
  intros Hreach Hconfig Hattached. apply detach_attached; [done..|].
  destruct (reachable_attached_registered k Hreach Hattached) as [_ Hmain].
  done.
Qed.

End KernelPCT.

(** ** The further properties of the kernel on concrete inputs *)

Lemma disabled_kernel_rejects_every_call_witness :
  exploration_strategy kernel_disabled = StrategyNone
  ∧ fst (attach kernel_disabled)
    = set_last_error_code SchedulerDisabled kernel_disabled
  ∧ detach kernel_disabled
    = (set_last_error_code SchedulerDisabled kernel_disabled,
       Returned SchedulerDisabled)
  ∧ schedule_next kernel_disabled
    = (set_last_error_code SchedulerDisabled kernel_disabled,
       Returned SchedulerDisabled).
Proof.
  assert (exploration_strategy kernel_disabled = StrategyNone) as Hconfig
    by reflexivity.
  split; [exact Hconfig|].
  destruct (disabled_kernel_rejects_every_call kernel_disabled Hconfig)
    as (Hattach & Hdetach & Hnext & _).
  split; [exact (f_equal fst Hattach)|]. split; [exact Hdetach|exact Hnext].
Defined.

Lemma detached_kernel_rejects_every_call_witness :
  is_attached kernel_new = false
  ∧ schedule_next kernel_new
    = (set_last_error_code ClientNotAttached kernel_new,
       Returned ClientNotAttached).
Proof.
  assert (exploration_strategy kernel_new = StrategyPCT) as Hconfig
    by reflexivity.
  assert (is_attached kernel_new = false) as Hattached by reflexivity.
  split; [exact Hattached|].
  by destruct (detached_kernel_rejects_every_call kernel_new Hconfig Hattached)
    as (_ & Hnext & _).
Defined.

Lemma kernel_waiting_reachable : reachable kernel_waiting.
Proof. apply reachable_run. constructor. Qed.

Lemma kernel_detached_reachable : reachable kernel_detached.
Proof. apply reachable_run. constructor. Qed.

Lemma reachable_kernel_is_closed_witness :
  reachable kernel_waiting
  ∧ closed (operation_map kernel_waiting) (operations kernel_waiting)
      (resource_map kernel_waiting)
  ∧ (is_attached kernel_waiting = true ->
     is_Some (operation_map kernel_waiting !! scheduled_op_id kernel_waiting)
     ∧ is_Some (operation_map kernel_waiting !! main_op_id)).
Proof.
  split; [exact kernel_waiting_reachable|].
  destruct (reachable_kernel_is_closed kernel_waiting kernel_waiting_reachable)
    as (Hclosed & Hattached & _).
  split; [exact Hclosed|exact Hattached].
Defined.

Lemma no_call_returns_failure_witness :
  reachable kernel_waiting
  ∧ last_error_code kernel_waiting ≠ Failure
  ∧ reply_of (CallWaitResource 7) kernel_waiting ≠ Some (Returned Failure).
Proof.
  split; [exact kernel_waiting_reachable|].
  exact (no_call_returns_failure kernel_waiting (CallWaitResource 7)
           kernel_waiting_reachable).
Defined.

Lemma attach_starts_the_main_operation_witness :
  is_attached kernel_detached = false
  ∧ attach kernel_detached = (attached_kernel kernel_detached, None).
Proof.
  assert (exploration_strategy kernel_detached = StrategyPCT) as Hconfig
    by (vm_compute; reflexivity).
  assert (is_attached kernel_detached = false) as Hattached
    by (vm_compute; reflexivity).
  split; [exact Hattached|].
  exact (attach_starts_the_main_operation kernel_detached
           kernel_detached_reachable Hconfig Hattached).
Defined.

Example attach_second_iteration :
  iteration_count (fst (attach kernel_detached)) = 2
  ∧ status_of 0 (fst (attach kernel_detached)) = Some OperationStatus.Enabled
  ∧ status_of 1 (fst (attach kernel_detached)) = None
  ∧ scheduled_op_id (fst (attach kernel_detached)) = 0.
Proof. by vm_compute. Qed.

Lemma detach_clears_the_kernel_witness :
  is_attached kernel_waiting = true
  ∧ detach kernel_waiting
    = (detached_kernel kernel_waiting, Returned (last_error_code kernel_waiting)).
Proof.
  assert (exploration_strategy kernel_waiting = StrategyPCT) as Hconfig
    by (vm_compute; reflexivity).
  assert (is_attached kernel_waiting = true) as Hattached
    by (vm_compute; reflexivity).
  split; [exact Hattached|].
  exact (detach_clears_the_kernel kernel_waiting kernel_waiting_reachable
           Hconfig Hattached).
Defined.

(** ** The rejections of the entry points *)

Section KernelRejections.
Context {S : Type} `{Strategy S}.
Implicit Types (k : SchedulerClient S) (op : Operation.t).

Lemma entry_rejects (body : M S unit) k e :
  exploration_strategy k = StrategyPCT ->
  is_attached k = true ->
  body k = (k, Raised (Code e)) ->
  run_entry (bind check_enabled (fun _ => bind check_attached (fun _ => body))) k
  = (set_last_error_code e k, Returned e).
Proof.
  intros Hconfig Hattached Hbody. unfold run_entry.
  by rewrite entry_prologue, Hbody.
Qed.

(** X14: the main operation is created, started and completed by [attach]
    and [detach] only: on an attached kernel [create_operation],
    [start_operation] and [complete_operation] with the id of the main
    operation return [MainOperationExplicitlyCreated],
    [MainOperationExplicitlyStarted] and [MainOperationExplicitlyCompleted],
    and change nothing but the stored error code. *)
Theorem main_operation_is_implicit k :
  exploration_strategy k = StrategyPCT ->
  is_attached k = true ->
  create_operation main_op_id k
  = (set_last_error_code MainOperationExplicitlyCreated k,
     Returned MainOperationExplicitlyCreated)
  ∧ start_operation main_op_id k
    = (set_last_error_code MainOperationExplicitlyStarted k,
       Returned MainOperationExplicitlyStarted)
  ∧ complete_operation main_op_id k
    = (set_last_error_code MainOperationExplicitlyCompleted k,
       Returned MainOperationExplicitlyCompleted).
Proof.
  intros Hconfig Hattached. repeat split; by apply entry_rejects.
Qed.

(** The start of an operation that was created and not started. *)
Lemma start_operation_starts k i op ops :
  exploration_strategy k = StrategyPCT ->
  is_attached k = true ->
  i ≠ main_op_id ->
  operation_map k !! i = Some op ->
  Operation.status op = OperationStatus.None ->
  Operations.insert (Operation.id op) (operations k) = Ok ops ->
  start_operation i k
  = (set_operations ops
       (set_operation_map
          (alter (Operation.set_status OperationStatus.Enabled) i
             (operation_map k))
          (set_pending_start_operation_count
             (wrap64 (pending_start_operation_count k
                      + (uint64_modulus - 1))) k)),
     if Operation.is_scheduled op
     then Returned (last_error_code k) else Waiting (ParkedOn i)).
Proof.
  intros Hconfig Hattached Hmain Hop Hstatus Hinsert.
  unfold start_operation, run_entry. rewrite entry_prologue by done.
  destruct (N.eqb_spec i main_op_id) as [|_]; [done|].
  rewrite (bind_Done (ret tt) _ k k tt) by done.
  unfold start_operation_inner. rewrite (bind_Done get _ k k k) by done.
  rewrite Hop, Hstatus. simpl.
  rewrite (bind_Done (modify _) _ k _ tt) by reflexivity.
  erewrite (bind_Done (update_operation _ _)) by reflexivity.
  unfold operations_insert. erewrite (bind_Done (bind get _)).
  2:{ erewrite (bind_Done get) by reflexivity. simpl. rewrite Hinsert.
      reflexivity. }
  unfold park. erewrite (bind_Done (operation_at _)).
  2:{ apply operation_at_Some. simpl. rewrite lookup_alter_eq, Hop. done. }
  simpl. by destruct (Operation.is_scheduled op).
Qed.

(** X15: the outcomes of [start_operation] on an attached kernel, for an id
    other than the main one.  An id that is not registered gives
    [NotExistingOperation], a completed operation
    [OperationAlreadyCompleted], an enabled or blocked one
    [OperationAlreadyStarted], each with no change but the stored error
    code.  An operation with status [None] is started: the count of pending
    starts is decremented, the status becomes [Enabled], the id joins the
    enabled set, and the call returns if the operation holds the token and
    parks otherwise. *)
Theorem start_operation_outcomes k i :
  exploration_strategy k = StrategyPCT ->
  is_attached k = true ->
  i ≠ main_op_id ->
  match operation_map k !! i with
  | None =>
      start_operation i k
      = (set_last_error_code NotExistingOperation k,
         Returned NotExistingOperation)
  | Some op =>
      match Operation.status op with
      | OperationStatus.Completed =>
          start_operation i k
          = (set_last_error_code OperationAlreadyCompleted k,
             Returned OperationAlreadyCompleted)
      | OperationStatus.Enabled | OperationStatus.Blocked =>
          start_operation i k
          = (set_last_error_code OperationAlreadyStarted k,
             Returned OperationAlreadyStarted)
      | OperationStatus.None =>
          ∀ ops, Operations.insert (Operation.id op) (operations k) = Ok ops ->
            start_operation i k
            = (set_operations ops
                 (set_operation_map
                    (alter (Operation.set_status OperationStatus.Enabled) i
                       (operation_map k))
                    (set_pending_start_operation_count
                       (wrap64 (pending_start_operation_count k
                                + (uint64_modulus - 1))) k)),
               if Operation.is_scheduled op
               then Returned (last_error_code k) else Waiting (ParkedOn i))
      end
  end.
Proof.
  intros Hconfig Hattached Hmain.
  destruct (operation_map k !! i) as [op|] eqn:Hop.
  2:{ unfold start_operation, run_entry. rewrite entry_prologue by done.
      destruct (N.eqb_spec i main_op_id) as [|_]; [done|].
      rewrite (bind_Done (ret tt) _ k k tt) by done.
      unfold start_operation_inner. rewrite (bind_Done get _ k k k) by done.
      by rewrite Hop. }
  destruct (Operation.status op) eqn:Hstatus.
  1:{ intros ops Hinsert. by apply start_operation_starts. }
  all: unfold start_operation, run_entry; rewrite entry_prologue by done;
    destruct (N.eqb_spec i main_op_id) as [|_]; [done|];
    rewrite (bind_Done (ret tt) _ k k tt) by done;
    unfold start_operation_inner; rewrite (bind_Done get _ k k k) by done;
    rewrite Hop, Hstatus; done.
Qed.

(** X16: [complete_operation] rejects an id that is not registered
    ([NotExistingOperation]), an operation that has completed
    ([OperationAlreadyCompleted]) and one that was created but not started
    ([OperationNotStarted]); the state is unchanged but for the stored error
    code. *)
Theorem complete_operation_rejections k i :
  exploration_strategy k = StrategyPCT ->
  is_attached k = true ->
  i ≠ main_op_id ->
  let rejected e := (set_last_error_code e k, Returned e) in
  (operation_map k !! i = None ->
   complete_operation i k = rejected NotExistingOperation)
  ∧ (∀ op, operation_map k !! i = Some op ->
       Operation.status op = OperationStatus.Completed ->
       complete_operation i k = rejected OperationAlreadyCompleted)
  ∧ (∀ op, operation_map k !! i = Some op ->
       Operation.status op = OperationStatus.None ->
       complete_operation i k = rejected OperationNotStarted).
Proof.
  intros Hconfig Hattached Hmain rejected. subst rejected.
  assert (∀ e, (∀ k0, k0 = k ->
                 match operation_map k0 !! i with
                 | None => throw NotExistingOperation
                 | Some op =>
                     if decide (Operation.status op = OperationStatus.Completed)
                     then throw OperationAlreadyCompleted
                     else if decide (Operation.status op = OperationStatus.None)
                     then throw OperationNotStarted
                     else
                       bind (update_operation i
                               (Operation.set_status OperationStatus.Completed))
                         (fun _ =>
                            bind (update_operations
                                    (Operations.remove (Operation.id op)))
                              (fun _ =>
                                 bind (for_each
                                         (elements (Operation.blocked_operation_ids op))
                                         (notify_joiner i))
                                   (fun _ => schedule_next_inner)))
                 end k = (k, Raised (Code e))) ->
               complete_operation i k = (set_last_error_code e k, Returned e))
    as Hentry.
  { intros e Hbody. apply entry_rejects; [done..|].
    destruct (N.eqb_spec i main_op_id) as [|_]; [done|].
    rewrite (bind_Done (ret tt) _ k k tt) by done.
    rewrite (bind_Done get _ k k k) by done. by apply Hbody. }
  split; [|split].
  - intros Hop. apply Hentry. intros k0 ->. by rewrite Hop.
  - intros op Hop Hstatus. apply Hentry. intros k0 ->. rewrite Hop.
    by destruct (decide _).
  - intros op Hop Hstatus. apply Hentry. intros k0 ->. rewrite Hop.
    destruct (decide _) as [Hcompleted|_]; [congruence|].
    by destruct (decide _).
Qed.

(** X17: joining without waiting.  [join_operation] on an id that is not
    registered returns [NotExistingOperation] and changes nothing else; on
    an operation that has completed it returns at once, the state is
    unchanged and the caller keeps the token; so does [join_operations]
    when every target has completed. *)
Theorem join_operation_without_waiting k i :
  exploration_strategy k = StrategyPCT ->
  is_attached k = true ->
  (operation_map k !! i = None ->
   join_operation i k
   = (set_last_error_code NotExistingOperation k,
      Returned NotExistingOperation))
  ∧ (∀ op, operation_map k !! i = Some op ->
       Operation.status op = OperationStatus.Completed ->
       join_operation i k = (k, Returned (last_error_code k)))
  ∧ (∀ l wait_all,
       (∀ j, j ∈ l ->
          ∃ op, operation_map k !! j = Some op
                ∧ Operation.status op = OperationStatus.Completed) ->
       join_operations l wait_all k = (k, Returned (last_error_code k))).
Proof.
  intros Hconfig Hattached. split; [|split].
  - intros Hop. apply entry_rejects; [done..|].
    rewrite (bind_Done get _ k k k) by done. by rewrite Hop.
  - intros op Hop Hstatus. unfold join_operation, run_entry.
    rewrite entry_prologue by done. rewrite (bind_Done get _ k k k) by done.
    rewrite Hop. destruct (decide _) as [Hlive|_]; [congruence|done].
  - intros l wait_all Hl. unfold join_operations, run_entry.
    rewrite entry_prologue by done.
    assert (∀ acc, collect_join_operations l acc k = (k, Done acc)) as Hcollect.
    { induction l as [|j rest IH]; intros acc; simpl; [done|].
      rewrite (bind_Done get _ k k k) by done.
      destruct (Hl j) as (op & -> & Hstatus); [apply list_elem_of_here|].
      destruct (decide _) as [Hlive|_]; [congruence|].
      apply IH. intros j' Hj'. by apply Hl, list_elem_of_further. }
    by rewrite (bind_Done _ _ k k []) by apply Hcollect.
Qed.

(** X18: the errors of the resource table change nothing but the stored
    error code: [create_resource] on an existing id returns
    [DuplicateResource]; [delete_resource], [signal_resource] and
    [signal_resource(resource_id, operation_id)] on a missing id return
    [NotExistingResource]. *)
Theorem resource_errors_change_nothing k r :
  exploration_strategy k = StrategyPCT ->
  is_attached k = true ->
  (is_Some (resource_map k !! r) ->
   create_resource r k
   = (set_last_error_code DuplicateResource k, Returned DuplicateResource))
  ∧ (resource_map k !! r = None ->
     let rejected :=
       (set_last_error_code NotExistingResource k,
        Returned NotExistingResource) in
     delete_resource r k = rejected
     ∧ signal_resource r k = rejected
     ∧ ∀ i, signal_resource_operation r i k = rejected).
Proof.
  intros Hconfig Hattached. split.
  - intros [blocked Hr]. apply entry_rejects; [done..|].
    rewrite (bind_Done get _ k k k) by done. by rewrite Hr.
  - intros Hr rejected. subst rejected.
    repeat (split || intros ?); (apply entry_rejects; [done..|]);
      rewrite (bind_Done get _ k k k) by done; by rewrite Hr.
Qed.

End KernelRejections.

(** ** Error paths that change the state *)

Section KernelPartial.
Context {S : Type} `{Strategy S}.
Implicit Types (k : SchedulerClient S) (op : Operation.t).

(** X19: [signal_resource(resource_id, operation_id)] wakes one operation.
    When the operation is not blocked on the resource nothing changes; when
    it is, its record takes the signal, it is enabled if its wait is
    satisfied, and it alone leaves the blocked set of the resource; no other
    record, no other resource and no token changes. *)
Theorem signal_resource_operation_wakes_one k r i blocked :
  exploration_strategy k = StrategyPCT ->
  is_attached k = true ->
  resource_map k !! r = Some blocked ->
  (i ∉ blocked ->
   signal_resource_operation r i k = (k, Returned (last_error_code k)))
  ∧ (∀ op, i ∈ blocked -> operation_map k !! i = Some op ->
       signal_resource_operation r i k
       = (let '(op', unblocked) := Operation.on_resource_signal r op in
          set_resource_map (<[r := blocked ∖ {[i]}]> (resource_map k))
            (set_operations
               (if unblocked
                then Operations.enable (Operation.id op) (operations k)
                else operations k)
               (set_operation_map (<[i := op']> (operation_map k)) k)),
          Returned (last_error_code k))).
Proof.
  intros Hconfig Hattached Hr. split.
  - intros Hi. unfold signal_resource_operation, run_entry.
    rewrite entry_prologue by done. rewrite (bind_Done get _ k k k) by done.
    rewrite Hr. by destruct (decide _).
  - intros op Hi Hop. unfold signal_resource_operation, run_entry.
    rewrite entry_prologue by done. rewrite (bind_Done get _ k k k) by done.
    rewrite Hr. destruct (decide _) as [_|]; [|done].
    erewrite bind_Done by (by apply notify_blocked_registered).
    by destruct (Operation.on_resource_signal r op) as [op' []].
Qed.

Lemma for_each_app {A} (l1 l2 : list A) (body : A -> M S unit) k :
  for_each (l1 ++ l2) body k
  = bind (for_each l1 body) (fun _ => for_each l2 body) k.
Proof.
  revert k. induction l1 as [|x l1 IH]; intros k; simpl; [done|].
  unfold bind. destruct (body x k) as [k1 [[]|x0|w]]; [|done..].
  rewrite IH. done.
Qed.

Lemma block_on_resource_existing r k blocked :
  resource_map k !! r = Some blocked ->
  block_on_resource r k
  = (set_resource_map
       (<[r := {[scheduled_op_id k]} ∪ blocked]> (resource_map k)) k, Done tt).
Proof.
  intros Hr. unfold block_on_resource. rewrite (bind_Done get _ k k k) by done.
  by rewrite Hr.
Qed.

Lemma block_on_resources_existing (l : list N) k :
  (∀ r, r ∈ l -> is_Some (resource_map k !! r)) ->
  ∃ res,
    for_each l block_on_resource k = (set_resource_map res k, Done tt)
    ∧ (∀ r, r ∉ l -> res !! r = resource_map k !! r)
    ∧ (∀ r blocked, r ∈ l -> resource_map k !! r = Some blocked ->
         res !! r = Some ({[scheduled_op_id k]} ∪ blocked)).
Proof.
  revert k. induction l as [|r rest IH]; intros k Hl; simpl.
  - exists (resource_map k). split; [by destruct k|]. split; [done|].
    intros r blocked Hr. by apply elem_of_nil in Hr.
  - destruct (Hl r) as [blocked Hr]; [apply list_elem_of_here|].
    rewrite (bind_Done _ _ k _ tt (block_on_resource_existing r k blocked Hr)).
    set (k1 := set_resource_map _ k).
    destruct (IH k1) as (res & Hloop & Hout & Hin).
    { intros r' Hr'. subst k1. simpl.
      destruct (decide (r' = r)) as [->|Hne].
      - by rewrite lookup_insert_eq.
      - rewrite lookup_insert_ne by done. by apply Hl, list_elem_of_further. }
    exists res. split; [by rewrite Hloop|]. split.
    + intros r' [Hne Hr']%not_elem_of_cons. rewrite Hout by done.
      subst k1. simpl. by rewrite lookup_insert_ne.
    + intros r' blocked' Hr' Hblocked'.
      destruct (decide (r' ∈ rest)) as [Hrest|Hrest].
      * destruct (decide (r' = r)) as [->|Hne].
        -- rewrite (Hin r ({[scheduled_op_id k]} ∪ blocked) Hrest)
             by (subst k1; simpl; by rewrite lookup_insert_eq).
           subst k1. simpl. f_equal. rewrite Hr in Hblocked'.
           injection Hblocked' as <-. set_solver.
        -- rewrite (Hin r' blocked' Hrest)
             by (subst k1; simpl; by rewrite lookup_insert_ne).
           done.
      * apply elem_of_cons in Hr' as [->|Hr']; [|done].
        rewrite Hout by done. subst k1. simpl. rewrite lookup_insert_eq.
        by rewrite Hr in Hblocked'; injection Hblocked' as <-.
Qed.

(** X20: [wait_resources] is not atomic on its error path.  When the list
    names a resource that does not exist, the call returns
    [NotExistingResource] after it has stored the wait on the caller's
    record, disabled the caller, and added the caller to the blocked set of
    every resource listed before the missing one. *)
Theorem wait_resources_missing_resource_mutates k pre r post wait_all op :
  exploration_strategy k = StrategyPCT ->
  is_attached k = true ->
  operation_map k !! scheduled_op_id k = Some op ->
  (∀ r', r' ∈ pre -> is_Some (resource_map k !! r')) ->
  resource_map k !! r = None ->
  let ids := pre ++ r :: post in
  let k' := fst (wait_resources ids wait_all k) in
  snd (wait_resources ids wait_all k) = Returned NotExistingResource
  ∧ operation_map k'
    = alter (Operation.wait_resource_signals ids wait_all) (scheduled_op_id k)
        (operation_map k)
  ∧ operations k' = Operations.disable (Operation.id op) (operations k)
  ∧ (∀ r' blocked, r' ∈ pre -> resource_map k !! r' = Some blocked ->
       resource_map k' !! r' = Some ({[scheduled_op_id k]} ∪ blocked))
  ∧ (∀ r', r' ∉ pre -> resource_map k' !! r' = resource_map k !! r').
Proof.
  intros Hconfig Hattached Hop Hpre Hr ids k'.
  set (k1 := set_operations
               (Operations.disable (Operation.id op) (operations k))
               (set_operation_map
                  (alter (Operation.wait_resource_signals ids wait_all)
                     (scheduled_op_id k) (operation_map k)) k)).
  assert (block_scheduled (Operation.wait_resource_signals ids wait_all) k
          = (k1, Done tt)) as Hblock.
  { unfold block_scheduled. rewrite (bind_Done get _ k k k) by done.
    by rewrite (bind_Done _ _ k k op) by (by apply operation_at_Some). }
  destruct (block_on_resources_existing pre k1) as (res & Hloop & Hout & Hin);
    [done|].
  assert (wait_resources ids wait_all k
          = (set_last_error_code NotExistingResource (set_resource_map res k1),
             Returned NotExistingResource)) as Hwait.
  { unfold wait_resources, run_entry. rewrite entry_prologue by done.
    rewrite (bind_Done _ _ k k1 tt Hblock).
    assert (for_each ids block_on_resource k1
            = (set_resource_map res k1, Raised (Code NotExistingResource)))
      as Hfail.
    { subst ids. rewrite for_each_app.
      rewrite (bind_Done _ _ k1 _ tt Hloop). simpl.
      assert (res !! r = None) as Hmissing.
      { rewrite Hout; [exact Hr|]. intros Hin'.
        destruct (Hpre r Hin') as [blocked Hblocked]. congruence. }
      apply bind_Raised. unfold block_on_resource.
      erewrite (bind_Done get) by reflexivity. simpl. by rewrite Hmissing. }
    by rewrite (bind_Raised _ _ k1 _ _ Hfail). }
  subst k'. rewrite Hwait. simpl. by repeat split.
Qed.

Lemma add_joiner_idempotent joiner op :
  add_joiner joiner (add_joiner joiner op) = add_joiner joiner op.
Proof.
  unfold add_joiner, Operation.set_blocked_operation_ids. simpl. f_equal.
  set_solver.
Qed.

(** The loop of [join_operations] over targets that are registered. *)
Lemma collect_join_operations_registered (pre rest acc : list N) k :
  (∀ a, a ∈ pre -> is_Some (operation_map k !! a)) ->
  ∃ m acc',
    collect_join_operations (pre ++ rest) acc k
    = collect_join_operations rest acc' (set_operation_map m k)
    ∧ (∀ a, m !! a
            = (fun opa =>
                 if decide (a ∈ pre
                            ∧ Operation.status opa ≠ OperationStatus.Completed)
                 then add_joiner (scheduled_op_id k) opa else opa)
              <$> operation_map k !! a).
Proof.
  revert acc k. induction pre as [|a pre IH]; intros acc k Hpre.
  - exists (operation_map k), acc. split; [by destruct k|].
    intros a. by destruct (operation_map k !! a) as [opa|].
  - destruct (Hpre a) as [opa Hopa]; [apply list_elem_of_here|].
    assert (∀ a', a' ∈ pre -> is_Some (operation_map k !! a')) as Hrest
      by (intros a' Ha'; by apply Hpre, list_elem_of_further).
    simpl. rewrite (bind_Done get _ k k k) by done. rewrite Hopa.
    destruct (decide (Operation.status opa ≠ OperationStatus.Completed))
      as [Hlive|Hcompleted].
    + erewrite bind_Done by reflexivity.
      set (k1 := set_operation_map _ k).
      destruct (IH (acc ++ [a]) k1) as (m & acc' & Hloop & Hm).
      { intros a' Ha'. subst k1. simpl. by apply lookup_alter_is_Some, Hrest. }
      exists m, acc'. split; [by rewrite Hloop|].
      intros a'. rewrite Hm. subst k1. simpl.
      destruct (decide (a' = a)) as [->|Hne].
      * rewrite lookup_alter_eq, Hopa. simpl. f_equal.
        repeat case_decide; try done.
        -- by rewrite add_joiner_idempotent.
        -- exfalso. rewrite elem_of_cons in *. naive_solver.
        -- exfalso. rewrite elem_of_cons in *. naive_solver.
      * rewrite lookup_alter_ne by done.
        destruct (operation_map k !! a') as [opa'|]; simpl; [|done].
        f_equal. repeat case_decide; try done;
          exfalso; rewrite elem_of_cons in *; naive_solver.
    + destruct (IH acc k Hrest) as (m & acc' & Hloop & Hm).
      exists m, acc'. split; [done|]. intros a'. rewrite Hm.
      destruct (operation_map k !! a') as [opa'|] eqn:Hopa'; simpl; [|done].
      f_equal. repeat case_decide; try done;
        exfalso; rewrite elem_of_cons in *; naive_solver.
Qed.

(** X21: [join_operations] is not atomic on its error path.  When the list
    names an operation that is not registered, the call returns
    [NotExistingOperation] after it has added the caller to the joiners of
    every target listed before the missing one that has not completed; the
    caller itself is not blocked and keeps the token. *)
Theorem join_operations_missing_operation_mutates k pre b post wait_all :
  exploration_strategy k = StrategyPCT ->
  is_attached k = true ->
  (∀ a, a ∈ pre -> is_Some (operation_map k !! a)) ->
  operation_map k !! b = None ->
  let ids := pre ++ b :: post in
  let k' := fst (join_operations ids wait_all k) in
  snd (join_operations ids wait_all k) = Returned NotExistingOperation
  ∧ operations k' = operations k
  ∧ scheduled_op_id k' = scheduled_op_id k
  ∧ ∀ a opa, operation_map k !! a = Some opa ->
      operation_map k' !! a
      = Some (if decide (a ∈ pre
                         ∧ Operation.status opa ≠ OperationStatus.Completed)
              then add_joiner (scheduled_op_id k) opa else opa).
Proof.
  intros Hconfig Hattached Hpre Hb ids k'.
  destruct (collect_join_operations_registered pre (b :: post) [] k Hpre)
    as (m & acc' & Hloop & Hm).
  assert (join_operations ids wait_all k
          = (set_last_error_code NotExistingOperation (set_operation_map m k),
             Returned NotExistingOperation)) as Hjoin.
  { unfold join_operations, run_entry. rewrite entry_prologue by done.
    assert (collect_join_operations ids [] k
            = (set_operation_map m k, Raised (Code NotExistingOperation)))
      as Hfail.
    { subst ids. rewrite Hloop. simpl.
      erewrite (bind_Done get) by reflexivity. simpl.
      by rewrite Hm, Hb. }
    by rewrite (bind_Raised _ _ k _ _ Hfail). }
  subst k'. rewrite Hjoin. simpl. repeat split.
  intros a opa Hopa. by rewrite Hm, Hopa.
Qed.

End KernelPartial.

(** ** Completion and the passing of the token *)

Section KernelCompletion.
Context {S : Type} `{Strategy S}.
Implicit Types (k : SchedulerClient S) (op : Operation.t).

(** One turn of the loop over the joiners of a completed operation. *)
Lemma notify_joiner_registered operation_id b k op :
  operation_map k !! b = Some op ->
  notify_joiner operation_id b k
  = (let '(op', unblocked) := Operation.on_join_operation operation_id op in
     set_operations
       (if unblocked then Operations.enable (Operation.id op) (operations k)
        else operations k)
       (set_operation_map (<[b := op']> (operation_map k)) k),
     Done tt).
Proof.
  intros Hop. unfold notify_joiner.
  rewrite (bind_Done _ _ k k op) by by apply operation_at_Some.
  destruct (Operation.on_join_operation operation_id op) as [op' unblocked].
  erewrite bind_Done by reflexivity. unfold update_operation, modify. simpl.
  assert (alter (fun _ => op') b (operation_map k) = <[b := op']> (operation_map k))
    as ->.
  { apply map_eq. intros i. destruct (decide (i = b)) as [->|Hne].
    - by rewrite lookup_alter_eq, lookup_insert_eq, Hop.
    - by rewrite lookup_alter_ne, lookup_insert_ne. }
  destruct unblocked; simpl; [done|]. by destruct k.
Qed.

(** The effect of the loop of [complete_operation]. *)
Lemma notify_joiner_loop operation_id (l : list N) k :
  NoDup l ->
  (∀ b, b ∈ l -> ∃ op, operation_map k !! b = Some op ∧ Operation.id op = b) ->
  ∃ k',
    for_each l (notify_joiner operation_id) k = (k', Done tt)
    ∧ resource_map k' = resource_map k
    ∧ scheduled_op_id k' = scheduled_op_id k
    ∧ last_error_code k' = last_error_code k
    ∧ (∀ i, i ∉ l -> operation_map k' !! i = operation_map k !! i)
    ∧ (∀ b op, b ∈ l -> operation_map k !! b = Some op ->
         operation_map k' !! b
         = Some (Operation.on_join_operation operation_id op).1)
    ∧ (∀ i, Operations.mem i (operations k') = Operations.mem i (operations k))
    ∧ (∀ i, Operations.is_enabled i (operations k) = true ->
            Operations.is_enabled i (operations k') = true)
    ∧ (∀ b op, b ∈ l -> operation_map k !! b = Some op ->
         (Operation.on_join_operation operation_id op).2 = true ->
         Operations.mem b (operations k) = true ->
         Operations.is_enabled b (operations k') = true).
Proof.
  revert k. induction l as [|b rest IH]; intros k Hnodup Hreg.
  - exists k. simpl. repeat split; try done.
    + intros b op Hb. by apply elem_of_nil in Hb.
    + intros b op Hb. by apply elem_of_nil in Hb.
  - apply NoDup_cons in Hnodup as [Hb Hnodup].
    destruct (Hreg b) as (opb & Hopb & Hidb); [apply list_elem_of_here|].
    pose proof (notify_joiner_registered operation_id b k opb Hopb) as Hstep.
    destruct (Operation.on_join_operation operation_id opb) as [opb' unblocked]
      eqn:Hjoin.
    set (k1 := set_operations
                 (if unblocked
                  then Operations.enable (Operation.id opb) (operations k)
                  else operations k)
                 (set_operation_map (<[b := opb']> (operation_map k)) k)) in *.
    assert (∀ i, i ≠ b -> operation_map k1 !! i = operation_map k !! i)
      as Hother by (intros i Hi; simpl; by rewrite lookup_insert_ne).
    destruct (IH k1 Hnodup) as
      (k' & Hloop & Hres & Hid & Herr & Hout & Hin & Hmem & Hmono & Hwake).
    { intros b' Hb'. rewrite Hother by (intros ->; done).
      apply Hreg. by apply list_elem_of_further. }
    assert (∀ i, Operations.mem i (operations k1) = Operations.mem i (operations k))
      as Hmem1.
    { intros i. simpl. destruct unblocked; [apply mem_enable|done]. }
    assert (∀ i, Operations.is_enabled i (operations k) = true ->
                 Operations.is_enabled i (operations k1) = true) as Hmono1.
    { intros i Hi. simpl.
      destruct unblocked; [by apply is_enabled_enable_mono|done]. }
    exists k'. simpl. rewrite (bind_Done _ _ k k1 tt) by done.
    split; [done|]. split; [done|]. split; [done|]. split; [done|].
    split; [|split; [|split; [|split]]].
    + intros i Hi. apply not_elem_of_cons in Hi as [Hib Hi].
      rewrite Hout by done. by apply Hother.
    + intros b' op Hb' Hop. apply elem_of_cons in Hb' as [->|Hb'].
      * rewrite Hout by done. simpl. rewrite lookup_insert_eq.
        rewrite Hopb in Hop. injection Hop as <-. by rewrite Hjoin.
      * apply Hin; [done|]. rewrite Hother by (intros ->; done). done.
    + intros i. by rewrite Hmem, Hmem1.
    + intros i Hi. by apply Hmono, Hmono1.
    + intros b' op Hb' Hop Hsat Hmember.
      apply elem_of_cons in Hb' as [->|Hb'].
      * apply Hmono. rewrite Hopb in Hop. injection Hop as <-.
        rewrite Hjoin in Hsat. simpl in Hsat. subst unblocked.
        simpl. rewrite Hidb. by apply is_enabled_enable.
      * apply (Hwake b' op); [done| |done|by rewrite Hmem1].
        rewrite Hother by (intros ->; done). done.
Qed.

(** What a scheduling decision leaves alone: the enabled set, the resources,
    the count of pending starts and, in the records, everything but the
    token flag. *)
Lemma schedule_next_inner_frame k :
  let k' := fst (schedule_next_inner k) in
  operations k' = operations k
  ∧ resource_map k' = resource_map k
  ∧ pending_start_operation_count k' = pending_start_operation_count k
  ∧ last_error_code k' = last_error_code k
  ∧ ∀ i, Operation.set_is_scheduled false <$> operation_map k' !! i
         = Operation.set_is_scheduled false <$> operation_map k !! i.
Proof.
  unfold schedule_next_inner. rewrite (bind_Done get _ k k k) by done.
  destruct (N.ltb _ _); [done|]. destruct (Nat.eqb _ _).
  { by destruct (Nat.ltb _ _). }
  destruct (strategy_next_operation _ _ _) as [st [next_id|e]]; [|done].
  rewrite (bind_Done (modify _) _ k _ tt) by reflexivity.
  destruct (operation_map k !! next_id) as [next_op|] eqn:Hnext.
  2:{ by erewrite bind_Raised by (apply operation_at_None; exact Hnext). }
  erewrite (bind_Done (operation_at _))
    by (apply operation_at_Some; exact Hnext).
  rewrite (bind_Done (modify _) _ _ _ tt) by reflexivity.
  destruct (decide _) as [Hne|]; [|done].
  rewrite (bind_Done (update_operation _ _) _ _ _ tt) by reflexivity.
  assert (∀ (m : gmap N Operation.t) j b i,
            Operation.set_is_scheduled false
              <$> alter (Operation.set_is_scheduled b) j m !! i
            = Operation.set_is_scheduled false <$> m !! i) as Halter.
  { intros m j b i. destruct (decide (i = j)) as [->|Hij].
    - rewrite lookup_alter_eq. by destruct (m !! j).
    - by rewrite lookup_alter_ne. }
  set (k2 := set_operation_map _ _).
  destruct (operation_map k2 !! scheduled_op_id k) as [previous_op|]
    eqn:Hprevious.
  2:{ rewrite (bind_Raised _ _ _ _ _ (operation_at_None _ _ Hprevious)).
      subst k2. simpl. repeat split. intros i. apply Halter. }
  rewrite (bind_Done _ _ _ _ previous_op (operation_at_Some _ _ _ Hprevious)).
  destruct (decide _).
  - rewrite (bind_Done (update_operation _ _) _ _ _ tt) by reflexivity.
    unfold park. set (k3 := set_operation_map _ k2).
    assert (operations k3 = operations k
            ∧ resource_map k3 = resource_map k
            ∧ pending_start_operation_count k3 = pending_start_operation_count k
            ∧ last_error_code k3 = last_error_code k
            ∧ ∀ i, Operation.set_is_scheduled false <$> operation_map k3 !! i
                   = Operation.set_is_scheduled false <$> operation_map k !! i)
      as Hk3.
    { subst k3 k2. simpl. repeat split. intros i. by rewrite !Halter. }
    destruct (operation_map k3 !! scheduled_op_id k) as [parked_op|] eqn:Hparked.
    + rewrite (bind_Done _ _ _ _ parked_op (operation_at_Some _ _ _ Hparked)).
      by destruct (Operation.is_scheduled parked_op).
    + by rewrite (bind_Raised _ _ _ _ _ (operation_at_None _ _ Hparked)).
  - subst k2. simpl. repeat split. intros i. apply Halter.
Qed.

Lemma mem_remove_eq i ops :
  Operations.mem i (Operations.remove i ops) = false.
Proof.
  unfold Operations.mem, Operations.remove.
  induction ops as [|[j f] rest IH]; simpl; [done|].
  destruct (N.eqb_spec j i) as [->|Hne]; simpl; [done|].
  rewrite IH. by destruct (N.eqb_spec j i).
Qed.

Lemma mem_remove_ne i j ops :
  j ≠ i -> Operations.mem j (Operations.remove i ops) = Operations.mem j ops.
Proof.
  intros Hne. unfold Operations.mem, Operations.remove.
  induction ops as [|[j' f] rest IH]; simpl; [done|].
  destruct (N.eqb_spec j' i) as [->|Hne']; simpl.
  - rewrite IH. by destruct (N.eqb_spec i j) as [->|].
  - by rewrite IH.
Qed.

Lemma is_enabled_remove_ne i j ops :
  j ≠ i ->
  Operations.is_enabled j (Operations.remove i ops)
  = Operations.is_enabled j ops.
Proof.
  intros Hne. unfold Operations.is_enabled, Operations.remove.
  induction ops as [|[j' f] rest IH]; simpl; [done|].
  destruct (N.eqb_spec j' i) as [->|Hne']; simpl.
  - rewrite IH. by destruct (N.eqb_spec i j) as [->|].
  - by rewrite IH.
Qed.

Lemma status_on_join_operation_completed operation_id op :
  Operation.status op = OperationStatus.Completed ->
  Operation.status (Operation.on_join_operation operation_id op).1
  = OperationStatus.Completed.
Proof.
  intros Hstatus. unfold Operation.on_join_operation.
  destruct (Operation.join_target op) as [[ids mode]|]; [|done].
  destruct (Operation.satisfied _ _); simpl; [|done].
  unfold Operation.unblock. simpl. by rewrite Hstatus.
Qed.

(** What the epilogue of an entry point leaves alone. *)
Lemma run_entry_frame (body : M S unit) k :
  operation_map (fst (run_entry body k)) = operation_map (fst (body k))
  ∧ operations (fst (run_entry body k)) = operations (fst (body k)).
Proof.
  unfold run_entry. by destruct (body k) as [k' [[]|[e|]|w]].
Qed.

(** [complete_operation] on a started operation whose joiners are
    registered. *)
Lemma complete_operation_registered k i op :
  exploration_strategy k = StrategyPCT ->
  is_attached k = true ->
  i ≠ main_op_id ->
  operation_map k !! i = Some op ->
  Operation.id op = i ->
  Operation.status op ≠ OperationStatus.Completed ->
  Operation.status op ≠ OperationStatus.None ->
  (∀ b, b ∈ Operation.blocked_operation_ids op ->
        ∃ opb, operation_map k !! b = Some opb ∧ Operation.id opb = b) ->
  let k' := fst (complete_operation i k) in
  status_of i k' = Some OperationStatus.Completed
  ∧ Operations.mem i (operations k') = false
  ∧ (∀ j, j ≠ i -> Operations.is_enabled j (operations k) = true ->
          Operations.is_enabled j (operations k') = true)
  ∧ (∀ b opb, b ∈ Operation.blocked_operation_ids op -> b ≠ i ->
       operation_map k !! b = Some opb ->
       (Operation.on_join_operation i opb).2 = true ->
       Operations.mem b (operations k) = true ->
       Operations.is_enabled b (operations k') = true)
  ∧ (∀ b opb, b ∈ Operation.blocked_operation_ids op -> b ≠ i ->
       operation_map k !! b = Some opb ->
       Operation.set_is_scheduled false <$> operation_map k' !! b
       = Some (Operation.set_is_scheduled false
                 (Operation.on_join_operation i opb).1)).
Proof.
  intros Hconfig Hattached Hmain Hop Hid Hcompleted Hstarted Hjoiners k'.
  set (k2 := set_operations (Operations.remove i (operations k))
               (set_operation_map
                  (alter (Operation.set_status OperationStatus.Completed) i
                     (operation_map k)) k)).
  assert (operation_map k2 !! i
          = Some (Operation.set_status OperationStatus.Completed op)) as Hop2.
  { subst k2. simpl. by rewrite lookup_alter_eq, Hop. }
  assert (∀ b, b ≠ i -> operation_map k2 !! b = operation_map k !! b) as Hother.
  { intros b Hb. subst k2. simpl. by rewrite lookup_alter_ne. }
  destruct (notify_joiner_loop i (elements (Operation.blocked_operation_ids op)) k2)
    as (k3 & Hloop & _ & _ & _ & Hout & Hin & Hmem & Hmono & Hwake).
  { apply NoDup_elements. }
  { intros b Hb%elem_of_elements. destruct (decide (b = i)) as [->|Hne].
    - eexists. split; [exact Hop2|done].
    - rewrite Hother by done. by apply Hjoiners. }
  assert (complete_operation i k
          = run_entry (fun _ => schedule_next_inner k3) k) as Hcomplete.
  { unfold complete_operation, run_entry. rewrite entry_prologue by done.
    destruct (N.eqb_spec i main_op_id) as [|_]; [done|].
    rewrite (bind_Done (ret tt) _ k k tt) by done.
    rewrite (bind_Done get _ k k k) by done. rewrite Hop.
    destruct (decide _) as [|_]; [done|]. destruct (decide _) as [|_]; [done|].
    rewrite (bind_Done (update_operation _ _) _ k _ tt) by reflexivity.
    erewrite (bind_Done (update_operations _)) by reflexivity. rewrite Hid.
    by rewrite (bind_Done _ _ k2 k3 tt Hloop). }
  destruct (run_entry_frame (fun _ => schedule_next_inner k3) k)
    as [Hmap' Hops'].
  destruct (schedule_next_inner_frame k3) as (Hops & _ & _ & _ & Hmap).
  subst k'. rewrite Hcomplete. unfold status_of. rewrite Hmap', Hops', Hops.
  split; [|split; [|split; [|split]]].
  - assert (Operation.status <$> operation_map k3 !! i
            = Some OperationStatus.Completed) as Hstatus.
    { destruct (decide (i ∈ elements (Operation.blocked_operation_ids op)))
        as [Hi|Hi].
      - rewrite (Hin i _ Hi Hop2). simpl. f_equal.
        by apply status_on_join_operation_completed.
      - by rewrite (Hout i Hi), Hop2. }
    pose proof (f_equal (fmap Operation.status) (Hmap i)) as Hsame.
    rewrite <- !option_fmap_compose in Hsame.
    etrans; [exact Hsame|exact Hstatus].
  - rewrite Hmem. subst k2. simpl. apply mem_remove_eq.
  - intros j Hj Henabled. apply Hmono. subst k2. simpl.
    by rewrite is_enabled_remove_ne.
  - intros b opb Hb Hne Hopb Hsat Hmember.
    apply (Hwake b opb); [by apply elem_of_elements| |done|].
    + by rewrite Hother.
    + subst k2. simpl. by rewrite mem_remove_ne.
  - intros b opb Hb Hne Hopb. rewrite Hmap.
    rewrite (Hin b opb); [done|by apply elem_of_elements|by rewrite Hother].
Qed.

(** The scheduling decision: the strategy picks a registered operation
    while the previous holder is registered. *)
Lemma schedule_next_inner_passes_the_token k st next_id next_op previous_op :
  pending_start_operation_count k = 0 ->
  Operations.size true (operations k) ≠ 0%nat ->
  strategy_next_operation (strategy k) (Operations.view (operations k))
    (scheduled_op_id k) = (st, Ok next_id) ->
  operation_map k !! next_id = Some next_op ->
  operation_map k !! scheduled_op_id k = Some previous_op ->
  let k1 := set_scheduled_op_id next_id (set_strategy st k) in
  let passed :=
    alter (Operation.set_is_scheduled true) next_id (operation_map k) in
  schedule_next_inner k
  = if decide (scheduled_op_id k = next_id) then (k1, Done tt)
    else if decide (Operation.status previous_op = OperationStatus.Completed)
    then (set_operation_map passed k1, Done tt)
    else (set_operation_map
            (alter (Operation.set_is_scheduled false) (scheduled_op_id k) passed)
            k1,
          Suspended (ParkedOn (scheduled_op_id k))).
Proof.
  intros Hpending Hsize Hpick Hnext Hprevious k1 passed.
  unfold schedule_next_inner. rewrite (bind_Done get _ k k k) by done.
  rewrite Hpending.
  destruct (Nat.eqb_spec (Operations.size true (operations k)) 0) as [|_];
    [done|].
  change (0 <? 0) with false. cbv iota. rewrite Hpick.
  rewrite (bind_Done (modify _) _ k _ tt) by reflexivity.
  erewrite (bind_Done (operation_at _))
    by (apply operation_at_Some; exact Hnext).
  rewrite (bind_Done (modify _) _ _ _ tt) by reflexivity.
  destruct (decide (scheduled_op_id k = next_id)) as [Heq|Hne].
  { destruct (decide _) as [|_]; [done|]. done. }
  destruct (decide _) as [_|]; [|done].
  rewrite (bind_Done (update_operation _ _) _ _ _ tt) by reflexivity.
  erewrite (bind_Done (operation_at _)).
  2:{ apply operation_at_Some. simpl. rewrite lookup_alter_ne by done.
      exact Hprevious. }
  destruct (decide (Operation.status previous_op = OperationStatus.Completed))
    as [Hcompleted|Hlive].
  { destruct (decide _) as [|_]; [done|]. done. }
  destruct (decide _) as [_|]; [|done].
  rewrite (bind_Done (update_operation _ _) _ _ _ tt) by reflexivity.
  unfold park. erewrite (bind_Done (operation_at _)).
  2:{ apply operation_at_Some. simpl. rewrite lookup_alter_eq.
      rewrite lookup_alter_ne by done. rewrite Hprevious. reflexivity. }
  done.
Qed.

End KernelCompletion.

(** ** The calls that leave the token alone *)

Section KernelTokenStays.
Context {S : Type} `{Strategy S}.
Implicit Types (k : SchedulerClient S) (op : Operation.t).

Lemma run_entry_benign (body : M S unit) k :
  benign body -> scheduled_op_id (fst (run_entry body k)) = scheduled_op_id k.
Proof.
  intros Hbody. destruct (Hbody k) as [Hid _]. unfold run_entry.
  by destruct (body k) as [k' [[]|[e|]|w]].
Qed.

(** X24: only the scheduling points move the token.  Whatever the state,
    [start_operation], [create_resource], [delete_resource], both
    [signal_resource] overloads and the two choices leave [scheduled_op_id]
    as it was, on their error paths too. *)
Theorem only_scheduling_points_move_the_token k :
  (∀ i, scheduled_op_id (fst (start_operation i k)) = scheduled_op_id k)
  ∧ (∀ r, scheduled_op_id (fst (create_resource r k)) = scheduled_op_id k
          ∧ scheduled_op_id (fst (delete_resource r k)) = scheduled_op_id k
          ∧ scheduled_op_id (fst (signal_resource r k)) = scheduled_op_id k)
  ∧ (∀ r i, scheduled_op_id (fst (signal_resource_operation r i k))
            = scheduled_op_id k)
  ∧ scheduled_op_id (fst (kernel_next_boolean k)) = scheduled_op_id k
  ∧ (∀ max_value, scheduled_op_id (fst (kernel_next_integer max_value k))
                  = scheduled_op_id k).
Proof.
  split; [|split; [|split; [|split]]].
  - intros i. apply run_entry_benign. benign_auto.
  - intros r. repeat split; apply run_entry_benign; benign_auto.
  - intros r i. apply run_entry_benign. benign_auto.
  - unfold kernel_next_boolean. by destruct (strategy_next_boolean _).
  - intros max_value. unfold kernel_next_integer.
    by destruct (strategy_next_integer _ _).
Qed.

End KernelTokenStays.

(** ** Completion and scheduling with the PCT strategy *)

Section KernelPCTScheduling.
Context {G : Type} `{RandomGen G}.
Implicit Types (k : SchedulerClient (PCTStrategy G)).

(** X22: completing an operation wakes its joiners.  In every reachable
    state of an attached kernel, [complete_operation] on a started operation
    leaves it with status [Completed] and out of the enabled set, keeps
    every other enabled operation enabled, and enables every joiner whose
    join is satisfied by the completion ([on_join_operation] returns true)
    and that is a member of the enabled set. *)
Theorem complete_operation_wakes_joiners k i op :
  reachable k ->
  exploration_strategy k = StrategyPCT ->
  is_attached k = true ->
  i ≠ main_op_id ->
  operation_map k !! i = Some op ->
  Operation.status op ≠ OperationStatus.Completed ->
  Operation.status op ≠ OperationStatus.None ->
  let k' := fst (complete_operation i k) in
  status_of i k' = Some OperationStatus.Completed
  ∧ Operations.mem i (operations k') = false
  ∧ (∀ j, j ≠ i -> Operations.is_enabled j (operations k) = true ->
          Operations.is_enabled j (operations k') = true)
  ∧ (∀ b opb, b ∈ Operation.blocked_operation_ids op -> b ≠ i ->
       operation_map k !! b = Some opb ->
       (Operation.on_join_operation i opb).2 = true ->
       Operations.mem b (operations k) = true ->
       Operations.is_enabled b (operations k') = true).
Proof.
  intros Hreach Hconfig Hattached Hmain Hop Hcompleted Hstarted.
  destruct (reachable_kernel_closed k Hreach) as (Hrecords & _ & _).
  destruct (Hrecords i op Hop) as [Hid Hjoiners].
  destruct (complete_operation_registered k i op Hconfig Hattached Hmain Hop
              Hid Hcompleted Hstarted)
    as (Hstatus & Hmem & Hkeep & Hwake & _); [|done].
  intros b Hb. destruct (Hjoiners b Hb) as [opb Hopb].
  exists opb. split; [done|]. by destruct (Hrecords b opb Hopb).
Qed.

(** X23: how [schedule_next] passes the token.  In every reachable state of
    an attached kernel with no pending start and an enabled operation, the
    strategy is asked once; unless it throws (the PCT strategy throws
    [InternalError] only), the operation it picks is enabled and becomes
    [scheduled_op_id].  When it is the caller, nothing else changes and the
    call returns; otherwise its record gets the token flag, and the caller
    loses the flag and parks, unless it has completed, in which case it
    keeps the flag and the call returns. *)
Theorem schedule_next_passes_the_token k :
  reachable k ->
  exploration_strategy k = StrategyPCT ->
  is_attached k = true ->
  pending_start_operation_count k = 0 ->
  Operations.view (operations k) ≠ [] ->
  let '(st, picked) :=
    next_operation (strategy k) (Operations.view (operations k))
      (scheduled_op_id k) in
  match picked with
  | Throw e =>
      e = InternalError
      ∧ schedule_next k
        = (set_last_error_code e (set_strategy st k), Returned e)
  | Ok next_id =>
      next_id ∈ Operations.view (operations k)
      ∧ ∃ previous_op,
          operation_map k !! scheduled_op_id k = Some previous_op
          ∧ let k1 := set_scheduled_op_id next_id (set_strategy st k) in
            let passed :=
              alter (Operation.set_is_scheduled true) next_id (operation_map k) in
            schedule_next k
            = if decide (scheduled_op_id k = next_id)
              then (k1, Returned (last_error_code k))
              else if decide (Operation.status previous_op
                              = OperationStatus.Completed)
              then (set_operation_map passed k1, Returned (last_error_code k))
              else (set_operation_map
                      (alter (Operation.set_is_scheduled false)
                         (scheduled_op_id k) passed) k1,
                    Waiting (ParkedOn (scheduled_op_id k)))
  end.
Proof.
  intros Hreach Hconfig Hattached Hpending Hview.
  pose proof (next_operation_picks_enabled (strategy k)
                (Operations.view (operations k)) (scheduled_op_id k)) as Hpicks.
  destruct (next_operation _ _ _) as [st [next_id|e]] eqn:Hpick.
  - split; [done|].
    destruct (reachable_kernel_closed k Hreach) as (_ & _ & Hmembers).
    destruct (Hmembers next_id (mem_view _ _ Hpicks)) as [next_op Hnext].
    destruct (reachable_attached_registered k Hreach Hattached)
      as [[previous_op Hprevious] _].
    exists previous_op. split; [done|]. intros k1 passed.
    unfold schedule_next, run_entry. rewrite entry_prologue by done.
    rewrite (schedule_next_inner_passes_the_token k st next_id next_op previous_op)
      by (try done; unfold Operations.size;
          by destruct (Operations.view (operations k))).
    destruct (decide _); [done|]. by destruct (decide _).
  - split; [done|]. unfold schedule_next, run_entry.
    rewrite entry_prologue by done.
    assert (schedule_next_inner k = (set_strategy st k, Raised (Code e))) as ->.
    { unfold schedule_next_inner. rewrite (bind_Done get _ k k k) by done.
      rewrite Hpending. change (0 <? 0) with false. cbv iota.
      destruct (Nat.eqb_spec (Operations.size true (operations k)) 0) as [Hz|_].
      { unfold Operations.size in Hz.
        by destruct (Operations.view (operations k)). }
      change (strategy_next_operation (strategy k)
                (Operations.view (operations k)) (scheduled_op_id k))
        with (next_operation (strategy k) (Operations.view (operations k))
                (scheduled_op_id k)).
      rewrite Hpick. by rewrite (bind_Done (modify _) _ k _ tt) by reflexivity. }
    done.
Qed.

End KernelPCTScheduling.

(** ** The rejections, the error paths and the scheduling on concrete inputs *)

Lemma kernel_attached_state :
  exploration_strategy kernel_attached = StrategyPCT
  ∧ is_attached kernel_attached = true.
Proof. split; vm_compute; reflexivity. Qed.

Lemma main_operation_is_implicit_witness :
  is_attached kernel_attached = true
  ∧ complete_operation main_op_id kernel_attached
    = (set_last_error_code MainOperationExplicitlyCompleted kernel_attached,
       Returned MainOperationExplicitlyCompleted).
Proof.
  destruct kernel_attached_state as [Hconfig Hattached].
  split; [exact Hattached|].
  by destruct (main_operation_is_implicit kernel_attached Hconfig Hattached)
    as (_ & _ & Hcomplete).
Defined.

Lemma start_operation_outcomes_witness :
  is_attached kernel_created = true
  ∧ snd (start_operation 1 kernel_created) = Waiting (ParkedOn 1)
  ∧ snd (start_operation 7 kernel_created) = Returned NotExistingOperation.
Proof.
  assert (exploration_strategy kernel_created = StrategyPCT) as Hconfig
    by (vm_compute; reflexivity).
  assert (is_attached kernel_created = true) as Hattached
    by (vm_compute; reflexivity).
  assert (operation_map kernel_created !! 1 = Some (Operation.new 1)) as Hop
    by (vm_compute; reflexivity).
  assert (operation_map kernel_created !! 7 = None) as Hmissing
    by (vm_compute; reflexivity).
  assert (Operations.insert 1 (operations kernel_created)
          = Ok [(0, true); (1, true)]) as Hinsert
    by (vm_compute; reflexivity).
  split; [exact Hattached|]. split.
  - pose proof (start_operation_outcomes kernel_created 1 Hconfig Hattached)
      as Hstart.
    rewrite Hop in Hstart. by rewrite (Hstart ltac:(done) _ Hinsert).
  - pose proof (start_operation_outcomes kernel_created 7 Hconfig Hattached)
      as Hstart.
    rewrite Hmissing in Hstart. by rewrite Hstart.
Defined.

Lemma complete_operation_rejections_witness :
  is_attached kernel_created = true
  ∧ complete_operation 1 kernel_created
    = (set_last_error_code OperationNotStarted kernel_created,
       Returned OperationNotStarted).
Proof.
  assert (exploration_strategy kernel_created = StrategyPCT) as Hconfig
    by (vm_compute; reflexivity).
  assert (is_attached kernel_created = true) as Hattached
    by (vm_compute; reflexivity).
  assert (operation_map kernel_created !! 1 = Some (Operation.new 1)) as Hop
    by (vm_compute; reflexivity).
  split; [exact Hattached|].
  destruct (complete_operation_rejections kernel_created 1 Hconfig Hattached)
    as (_ & _ & Hnot_started); [done|].
  exact (Hnot_started (Operation.new 1) Hop eq_refl).
Defined.

Lemma join_operation_without_waiting_witness :
  is_attached kernel_completed_7 = true
  ∧ join_operation 7 kernel_completed_7
    = (kernel_completed_7, Returned (last_error_code kernel_completed_7)).
Proof.
  assert (exploration_strategy kernel_completed_7 = StrategyPCT) as Hconfig
    by (vm_compute; reflexivity).
  assert (is_attached kernel_completed_7 = true) as Hattached
    by (vm_compute; reflexivity).
  assert (operation_map kernel_completed_7 !! 7
          = Some (Operation.mk 7 OperationStatus.Completed false ∅ None None))
    as Hop by (vm_compute; reflexivity).
  split; [exact Hattached|].
  destruct (join_operation_without_waiting kernel_completed_7 7 Hconfig Hattached)
    as (_ & Hcompleted & _).
  exact (Hcompleted _ Hop eq_refl).
Defined.

Lemma resource_errors_change_nothing_witness :
  is_attached kernel_with_resource = true
  ∧ create_resource 5 kernel_with_resource
    = (set_last_error_code DuplicateResource kernel_with_resource,
       Returned DuplicateResource)
  ∧ delete_resource 6 kernel_with_resource
    = (set_last_error_code NotExistingResource kernel_with_resource,
       Returned NotExistingResource).
Proof.
  assert (exploration_strategy kernel_with_resource = StrategyPCT) as Hconfig
    by (vm_compute; reflexivity).
  assert (is_attached kernel_with_resource = true) as Hattached
    by (vm_compute; reflexivity).
  assert (resource_map kernel_with_resource !! 5 = Some ∅) as Hexisting
    by (vm_compute; reflexivity).
  assert (resource_map kernel_with_resource !! 6 = None) as Hmissing
    by (vm_compute; reflexivity).
  split; [exact Hattached|]. split.
  - destruct (resource_errors_change_nothing kernel_with_resource 5
                Hconfig Hattached) as [Hduplicate _].
    apply Hduplicate. by rewrite Hexisting.
  - destruct (resource_errors_change_nothing kernel_with_resource 6
                Hconfig Hattached) as [_ Hrejected].
    by destruct (Hrejected Hmissing) as [Hdelete _].
Defined.

Lemma signal_resource_operation_wakes_one_witness :
  resource_map kernel_waiting !! 5 = Some {[0]}
  ∧ signal_resource_operation 5 1 kernel_waiting
    = (kernel_waiting, Returned (last_error_code kernel_waiting))
  ∧ Operations.is_enabled 0
      (operations (fst (signal_resource_operation 5 0 kernel_waiting))) = true.
Proof.
  assert (exploration_strategy kernel_waiting = StrategyPCT) as Hconfig
    by (vm_compute; reflexivity).
  assert (is_attached kernel_waiting = true) as Hattached
    by (vm_compute; reflexivity).
  assert (resource_map kernel_waiting !! 5 = Some {[0]}) as Hresource
    by (vm_compute; reflexivity).
  assert (operation_map kernel_waiting !! 0
          = Some (Operation.mk 0 OperationStatus.Blocked false ∅ None
                    (Some ({[5]}, All)))) as Hop
    by (vm_compute; reflexivity).
  split; [exact Hresource|]. split.
  - destruct (signal_resource_operation_wakes_one kernel_waiting 5 1 {[0]}
                Hconfig Hattached Hresource) as [Hother _].
    apply Hother. by intros ?%elem_of_singleton.
  - destruct (signal_resource_operation_wakes_one kernel_waiting 5 0 {[0]}
                Hconfig Hattached Hresource) as [_ Hblocked].
    rewrite (Hblocked _ (proj2 (elem_of_singleton 0 0) eq_refl) Hop).
    vm_compute. reflexivity.
Defined.

Lemma wait_resources_missing_resource_mutates_witness :
  resource_map kernel_with_resource !! 6 = None
  ∧ snd (wait_resources [5; 6] true kernel_with_resource)
    = Returned NotExistingResource
  ∧ resource_map (fst (wait_resources [5; 6] true kernel_with_resource)) !! 5
    = Some ({[0]} ∪ ∅)
  ∧ operations (fst (wait_resources [5; 6] true kernel_with_resource))
    = [(0, false)].
Proof.
  assert (exploration_strategy kernel_with_resource = StrategyPCT) as Hconfig
    by (vm_compute; reflexivity).
  assert (is_attached kernel_with_resource = true) as Hattached
    by (vm_compute; reflexivity).
  assert (operation_map kernel_with_resource
            !! scheduled_op_id kernel_with_resource
          = Some main_operation) as Hop
    by (vm_compute; reflexivity).
  assert (resource_map kernel_with_resource !! 5 = Some ∅) as Hexisting
    by (vm_compute; reflexivity).
  assert (resource_map kernel_with_resource !! 6 = None) as Hmissing
    by (vm_compute; reflexivity).
  split; [exact Hmissing|].
  destruct (wait_resources_missing_resource_mutates kernel_with_resource
              [5] 6 [] true main_operation Hconfig Hattached Hop)
    as (Hreply & _ & Hoperations & Hblocked & _).
  - intros r' ->%list_elem_of_singleton. by rewrite Hexisting.
  - exact Hmissing.
  - split; [exact Hreply|]. split.
    + apply Hblocked; [apply list_elem_of_here|exact Hexisting].
    + etrans; [exact Hoperations|]. vm_compute. reflexivity.
Defined.

Lemma join_operations_missing_operation_mutates_witness :
  operation_map kernel_started !! 9 = None
  ∧ snd (join_operations [1; 9] true kernel_started)
    = Returned NotExistingOperation
  ∧ Operation.blocked_operation_ids
      <$> operation_map (fst (join_operations [1; 9] true kernel_started)) !! 1
    = Some ({[0]} ∪ ∅)
  ∧ operations (fst (join_operations [1; 9] true kernel_started))
    = operations kernel_started.
Proof.
  assert (exploration_strategy kernel_started = StrategyPCT) as Hconfig
    by (vm_compute; reflexivity).
  assert (is_attached kernel_started = true) as Hattached
    by (vm_compute; reflexivity).
  assert (operation_map kernel_started !! 1
          = Some (Operation.mk 1 OperationStatus.Enabled false ∅ None None))
    as Hop by (vm_compute; reflexivity).
  assert (operation_map kernel_started !! 9 = None) as Hmissing
    by (vm_compute; reflexivity).
  split; [exact Hmissing|].
  destruct (join_operations_missing_operation_mutates kernel_started
              [1] 9 [] true Hconfig Hattached)
    as (Hreply & Hoperations & _ & Hjoiners).
  - intros a ->%list_elem_of_singleton. by rewrite Hop.
  - exact Hmissing.
  - split; [exact Hreply|]. split; [|exact Hoperations].
    exact (f_equal (fmap Operation.blocked_operation_ids) (Hjoiners 1 _ Hop)).
Defined.

Lemma kernel_joined_reachable : reachable kernel_joined.
Proof. do 2 apply reachable_run. constructor. Qed.

Lemma kernel_started_reachable : reachable kernel_started.
Proof. apply reachable_run. constructor. Qed.

Lemma complete_operation_wakes_joiners_witness :
  Operations.is_enabled 0 (operations kernel_joined) = false
  ∧ Operations.is_enabled 0
      (operations (fst (complete_operation 1 kernel_joined))) = true
  ∧ status_of 1 (fst (complete_operation 1 kernel_joined))
    = Some OperationStatus.Completed.
Proof.
  assert (exploration_strategy kernel_joined = StrategyPCT) as Hconfig
    by (vm_compute; reflexivity).
  assert (is_attached kernel_joined = true) as Hattached
    by (vm_compute; reflexivity).
  assert (operation_map kernel_joined !! 1
          = Some (Operation.mk 1 OperationStatus.Enabled true {[0]} None None))
    as Hop by (vm_compute; reflexivity).
  assert (operation_map kernel_joined !! 0
          = Some (Operation.mk 0 OperationStatus.Blocked false ∅
                    (Some ({[1]}, All)) None)) as Hmain
    by (vm_compute; reflexivity).
  split; [vm_compute; reflexivity|].
  destruct (complete_operation_wakes_joiners kernel_joined 1 _
              kernel_joined_reachable Hconfig Hattached ltac:(done) Hop
              ltac:(done) ltac:(done))
    as (Hstatus & _ & _ & Hwake).
  split; [|exact Hstatus].
  apply (Hwake 0 _ (proj2 (elem_of_singleton 0 0) eq_refl) ltac:(done) Hmain).
  - vm_compute. reflexivity.
  - vm_compute. reflexivity.
Defined.

Lemma schedule_next_passes_the_token_witness :
  pending_start_operation_count kernel_joined = 0
  ∧ Operations.view (operations kernel_joined) ≠ []
  ∧ let '(st, picked) :=
      next_operation (strategy kernel_joined)
        (Operations.view (operations kernel_joined))
        (scheduled_op_id kernel_joined) in
    match picked with
    | Throw e => e = InternalError
    | Ok next_id => next_id ∈ Operations.view (operations kernel_joined)
    end.
Proof.
  assert (exploration_strategy kernel_joined = StrategyPCT) as Hconfig
    by (vm_compute; reflexivity).
  assert (is_attached kernel_joined = true) as Hattached
    by (vm_compute; reflexivity).
  assert (pending_start_operation_count kernel_joined = 0) as Hpending
    by (vm_compute; reflexivity).
  assert (Operations.view (operations kernel_joined) ≠ []) as Hview
    by (vm_compute; discriminate).
  split; [exact Hpending|]. split; [exact Hview|].
  pose proof (schedule_next_passes_the_token kernel_joined
                kernel_joined_reachable Hconfig Hattached Hpending Hview)
    as Hnext.
  destruct (next_operation _ _ _) as [st [next_id|e]]; by destruct Hnext.
Defined.

Example schedule_next_keeps_the_only_enabled_operation :
  snd (schedule_next kernel_joined) = Returned Success
  ∧ scheduled_op_id (fst (schedule_next kernel_joined)) = 1.
Proof. by vm_compute. Qed.

(** ** Blocking and waking up *)

Section KernelBlocking.
Context {S : Type} `{Strategy S}.
Implicit Types (k : SchedulerClient S) (op : Operation.t).

(** A scheduling decision attaches, detaches and configures nothing. *)
Lemma schedule_next_inner_config k :
  exploration_strategy (fst (schedule_next_inner k)) = exploration_strategy k
  ∧ is_attached (fst (schedule_next_inner k)) = is_attached k.
Proof.
  unfold schedule_next_inner. rewrite (bind_Done get _ k k k) by done.
  destruct (N.ltb _ _); [done|]. destruct (Nat.eqb _ _).
  { by destruct (Nat.ltb _ _). }
  destruct (strategy_next_operation _ _ _) as [st [next_id|e]]; [|done].
  rewrite (bind_Done (modify _) _ k _ tt) by reflexivity.
  destruct (operation_map k !! next_id) as [next_op|] eqn:Hnext.
  2:{ by erewrite bind_Raised by (apply operation_at_None; exact Hnext). }
  erewrite (bind_Done (operation_at _))
    by (apply operation_at_Some; exact Hnext).
  rewrite (bind_Done (modify _) _ _ _ tt) by reflexivity.
  destruct (decide _) as [Hne|]; [|done].
  rewrite (bind_Done (update_operation _ _) _ _ _ tt) by reflexivity.
  set (k2 := set_operation_map _ _).
  destruct (operation_map k2 !! scheduled_op_id k) as [previous_op|]
    eqn:Hprevious.
  2:{ by rewrite (bind_Raised _ _ _ _ _ (operation_at_None _ _ Hprevious)). }
  rewrite (bind_Done _ _ _ _ previous_op (operation_at_Some _ _ _ Hprevious)).
  destruct (decide _); [|done].
  rewrite (bind_Done (update_operation _ _) _ _ _ tt) by reflexivity.
  unfold park. set (k3 := set_operation_map _ k2).
  destruct (operation_map k3 !! scheduled_op_id k) as [parked_op|] eqn:Hparked.
  - rewrite (bind_Done _ _ _ _ parked_op (operation_at_Some _ _ _ Hparked)).
    by destruct (Operation.is_scheduled parked_op).
  - by rewrite (bind_Raised _ _ _ _ _ (operation_at_None _ _ Hparked)).
Qed.

(** An entry point that blocks the caller and passes the token: the state
    it leaves is the state after the blocking, but for the strategy, the
    token and the stored error code. *)
Lemma blocking_entry_frame (body : M S unit) k k1 :
  exploration_strategy k = StrategyPCT ->
  is_attached k = true ->
  body k = schedule_next_inner k1 ->
  exploration_strategy k1 = exploration_strategy k ->
  is_attached k1 = is_attached k ->
  let k' :=
    fst (run_entry
           (bind check_enabled (fun _ => bind check_attached (fun _ => body)))
           k) in
  exploration_strategy k' = StrategyPCT
  ∧ is_attached k' = true
  ∧ operations k' = operations k1
  ∧ resource_map k' = resource_map k1
  ∧ ∀ i, Operation.set_is_scheduled false <$> operation_map k' !! i
         = Operation.set_is_scheduled false <$> operation_map k1 !! i.
Proof.
  intros Hconfig Hattached Hbody Hconfig1 Hattached1 k'. subst k'.
  unfold run_entry. rewrite entry_prologue by done. rewrite Hbody.
  destruct (schedule_next_inner_frame k1) as (Hops & Hres & _ & _ & Hmap).
  destruct (schedule_next_inner_config k1) as [Hcfg Hatt].
  rewrite Hconfig1, Hconfig in Hcfg. rewrite Hattached1, Hattached in Hatt.
  by destruct (schedule_next_inner k1) as [k2 [[]|[e|]|w]].
Qed.

(** The signal that satisfies the wait for one resource. *)
Lemma on_resource_signal_single r op :
  Operation.waiting_resources op = Some (list_to_set [r], All) ->
  Operation.status op = OperationStatus.Blocked ->
  (Operation.on_resource_signal r op).2 = true
  ∧ Operation.status (Operation.on_resource_signal r op).1
    = OperationStatus.Enabled.
Proof.
  intros Hwait Hstatus. unfold Operation.on_resource_signal. rewrite Hwait.
  assert (Operation.satisfied (list_to_set [r] ∖ {[r]}) All = true) as ->.
  { simpl. apply bool_decide_eq_true. set_solver. }
  simpl. unfold Operation.unblock. simpl. by rewrite Hstatus.
Qed.

(** The completion that satisfies the join on one operation. *)
Lemma on_join_operation_single i op :
  Operation.join_target op = Some (list_to_set [i], All) ->
  Operation.status op = OperationStatus.Blocked ->
  (Operation.on_join_operation i op).2 = true
  ∧ Operation.status (Operation.on_join_operation i op).1
    = OperationStatus.Enabled.
Proof.
  intros Hjoin Hstatus. unfold Operation.on_join_operation. rewrite Hjoin.
  assert (Operation.satisfied (list_to_set [i] ∖ {[i]}) All = true) as ->.
  { simpl. apply bool_decide_eq_true. set_solver. }
  simpl. unfold Operation.unblock. simpl. by rewrite Hstatus.
Qed.

(** A record known up to its token flag. *)
Lemma lookup_up_to_flag (m : gmap N Operation.t) i op :
  Operation.set_is_scheduled false <$> m !! i
  = Some (Operation.set_is_scheduled false op) ->
  ∃ op', m !! i = Some op'
         ∧ Operation.id op' = Operation.id op
         ∧ Operation.status op' = Operation.status op
         ∧ Operation.blocked_operation_ids op' = Operation.blocked_operation_ids op
         ∧ Operation.join_target op' = Operation.join_target op
         ∧ Operation.waiting_resources op' = Operation.waiting_resources op.
Proof.
  destruct (m !! i) as [op'|]; simpl; [|done]. intros [= ? ? ? ? ?].
  by exists op'.
Qed.

(** [wait_resource] on an existing resource, by a registered caller. *)
Lemma wait_resource_blocks k r blocked op :
  exploration_strategy k = StrategyPCT ->
  is_attached k = true ->
  operation_map k !! scheduled_op_id k = Some op ->
  resource_map k !! r = Some blocked ->
  let k' := fst (wait_resource r k) in
  exploration_strategy k' = StrategyPCT
  ∧ is_attached k' = true
  ∧ operations k' = Operations.disable (Operation.id op) (operations k)
  ∧ resource_map k' !! r = Some ({[scheduled_op_id k]} ∪ blocked)
  ∧ Operation.set_is_scheduled false <$> operation_map k' !! scheduled_op_id k
    = Some (Operation.set_is_scheduled false
              (Operation.wait_resource_signal r op)).
Proof.
  intros Hconfig Hattached Hop Hr k'.
  set (k1 := set_resource_map
               (<[r := {[scheduled_op_id k]} ∪ blocked]> (resource_map k))
               (set_operations
                  (Operations.disable (Operation.id op) (operations k))
                  (set_operation_map
                     (alter (Operation.wait_resource_signal r)
                        (scheduled_op_id k) (operation_map k)) k))).
  destruct (blocking_entry_frame
              (bind (block_scheduled (Operation.wait_resource_signal r))
                 (fun _ => bind (block_on_resource r)
                             (fun _ => schedule_next_inner))) k k1)
    as (Hconfig' & Hattached' & Hops & Hres & Hmap); try done.
  { erewrite (bind_Done (block_scheduled _)).
    2:{ unfold block_scheduled. rewrite (bind_Done get _ k k k) by done.
        rewrite (bind_Done _ _ k k op) by (by apply operation_at_Some).
        reflexivity. }
    erewrite (bind_Done (block_on_resource _)); [done|].
    unfold block_on_resource. erewrite (bind_Done get) by reflexivity.
    simpl. by rewrite Hr. }
  subst k'. split; [done|]. split; [done|]. split; [done|].
  split.
  - unfold wait_resource. rewrite Hres. subst k1. simpl.
    by rewrite lookup_insert_eq.
  - unfold wait_resource. rewrite Hmap. subst k1. simpl.
    by rewrite lookup_alter_eq, Hop.
Qed.

(** [join_operation] on an operation that has not completed, by a registered
    caller other than the target. *)
Lemma join_operation_blocks k i op target :
  exploration_strategy k = StrategyPCT ->
  is_attached k = true ->
  operation_map k !! scheduled_op_id k = Some op ->
  operation_map k !! i = Some target ->
  Operation.status target ≠ OperationStatus.Completed ->
  scheduled_op_id k ≠ i ->
  let k' := fst (join_operation i k) in
  exploration_strategy k' = StrategyPCT
  ∧ is_attached k' = true
  ∧ operations k' = Operations.disable (Operation.id op) (operations k)
  ∧ Operation.set_is_scheduled false <$> operation_map k' !! scheduled_op_id k
    = Some (Operation.set_is_scheduled false (Operation.join_operation i op))
  ∧ Operation.set_is_scheduled false <$> operation_map k' !! i
    = Some (Operation.set_is_scheduled false
              (add_joiner (scheduled_op_id k) target)).
Proof.
  intros Hconfig Hattached Hop Htarget Hlive Hne k'.
  set (m1 := alter (add_joiner (scheduled_op_id k)) i (operation_map k)).
  set (k1 := set_operations
               (Operations.disable (Operation.id op) (operations k))
               (set_operation_map
                  (alter (Operation.join_operation i) (scheduled_op_id k) m1)
                  k)).
  destruct (blocking_entry_frame
              (bind get (fun k0 =>
                 match operation_map k0 !! i with
                 | None => throw NotExistingOperation
                 | Some join_op =>
                     if decide (Operation.status join_op
                                ≠ OperationStatus.Completed)
                     then
                       bind (update_operation i
                               (add_joiner (scheduled_op_id k0)))
                         (fun _ =>
                            bind (block_scheduled (Operation.join_operation i))
                              (fun _ => schedule_next_inner))
                     else ret tt
                 end)) k k1)
    as (Hconfig' & Hattached' & Hops & Hres & Hmap); try done.
  { rewrite (bind_Done get _ k k k) by done. rewrite Htarget.
    destruct (decide _) as [_|]; [|done].
    rewrite (bind_Done (update_operation _ _) _ k _ tt) by reflexivity.
    erewrite (bind_Done (block_scheduled _)); [done|].
    unfold block_scheduled. erewrite (bind_Done get) by reflexivity.
    erewrite (bind_Done (operation_at _)).
    2:{ apply operation_at_Some. simpl. rewrite lookup_alter_ne by done.
        exact Hop. }
    reflexivity. }
  subst k'. split; [done|]. split; [done|]. split; [done|].
  unfold join_operation. rewrite !Hmap. subst k1 m1. simpl. split.
  - rewrite lookup_alter_eq, lookup_alter_ne by done. by rewrite Hop.
  - rewrite lookup_alter_ne, lookup_alter_eq by done. by rewrite Htarget.
Qed.

(** The records of the operations that were blocked on a signalled
    resource. *)
Lemma signal_resource_records k r blocked :
  exploration_strategy k = StrategyPCT ->
  is_attached k = true ->
  resource_map k !! r = Some blocked ->
  (∀ b, b ∈ blocked ->
        ∃ op, operation_map k !! b = Some op ∧ Operation.id op = b) ->
  ∀ b op, b ∈ blocked -> operation_map k !! b = Some op ->
    operation_map (fst (signal_resource r k)) !! b
    = Some (Operation.on_resource_signal r op).1.
Proof.
  intros Hconfig Hattached Hres Hreg b op Hb Hop.
  destruct (notify_blocked_loop r (elements blocked) k)
    as (k1 & Hloop & _ & _ & _ & _ & Hin & _).
  { apply NoDup_elements. }
  { intros b' Hb'. apply Hreg. by apply elem_of_elements. }
  assert (signal_resource r k
          = (set_resource_map (<[r := ∅]> (resource_map k1)) k1,
             Returned (last_error_code k1))) as ->.
  { unfold signal_resource, run_entry. rewrite entry_prologue by done.
    rewrite (bind_Done get _ k k k) by done. rewrite Hres.
    by rewrite (bind_Done _ _ k k1 tt) by done. }
  simpl. apply Hin; [by apply elem_of_elements|done].
Qed.

End KernelBlocking.

Section KernelPCTBlocking.
Context {G : Type} `{RandomGen G}.
Implicit Types (k : SchedulerClient (PCTStrategy G)).

Lemma reachable_registered_record k i op :
  reachable k -> operation_map k !! i = Some op -> Operation.id op = i.
Proof.
  intros Hreach Hop.
  destruct (reachable_kernel_closed k Hreach) as (Hrecords & _).
  by destruct (Hrecords i op Hop).
Qed.

(** X27: no wake-up is lost between [wait_resource] and [signal_resource].
    In every reachable state of an attached kernel, when the token holder
    (a member of the enabled set) waits for an existing resource, it is
    blocked, disabled and in the blocked set of the resource afterwards; and
    a [signal_resource] on the resource after that leaves it with status
    [Enabled], enabled in the enabled set, and the blocked set empty. *)
Theorem wait_then_signal_wakes_the_waiter k r blocked :
  reachable k ->
  exploration_strategy k = StrategyPCT ->
  is_attached k = true ->
  resource_map k !! r = Some blocked ->
  Operations.mem (scheduled_op_id k) (operations k) = true ->
  let waiter := scheduled_op_id k in
  let k1 := fst (wait_resource r k) in
  let k2 := fst (signal_resource r k1) in
  status_of waiter k1 = Some OperationStatus.Blocked
  ∧ Operations.is_enabled waiter (operations k1) = false
  ∧ resource_map k1 !! r = Some ({[waiter]} ∪ blocked)
  ∧ status_of waiter k2 = Some OperationStatus.Enabled
  ∧ Operations.is_enabled waiter (operations k2) = true
  ∧ resource_map k2 !! r = Some ∅.
Proof.
  intros Hreach Hconfig Hattached Hres Hmember waiter k1 k2.
  destruct (reachable_attached_registered k Hreach Hattached) as [[op Hop] _].
  pose proof (reachable_registered_record k _ op Hreach Hop) as Hid.
  destruct (wait_resource_blocks k r blocked op Hconfig Hattached Hop Hres)
    as (Hconfig1 & Hattached1 & Hops1 & Hres1 & Hmap1).
  fold k1 in Hconfig1, Hattached1, Hops1, Hres1, Hmap1. fold waiter in Hres1, Hmap1.
  destruct (lookup_up_to_flag _ _ _ Hmap1)
    as (op1 & Hop1 & _ & Hstatus1 & _ & _ & Hwait1).
  assert (reachable k1) as Hreach1
    by apply (reachable_call (CallWaitResource r) k Hreach).
  destruct (on_resource_signal_single r op1 Hwait1 Hstatus1) as [Hsat Henabled].
  assert (∀ b, b ∈ {[waiter]} ∪ blocked ->
               ∃ opb, operation_map k1 !! b = Some opb ∧ Operation.id opb = b)
    as Hreg.
  { intros b Hb. destruct (reachable_kernel_closed k1 Hreach1) as (_ & Hwaiters & _).
    destruct (Hwaiters r _ b Hres1 Hb) as [opb Hopb]. exists opb.
    split; [done|]. by apply (reachable_registered_record k1). }
  destruct (signal_resource_registered k1 r _ Hconfig1 Hattached1 Hres1 Hreg)
    as (_ & Hwake & Hempty & _).
  assert (waiter ∈ {[waiter]} ∪ blocked) as Hin by set_solver.
  split; [|split; [|split; [|split; [|split]]]].
  - unfold status_of. rewrite Hop1. simpl. by rewrite Hstatus1.
  - rewrite Hops1, Hid. apply is_enabled_set_flag_false.
  - done.
  - unfold status_of. subst k2.
    rewrite (signal_resource_records k1 r _ Hconfig1 Hattached1 Hres1 Hreg
               waiter op1 Hin Hop1).
    simpl. by rewrite Henabled.
  - apply (Hwake waiter op1 Hin Hop1 Hsat). rewrite Hops1.
    unfold Operations.disable. by rewrite mem_set_flag.
  - done.
Qed.

(** X28: no wake-up is lost between [join_operation] and
    [complete_operation].  In every reachable state of an attached kernel,
    when the token holder (a member of the enabled set) joins another
    operation that is started and not completed, it is blocked and disabled
    afterwards; and the completion of the target after that leaves the
    target [Completed] and the joiner with status [Enabled], enabled in the
    enabled set. *)
Theorem join_then_complete_wakes_the_joiner k i target :
  reachable k ->
  exploration_strategy k = StrategyPCT ->
  is_attached k = true ->
  i ≠ main_op_id ->
  scheduled_op_id k ≠ i ->
  operation_map k !! i = Some target ->
  Operation.status target ≠ OperationStatus.Completed ->
  Operation.status target ≠ OperationStatus.None ->
  Operations.mem (scheduled_op_id k) (operations k) = true ->
  let joiner := scheduled_op_id k in
  let k1 := fst (join_operation i k) in
  let k2 := fst (complete_operation i k1) in
  status_of joiner k1 = Some OperationStatus.Blocked
  ∧ Operations.is_enabled joiner (operations k1) = false
  ∧ status_of i k2 = Some OperationStatus.Completed
  ∧ status_of joiner k2 = Some OperationStatus.Enabled
  ∧ Operations.is_enabled joiner (operations k2) = true.
Proof.
  intros Hreach Hconfig Hattached Hmain Hne Htarget Hlive Hstarted Hmember
    joiner k1 k2.
  destruct (reachable_attached_registered k Hreach Hattached) as [[op Hop] _].
  pose proof (reachable_registered_record k _ op Hreach Hop) as Hid.
  destruct (join_operation_blocks k i op target Hconfig Hattached Hop Htarget
              Hlive Hne)
    as (Hconfig1 & Hattached1 & Hops1 & Hjoiner1 & Htarget1).
  fold k1 in Hconfig1, Hattached1, Hops1, Hjoiner1, Htarget1.
  fold joiner in Hjoiner1, Htarget1.
  destruct (lookup_up_to_flag _ _ _ Hjoiner1)
    as (op1 & Hop1 & _ & Hstatus1 & _ & Hjoin1 & _).
  destruct (lookup_up_to_flag _ _ _ Htarget1)
    as (target1 & Htarget1' & _ & Hstatus_target & Hjoiners & _).
  assert (reachable k1) as Hreach1
    by apply (reachable_call (CallJoinOperation i) k Hreach).
  destruct (on_join_operation_single i op1 Hjoin1 Hstatus1) as [Hsat Henabled].
  assert (joiner ∈ Operation.blocked_operation_ids target1) as Hin.
  { rewrite Hjoiners. simpl. set_solver. }
  destruct (reachable_kernel_closed k1 Hreach1) as (Hrecords & _).
  destruct (Hrecords i target1 Htarget1') as [Hid_target Hregistered].
  destruct (complete_operation_registered k1 i target1 Hconfig1 Hattached1
              Hmain Htarget1' Hid_target)
    as (Hcompleted & _ & _ & Hwake & Hrecord).
  { by rewrite Hstatus_target. }
  { by rewrite Hstatus_target. }
  { intros b Hb. destruct (Hregistered b Hb) as [opb Hopb]. exists opb.
    split; [done|]. by apply (reachable_registered_record k1). }
  split; [|split; [|split; [|split]]].
  - unfold status_of. rewrite Hop1. simpl. by rewrite Hstatus1.
  - rewrite Hops1, Hid. apply is_enabled_set_flag_false.
  - done.
  - pose proof (Hrecord joiner op1 Hin Hne Hop1) as Hflag.
    destruct (lookup_up_to_flag _ _ _ Hflag) as (op2 & Hop2 & _ & Hstatus2 & _).
    unfold status_of. fold k2 in Hop2. rewrite Hop2. simpl.
    by rewrite Hstatus2, Henabled.
  - apply (Hwake joiner op1 Hin Hne Hop1 Hsat). rewrite Hops1.
    unfold Operations.disable. by rewrite mem_set_flag.
Qed.

End KernelPCTBlocking.

(** ** New operations *)

Section KernelSpawn.
Context {S : Type} `{Strategy S}.
Implicit Types (k : SchedulerClient S) (op : Operation.t).

(** The creation of a further operation, under a new id. *)
Lemma create_further_operation i k :
  operation_map k !! i = None ->
  operation_map k ≠ ∅ ->
  create_operation_inner i k
  = (set_pending_start_operation_count
       (wrap64 (pending_start_operation_count k + 1))
       (set_operation_map (<[i := Operation.new i]> (operation_map k)) k),
     Done tt).
Proof.
  intros Hnew Hmap.
  assert (Nat.eqb (size (<[i := Operation.new i]> (operation_map k))) 1 = false)
    as Hsize.
  { rewrite map_size_insert_None by done. apply Nat.eqb_neq.
    intros [= Hzero]. by apply map_size_empty_iff in Hzero. }
  assert (∀ k0, operation_map k0 = <[i := Operation.new i]> (operation_map k) ->
                insert_and_schedule_first i k0 = (k0, Done tt)) as Hagain.
  { intros k0 Hk0. unfold insert_and_schedule_first, map_insert_new.
    rewrite (bind_Done (modify _) _ k0 k0 tt).
    2:{ unfold modify. rewrite Hk0, lookup_insert_eq, <- Hk0. by destruct k0. }
    rewrite (bind_Done get _ k0 k0 k0) by done. by rewrite Hk0, Hsize. }
  unfold create_operation_inner. rewrite (bind_Done get _ k k k) by done.
  rewrite Hnew.
  rewrite (bind_Done _ _ k
             (set_operation_map (<[i := Operation.new i]> (operation_map k)) k)
             tt).
  2:{ unfold insert_and_schedule_first, map_insert_new.
      rewrite (bind_Done (modify _) _ k _ tt) by reflexivity. rewrite Hnew.
      erewrite (bind_Done get) by reflexivity. simpl. by rewrite Hsize. }
  set (k1 := set_operation_map _ k).
  by rewrite (bind_Done _ _ k1 k1 tt (Hagain k1 eq_refl)).
Qed.

Lemma is_enabled_mem i ops :
  Operations.is_enabled i ops = true -> Operations.mem i ops = true.
Proof.
  unfold Operations.is_enabled, Operations.mem.
  induction ops as [|[j f] rest IH]; simpl; [done|].
  rewrite !orb_true_iff, andb_true_iff. naive_solver.
Qed.

Lemma insert_new_member i ops :
  Operations.mem i ops = false ->
  Operations.insert i ops = Ok (ops ++ [(i, true)])
  ∧ Operations.is_enabled i (ops ++ [(i, true)]) = true.
Proof.
  intros Hmem. split.
  - unfold Operations.insert. rewrite Hmem.
    destruct (Operations.is_enabled i ops) eqn:Henabled; [|done].
    apply is_enabled_mem in Henabled. congruence.
  - unfold Operations.is_enabled. rewrite existsb_app. simpl.
    by rewrite N.eqb_refl, orb_true_r.
Qed.

Lemma wrap64_increment_decrement n :
  n < uint64_modulus -> wrap64 (wrap64 (n + 1) + (uint64_modulus - 1)) = n.
Proof.
  intros Hn. unfold wrap64.
  assert (uint64_modulus ≠ 0) as Hmod by done.
  rewrite N.Div0.add_mod_idemp_l.
  replace (n + 1 + (uint64_modulus - 1)) with (n + 1 * uint64_modulus).
  - rewrite N.Div0.mod_add. by apply N.mod_small.
  - unfold uint64_modulus in *. lia.
Qed.

End KernelSpawn.

Section KernelPCTSpawn.
Context {G : Type} `{RandomGen G}.
Implicit Types (k : SchedulerClient (PCTStrategy G)).

(** X29: a new operation waits for its turn.  In every reachable state of
    an attached kernel, [create_operation] under an id that is not
    registered returns without error, registers the operation with status
    [None] and counts one pending start; [start_operation] on it then sets
    its status to [Enabled], enables it in the enabled set, brings the count
    of pending starts back to what it was, leaves the token where it is, and
    parks the calling thread until the operation is scheduled. *)
Theorem create_then_start_parks_the_new_operation k i :
  reachable k ->
  exploration_strategy k = StrategyPCT ->
  is_attached k = true ->
  i ≠ main_op_id ->
  operation_map k !! i = None ->
  pending_start_operation_count k < uint64_modulus ->
  let k1 := fst (create_operation i k) in
  let k2 := fst (start_operation i k1) in
  snd (create_operation i k) = Returned (last_error_code k)
  ∧ status_of i k1 = Some OperationStatus.None
  ∧ pending_start_operation_count k1
    = wrap64 (pending_start_operation_count k + 1)
  ∧ snd (start_operation i k1) = Waiting (ParkedOn i)
  ∧ status_of i k2 = Some OperationStatus.Enabled
  ∧ Operations.is_enabled i (operations k2) = true
  ∧ pending_start_operation_count k2 = pending_start_operation_count k
  ∧ scheduled_op_id k2 = scheduled_op_id k.
Proof.
  intros Hreach Hconfig Hattached Hmain Hnew Hpending k1 k2.
  destruct (reachable_attached_registered k Hreach Hattached)
    as [_ [main_op Hmain_op]].
  assert (operation_map k ≠ ∅) as Hmap.
  { intros Hempty. by rewrite Hempty, lookup_empty in Hmain_op. }
  assert (create_operation i k
          = (set_pending_start_operation_count
               (wrap64 (pending_start_operation_count k + 1))
               (set_operation_map (<[i := Operation.new i]> (operation_map k))
                  k),
             Returned (last_error_code k))) as Hcreate.
  { rewrite create_operation_no_duplicate by (try done; by rewrite Hnew).
    by rewrite create_further_operation. }
  assert (Operations.mem i (operations k) = false) as Hmember.
  { destruct (Operations.mem i (operations k)) eqn:Hmem; [|done].
    destruct (reachable_kernel_closed k Hreach) as (_ & _ & Hmembers).
    destruct (Hmembers i Hmem) as [op Hop]. congruence. }
  destruct (insert_new_member i (operations k) Hmember) as [Hinsert Henabled].
  subst k2 k1. rewrite Hcreate. simpl.
  rewrite (start_operation_starts _ i (Operation.new i)
             (operations k ++ [(i, true)]))
    by (try done; simpl; by rewrite lookup_insert_eq).
  simpl. unfold status_of. simpl.
  rewrite lookup_insert_eq, lookup_alter_eq, lookup_insert_eq. simpl.
  repeat split; try done. by apply wrap64_increment_decrement.
Qed.

End KernelPCTSpawn.

(** ** Blocking, waking up and new operations on concrete inputs *)

Lemma kernel_with_resource_reachable : reachable kernel_with_resource.
Proof. do 2 apply reachable_run. constructor. Qed.

Lemma wait_then_signal_wakes_the_waiter_witness :
  Operations.mem (scheduled_op_id kernel_with_resource)
    (operations kernel_with_resource) = true
  ∧ status_of 0 (fst (wait_resource 5 kernel_with_resource))
    = Some OperationStatus.Blocked
  ∧ status_of 0
      (fst (signal_resource 5 (fst (wait_resource 5 kernel_with_resource))))
    = Some OperationStatus.Enabled.
Proof.
  assert (exploration_strategy kernel_with_resource = StrategyPCT) as Hconfig
    by (vm_compute; reflexivity).
  assert (is_attached kernel_with_resource = true) as Hattached
    by (vm_compute; reflexivity).
  assert (resource_map kernel_with_resource !! 5 = Some ∅) as Hresource
    by (vm_compute; reflexivity).
  assert (Operations.mem (scheduled_op_id kernel_with_resource)
            (operations kernel_with_resource) = true) as Hmember
    by (vm_compute; reflexivity).
  split; [exact Hmember|].
  destruct (wait_then_signal_wakes_the_waiter kernel_with_resource 5 ∅
              kernel_with_resource_reachable Hconfig Hattached Hresource
              Hmember)
    as (Hblocked & _ & _ & Henabled & _).
  split; [exact Hblocked|exact Henabled].
Defined.

Lemma join_then_complete_wakes_the_joiner_witness :
  scheduled_op_id kernel_started ≠ 1
  ∧ status_of 0 (fst (join_operation 1 kernel_started))
    = Some OperationStatus.Blocked
  ∧ status_of 0
      (fst (complete_operation 1 (fst (join_operation 1 kernel_started))))
    = Some OperationStatus.Enabled.
Proof.
  assert (exploration_strategy kernel_started = StrategyPCT) as Hconfig
    by (vm_compute; reflexivity).
  assert (is_attached kernel_started = true) as Hattached
    by (vm_compute; reflexivity).
  assert (scheduled_op_id kernel_started ≠ 1) as Hother
    by (vm_compute; discriminate).
  assert (operation_map kernel_started !! 1
          = Some (Operation.mk 1 OperationStatus.Enabled false ∅ None None))
    as Htarget by (vm_compute; reflexivity).
  assert (Operations.mem (scheduled_op_id kernel_started)
            (operations kernel_started) = true) as Hmember
    by (vm_compute; reflexivity).
  split; [exact Hother|].
  destruct (join_then_complete_wakes_the_joiner kernel_started 1 _
              kernel_started_reachable Hconfig Hattached ltac:(done) Hother
              Htarget ltac:(done) ltac:(done) Hmember)
    as (Hblocked & _ & _ & Henabled & _).
  split; [exact Hblocked|exact Henabled].
Defined.

Lemma kernel_attached_reachable : reachable kernel_attached.
Proof. apply reachable_run. constructor. Qed.

Lemma create_then_start_parks_the_new_operation_witness :
  operation_map kernel_attached !! 1 = None
  ∧ snd (start_operation 1 (fst (create_operation 1 kernel_attached)))
    = Waiting (ParkedOn 1)
  ∧ pending_start_operation_count
      (fst (start_operation 1 (fst (create_operation 1 kernel_attached))))
    = pending_start_operation_count kernel_attached.
Proof.
  destruct kernel_attached_state as [Hconfig Hattached].
  assert (operation_map kernel_attached !! 1 = None) as Hnew
    by (vm_compute; reflexivity).
  assert (pending_start_operation_count kernel_attached < uint64_modulus)
    as Hpending by (vm_compute; reflexivity).
  split; [exact Hnew|].
  destruct (create_then_start_parks_the_new_operation kernel_attached 1
              kernel_attached_reachable Hconfig Hattached ltac:(done) Hnew
              Hpending)
    as (_ & _ & _ & Hparked & _ & _ & Hcount & _).
  split; [exact Hparked|exact Hcount].
Defined.
